(** * Cross-reference queries over a graph store (kythe/go/storage/xrefs)

    A shallow embedding of [xrefs.go]: the reverse-edge bootstrap and the
    four queries [Nodes], [Edges], [Decorations] and [CrossReferences],
    together with the helpers they call.  Store calls, log lines, errors
    and run-time panics are explicit: every operation is a function from
    a [World] to an [outcome] and a new [World]. *)

From Stdlib Require Import ZArith Ascii String.
From stdpp Require Import gmap strings list fin_maps sorting.

Local Open Scope string_scope.
Local Open Scope list_scope.
Local Open Scope Z_scope.

(** ** Data model *)

(** [spb.VName]: the structured identity of a node. *)
Record VName := mkVName {
  Signature : string;
  Corpus : string;
  Root : string;
  Path : string;
  Language : string
}.

#[global] Instance VName_eq_dec : EqDecision VName.
Proof. solve_decision. Defined.

(** [spb.Entry].  Byte slices ([]byte) are byte strings; a node fact has an
    empty [EdgeKind] and carries the zero [VName] as its target. *)
Record Entry := mkEntry {
  Source : VName;
  EdgeKind : string;
  Target : VName;
  FactName : string;
  FactValue : string
}.

#[global] Instance Entry_eq_dec : EqDecision Entry.
Proof. solve_decision. Defined.

(** [spb.WriteRequest_Update]. *)
Record Update := mkUpdate {
  UTarget : VName;
  UEdgeKind : string;
  UFactName : string;
  UFactValue : string
}.

(** ** Constants of package [facts] (facts.go) *)
Module facts.
Definition prefix := "/kythe/".
Definition AnchorEnd := prefix +:+ "loc/end".
Definition AnchorStart := prefix +:+ "loc/start".
Definition Complete := prefix +:+ "complete".
Definition Format := prefix +:+ "format".
Definition NodeKind := prefix +:+ "node/kind".
Definition SnippetEnd := prefix +:+ "snippet/end".
Definition SnippetStart := prefix +:+ "snippet/start".
Definition Subkind := prefix +:+ "subkind".
Definition Text := prefix +:+ "text".
Definition TextEncoding := prefix +:+ "text/encoding".
Definition DefaultTextEncoding := "UTF-8".
End facts.

(** ** Edge-kind helpers (package [edges]) *)
Module edges.
(** Modelled from the spec: package [edges] is not part of the sources
    at hand.  A reverse kind carries the direction marker as a prefix
    (spec 3, 6; scenario S2 shows the marker, a percent sign);
    classification is by presence of the marker and [Mirror] toggles it. *)
Definition reversePrefix := "%".

Definition IsReverse (kind : string) : bool :=
  match kind with
  | String c _ => bool_decide (c = "%"%char)
  | EmptyString => false
  end.

Definition IsForward (kind : string) : bool := negb (IsReverse kind).

Definition Canonical (kind : string) : string :=
  match kind with
  | String c rest => if bool_decide (c = "%"%char) then rest else kind
  | EmptyString => kind
  end.

Definition Mirror (kind : string) : string :=
  if IsReverse kind then Canonical kind else reversePrefix +:+ kind.

(** Modelled from the spec: the [childof] edge kind, written in full in
    scenario S2. *)
Definition ChildOf := "/kythe/edge/childof".
End edges.

(** Modelled from the spec: the node kind of anchors (spec 3). *)
Module nodes.
Definition Anchor := "anchor".
End nodes.

(** ** Outcomes, errors and log lines *)

(** Go errors.  [EStore] is an error returned by the store itself,
    [ETicket] the one a ticket parser returns for a malformed ticket, [EMsg]
    an error made with [errors.New] or [fmt.Errorf] without a cause, and
    [EWrap] one made with [fmt.Errorf("...: %v", err)]. *)
Inductive error :=
| EStore
| ETicket (ticket : string)
| EMsg (msg : string)
| EWrap (msg : string) (cause : error).

(** Why a Go program panics in this package. *)
Inductive panicKind :=
| NilMapWrite
| NilDereference
| SliceBounds.

(** What a call produces: a value, an error, or a run-time panic. *)
Inductive outcome (A : Type) :=
| Ok (a : A)
| Fail (e : error)
| Panic (p : panicKind).
Arguments Ok {A} a.
Arguments Fail {A} e.
Arguments Panic {A} p.

(** One constructor for each [log.Print*] call site of xrefs.go. *)
Inductive LogLine :=
| LogNoEdges
| LogAddingReverse
| LogWroteReverse (added total : nat)
| LogInvalidStart (ticket : string)
| LogInvalidEnd (ticket : string)
| LogInvalidOffsetSpan (start end_ : Z)
| LogMissingForward (anchor : VName)
| LogInvalidAnchorSpan (ticket : string)
| LogInvalidAnchorInFile (ticket parent : string)
| LogDecodeAnchorText
| LogInvalidSnippetSpan (ticket parent : string)
| LogDecodeSnippet
| LogExtraEdgesCall (token : string).

(** ** The graph store *)

(** The calls a query can make on the store. *)
Inductive StoreCall :=
| CallScan
| CallRead (source : VName) (kind : string)
| CallWrite (source : VName) (updates : list Update).

(** The state a query runs against.  [entries] is the content of the
    store in delivery order, [calls] the store calls made so far (latest
    first), [logged] the log lines written so far (latest first), and
    [faulty n] tells whether the store call number [n] fails. *)
Record World := mkWorld {
  entries : list Entry;
  calls : list StoreCall;
  logged : list LogLine;
  faulty : nat → bool
}.

Definition M (A : Type) : Type := World → outcome A * World.

Definition ret {A} (a : A) : M A := λ w, (Ok a, w).

Definition bind {A B} (m : M A) (k : A → M B) : M B :=
  λ w, match m w with
       | (Ok a, w') => k a w'
       | (Fail e, w') => (Fail e, w')
       | (Panic p, w') => (Panic p, w')
       end.

Definition fail {A} (e : error) : M A := λ w, (Fail e, w).
Definition panic {A} (p : panicKind) : M A := λ w, (Panic p, w).

(** Replace the error of a failing computation ([fmt.Errorf] around a
    returned error). *)
Definition mapErr {A} (f : error → error) (m : M A) : M A :=
  λ w, match m w with
       | (Fail e, w') => (Fail (f e), w')
       | r => r
       end.

(** Run a computation and hand its error, if any, to the caller as a
    value ([if err := f(); err != nil]). *)
Definition tryM {A} (m : M A) : M (error + A) :=
  λ w, match m w with
       | (Ok a, w') => (Ok (inr a), w')
       | (Fail e, w') => (Ok (inl e), w')
       | (Panic p, w') => (Panic p, w')
       end.

Declare Scope xm_scope.
Delimit Scope xm_scope with xm.
Notation "'let*' x ':=' c1 'in' c2" := (bind c1 (λ x, c2))
  (at level 10, x pattern, c1 at level 100, c2 at level 200) : xm_scope.
Notation "c1 ;;; c2" := (bind c1 (λ _, c2))
  (at level 100, right associativity) : xm_scope.
Local Open Scope xm_scope.

Definition logLine (l : LogLine) : M unit :=
  λ w, (Ok tt, mkWorld (entries w) (calls w) (l :: logged w) (faulty w)).

Definition recordCall (c : StoreCall) (w : World) : World :=
  mkWorld (entries w) (c :: calls w) (logged w) (faulty w).

(** Whether the next store call fails. *)
Definition nextFails (w : World) : bool := faulty w (length (calls w)).

(** Monadic left fold: a Go [for ... range] loop over a slice whose body
    may return early with an error. *)
Fixpoint foldM {A S} (f : S → A → M S) (l : list A) (s : S) : M S :=
  match l with
  | [] => ret s
  | a :: l' => let* s' := f s a in foldM f l' s'
  end.

(** Modelled from the spec: [graphstore.IsEdge] (spec 6). *)
Definition IsEdge (e : Entry) : bool := negb (bool_decide (EdgeKind e = "")).

(** What a visitor returns: [nil], the sentinel [io.EOF], or an error. *)
Inductive visit :=
| VContinue
| VStop
| VError (e : error).

Fixpoint visitAll {S} (f : S → Entry → M (S * visit)) (es : list Entry) (s : S)
    : M (S * option error) :=
  match es with
  | [] => ret (s, None)
  | e :: es' =>
      let* (s', r) := f s e in
      match r with
      | VContinue => visitAll f es' s'
      | VStop => ret (s', None)
      | VError err => ret (s', Some err)
      end
  end.

(** Modelled from the spec: [Scan] of the store contract (spec 6).  The
    visitor sees the entries present when the scan starts, in delivery
    order; the variables it captures are the state [s], which survives an
    error.  The result pairs that state with the error [Scan] returns. *)
Definition gsScan {S} (f : S → Entry → M (S * visit)) (s : S) : M (S * option error) :=
  λ w, if nextFails w then (Ok (s, Some EStore), recordCall CallScan w)
       else visitAll f (entries w) s (recordCall CallScan w).

(** Modelled from the spec: which entries a [Read] delivers (spec 6): an
    empty kind selects the node facts of the source, a star the node
    facts and all edges, any other kind the edges of exactly that kind. *)
Definition readMatches (source : VName) (kind : string) (e : Entry) : bool :=
  bool_decide (Source e = source) &&
  (if bool_decide (kind = "*") then true else bool_decide (EdgeKind e = kind)).

(** Modelled from the spec: [Read] of the store contract.  Every visitor
    of xrefs.go passed to [Read] returns [nil], so the visitor is a pure
    step on the variables it captures. *)
Definition gsRead {S} (source : VName) (kind : string) (f : S → Entry → S) (s : S) : M S :=
  λ w, if nextFails w then (Fail EStore, recordCall (CallRead source kind) w)
       else (Ok (foldl f s (filter (λ e, readMatches source kind e = true) (entries w))),
             recordCall (CallRead source kind) w).

Definition writtenEntry (source : VName) (u : Update) : Entry :=
  mkEntry source (UEdgeKind u) (UTarget u) (UFactName u) (UFactValue u).

(** Modelled from the spec: [Write] of the store contract; the store is
    append-only and the updates of a request join it in order. *)
Definition gsWrite (source : VName) (updates : list Update) : M unit :=
  λ w, if nextFails w then (Fail EStore, recordCall (CallWrite source updates) w)
       else (Ok tt, mkWorld (entries w ++ map (writtenEntry source) updates)
                            (CallWrite source updates :: calls w) (logged w) (faulty w)).

(** ** Reverse-edge bootstrap *)

(** The visitor [addReverseEdges] hands to [Scan]; the state is the pair
    of counters [(totalEntries, addedEdges)]. *)
Definition addReverseEdges_visitor : nat * nat → Entry → M (nat * nat * visit) :=
  λ '(totalEntries, addedEdges) entry,
      let kind := EdgeKind entry in
      if negb (bool_decide (kind = "")) && edges.IsForward kind then
        let* r := tryM (gsWrite (Target entry)
                          [mkUpdate (Source entry) (edges.Mirror kind)
                                    (FactName entry) (FactValue entry)]) in
        match r with
        | inl e => ret ((totalEntries, addedEdges),
                        VError (EWrap "Failed to write reverse edge" e))
        | inr _ => ret ((S totalEntries, S addedEdges), VContinue)
        end
      else ret ((S totalEntries, addedEdges), VContinue).

Definition addReverseEdges : M unit :=
  logLine LogAddingReverse ;;;
  let* (counts, err) := gsScan addReverseEdges_visitor (O, O) in
  logLine (LogWroteReverse (snd counts) (fst counts)) ;;;
  match err with
  | Some e => fail e
  | None => ret tt
  end.

(** The visitor of the first scan of [EnsureReverseEdges]: it keeps the
    first edge and stops there. *)
Definition firstEdge_visitor : option Entry → Entry → M (option Entry * visit) :=
  λ edge e, if IsEdge e then ret (Some e, VStop) else ret (edge, VContinue).

Definition EnsureReverseEdges : M unit :=
  let* (edge, err) := gsScan firstEdge_visitor None in
  match err with
  | Some e => fail e
  | None =>
      match edge with
      | None => logLine LogNoEdges ;;; ret tt
      | Some edge =>
          if edges.IsReverse (EdgeKind edge) then ret tt
          else
            let* foundReverse := mapErr (EWrap "error checking for reverse edge")
              (gsRead (Target edge) (edges.Mirror (EdgeKind edge))
                      (λ _ _, true) false) in
            if foundReverse : bool then ret tt else addReverseEdges
      end
  end.

(** ** Wire types of the queries *)

(** [xpb.Location_Point]; the three fields are int32. *)
Record Point := mkPoint {
  ByteOffset : Z;
  LineNumber : Z;
  ColumnOffset : Z
}.

Inductive LocationKind := Location_FILE | Location_SPAN.

#[global] Instance LocationKind_eq_dec : EqDecision LocationKind.
Proof. solve_decision. Defined.

(** [xpb.Location].  The points of a normalized span are always set; a
    file-kind location carries zero points. *)
Record Location := mkLocation {
  LTicket : string;
  LKind : LocationKind;
  LStart : Point;
  LEnd : Point
}.

(** [cpb.NodeInfo]: fact name to fact value. *)
Abbreviation NodeInfo := (gmap string string).

Record NodesRequest := mkNodesRequest {
  NTicket : list string;
  NFilter : list string
}.

Record NodesReply := mkNodesReply {
  NNodes : gmap string NodeInfo
}.

Record EdgesRequest := mkEdgesRequest {
  ETickets : list string;
  EKind : list string;
  EFilter : list string;
  EPageSize : Z;
  EPageToken : string
}.

(** [gpb.EdgeSet_Group_Edge]. *)
Record Edge := mkEdge {
  TargetTicket : string;
  Ordinal : Z
}.

(** [gpb.EdgeSet]: the groups of a source, edge kind to edges. *)
Abbreviation EdgeSet := (gmap string (list Edge)).

Record EdgesReply := mkEdgesReply {
  EdgeSets : gmap string EdgeSet;
  ENodes : gmap string NodeInfo;
  ENextPageToken : string
}.

Record DecorationsRequest := mkDecorationsRequest {
  DLocation : option Location;
  DSourceText : bool;
  DReferences : bool;
  DDirtyBuffer : string;
  DSpanKind : Z;
  DFilter : list string
}.

(** [xpb.DecorationsReply_Reference]. *)
Record Reference := mkReference {
  RSourceTicket : string;
  RKind : string;
  RTargetTicket : string;
  AnchorStart : Point;
  AnchorEnd : Point
}.

Record DecorationsReply := mkDecorationsReply {
  RLocation : Location;
  RSourceText : string;
  REncoding : string;
  RReference : list Reference;
  RNodes : gmap string NodeInfo
}.

Record CrossReferencesRequest := mkCrossReferencesRequest {
  XTicket : list string;
  XDefinitionKind : Z;
  XReferenceKind : Z;
  XDocumentationKind : Z;
  XAnchorText : bool;
  XFilter : list string;
  XPageSize : Z;
  XPageToken : string
}.

(** [xpb.Anchor]. *)
Record Anchor := mkAnchor {
  ATicket : string;
  AKind : string;
  AParent : string;
  AText : string;
  AStart : Point;
  AEnd : Point;
  ASnippet : string;
  ASnippetStart : option Point;
  ASnippetEnd : option Point
}.

(** [xpb.CrossReferencesReply_RelatedNode]. *)
Record RelatedNode := mkRelatedNode {
  RNTicket : string;
  RelationKind : string;
  RNOrdinal : Z
}.

(** [xpb.CrossReferencesReply_CrossReferenceSet]. *)
Record CrossReferenceSet := mkCrossReferenceSet {
  CTicket : string;
  CDefinition : list Anchor;
  CReference : list Anchor;
  CDocumentation : list Anchor;
  CRelatedNode : list RelatedNode
}.

(** [xpb.CrossReferencesReply]; [XNodes] is [None] while the map is nil. *)
Record CrossReferencesReply := mkCrossReferencesReply {
  CrossReferences_ : gmap string CrossReferenceSet;
  XNodes : option (gmap string NodeInfo);
  XNextPageToken : string
}.

(** [fileNode]: the normalizer of a file is determined by its text. *)
Record fileNode := mkFileNode {
  text : string;
  encoding : string
}.

(** [edgeTarget]. *)
Record edgeTarget := mkEdgeTarget {
  Kind : string;
  ETarget : VName;
  EOrdinal : Z
}.

(** ** Collaborators

    The packages xrefs.go imports from the rest of the repository, and
    which are not part of the sources at hand, as an interface. *)
Class Collaborators := {
  (** [kytheuri.ToVName]; [None] stands for its error. *)
  ToVName : string → option VName;
  (** [kytheuri.ToString]. *)
  ToString : VName → string;
  (** [tickets.AnchorFile]; [None] stands for its error. *)
  AnchorFile : string → option string;
  (** Whether the matcher compiled from a filter matches a fact name. *)
  filterMatches : string → string → bool;
  (** [edges.ParseOrdinal]: base kind, ordinal, whether one was present. *)
  ParseOrdinal : string → string * Z * bool;
  (** [edges.IsAnchorEdge]. *)
  IsAnchorEdge : string → bool;
  (** [xrefs.IsDefKind], [xrefs.IsRefKind], [xrefs.IsDocKind]. *)
  IsDefKind : Z → string → bool → bool;
  IsRefKind : Z → string → bool;
  IsDocKind : Z → string → bool;
  (** [xrefs.InSpanBounds kind start end spanStart spanEnd]. *)
  InSpanBounds : Z → Z → Z → Z → Z → bool;
  (** [text.ToUTF8 encoding bytes]: the string and the error returned. *)
  ToUTF8 : string → string → string * option error;
  (** The methods of [xrefs.Normalizer], applied to the text the
      normalizer was made from. *)
  normByteOffset : string → Z → Point;
  normPoint : string → Point → Point;
  normLocation : string → Location → error + Location
}.


(** ** Go primitives *)

(** Conversion to int32: the low 32 bits, read as a signed number. *)
Definition int32 (z : Z) : Z := (z + 2 ^ 31) mod 2 ^ 32 - 2 ^ 31.

Definition digitOf (c : ascii) : option Z :=
  let n := Z.of_N (N_of_ascii c) in
  if ((48 <=? n) && (n <=? 57))%Z then Some (n - 48) else None.

Fixpoint digitsValue (s : string) (acc : Z) : option Z :=
  match s with
  | EmptyString => Some acc
  | String c rest =>
      match digitOf c with
      | Some d => digitsValue rest (10 * acc + d)
      | None => None
      end
  end.

(** [strconv.Atoi]: an optional sign and one or more decimal digits, the
    value within the 64-bit [int]; [None] stands for its error. *)
Definition Atoi (s : string) : option Z :=
  let '(neg, body) :=
    match s with
    | String "-" rest => (true, rest)
    | String "+" rest => (false, rest)
    | _ => (false, s)
    end in
  match body with
  | EmptyString => None
  | _ =>
      match digitsValue body 0 with
      | Some v =>
          let v := if neg then - v else v in
          if ((- 2 ^ 63 <=? v) && (v <=? 2 ^ 63 - 1))%Z then Some v else None
      | None => None
      end
  end.

Definition len (s : string) : Z := Z.of_nat (String.length s).

(** The slice expression [b[lo:hi]] on a byte slice whose capacity is its
    length; [None] when Go panics with slice bounds out of range. *)
Definition slice (b : string) (lo hi : Z) : option string :=
  if ((0 <=? lo) && (lo <=? hi) && (hi <=? len b))%Z
  then Some (substring (Z.to_nat lo) (Z.to_nat (hi - lo)) b)
  else None.

Definition sliceM (b : string) (lo hi : Z) : M string :=
  match slice b lo hi with
  | Some s => ret s
  | None => panic SliceBounds
  end.

(** Reading a map at a key that may be absent gives the zero value. *)
Definition factOr (facts : NodeInfo) (name : string) : string :=
  default "" (facts !! name).

(** [bySpan.Less] on the two elements compared. *)
Definition bySpan_Less (si sj : Reference) : bool :=
  if (ByteOffset (AnchorStart si) <? ByteOffset (AnchorStart sj))%Z then true
  else if (ByteOffset (AnchorStart si) >? ByteOffset (AnchorStart sj))%Z then false
  else if (ByteOffset (AnchorEnd si) <? ByteOffset (AnchorEnd sj))%Z then true
  else false.

(** Modelled from the spec: [sort.Sort] of the Go standard library puts
    the slice in an order in which no element is [Less] than the one
    before it, and promises nothing about ties; a merge sort stands for
    it. *)
Definition bySpan_notAfter (a b : Reference) : Prop := bySpan_Less b a = false.

#[global] Instance bySpan_notAfter_dec : RelDecision bySpan_notAfter.
Proof. intros a b. unfold bySpan_notAfter. apply _. Defined.

Definition sortBySpan (refs : list Reference) : list Reference :=
  merge_sort bySpan_notAfter refs.

Section Queries.
Context `{Collaborators}.

(** Modelled from the spec: [xrefs.ConvertFilters] compiles each filter
    into a matcher (spec 4.2); a compiled matcher is identified with the
    filter it comes from. *)
Definition ConvertFilters (filters : list string) : list string := filters.

(** Modelled from the spec: [xrefs.MatchesAny] (spec 4.2). *)
Definition MatchesAny (name : string) (patterns : list string) : bool :=
  existsb (λ p, filterMatches p name) patterns.

Definition parseTicket (ticket : string) : M VName :=
  match ToVName ticket with
  | Some v => ret v
  | None => fail (ETicket ticket)
  end.

(** ** Nodes *)

(** The visitor [Nodes] hands to [Read]; the state is [info.Facts]. *)
Definition Nodes_visitor (patterns : list string) (facts : NodeInfo) (entry : Entry)
    : NodeInfo :=
  if (length patterns =? 0)%nat || MatchesAny (FactName entry) patterns
  then <[FactName entry := FactValue entry]> facts
  else facts.

(** The body of the first loop of [Nodes]: parse a ticket, append the name. *)
Definition Nodes_parse (names : list VName) (ticket : string) : M (list VName) :=
  let* name := parseTicket ticket in
  ret (names ++ [name]).

(** The body of the second loop of [Nodes], for the ticket at an index and
    the name parsed from it. *)
Definition Nodes_read (patterns : list string) (nodes : gmap string NodeInfo)
    (named : string * VName) : M (gmap string NodeInfo) :=
  let '(ticket, vname) := named in
  let* facts := gsRead vname "" (Nodes_visitor patterns) ∅ in
  if (0 <? size facts)%nat then ret (<[ticket := facts]> nodes) else ret nodes.

Definition Nodes (req : NodesRequest) : M NodesReply :=
  let patterns := ConvertFilters (NFilter req) in
  let* names := foldM Nodes_parse (NTicket req) [] in
  let* nodes := foldM (Nodes_read patterns) (zip (NTicket req) names) ∅ in
  ret (mkNodesReply nodes).

(** ** Edges *)

(** The visitor [Edges] hands to [Read]; the state is the pair
    [(filteredEdges, filteredFacts)], the first mapping an edge kind to
    the ordinals of each target ticket. *)
Definition Edges_visitor (req : EdgesRequest) (patterns : list string)
    (allowedKinds : gset string)
    (st : gmap string (gmap string (gset Z)) * NodeInfo) (entry : Entry)
    : gmap string (gmap string (gset Z)) * NodeInfo :=
  let '(filteredEdges, filteredFacts) := st in
  let edgeKind := EdgeKind entry in
  if bool_decide (edgeKind = "") then
    if (0 <? length patterns)%nat && MatchesAny (FactName entry) patterns
    then (filteredEdges, <[FactName entry := FactValue entry]> filteredFacts)
    else st
  else
    let '(edgeKind, ordinal, _) := ParseOrdinal edgeKind in
    if (length (EKind req) =? 0)%nat || bool_decide (edgeKind ∈ allowedKinds) then
      let targets := default ∅ (filteredEdges !! edgeKind) in
      let ticket := ToString (Target entry) in
      let ordSet := default ∅ (targets !! ticket) in
      (<[edgeKind := <[ticket := {[int32 ordinal]} ∪ ordSet]> targets]> filteredEdges,
       filteredFacts)
    else st.

(** The group of one edge kind: an edge for every ordinal of every target. *)
Definition groupOf (targets : gmap string (gset Z)) : list Edge :=
  flat_map (λ '(target, ordinals), map (mkEdge target) (elements ordinals))
           (map_to_list targets).

(** The targets [Edges] adds to [targetSet] for one source. *)
Definition targetsOf (filteredEdges : gmap string (gmap string (gset Z))) : gset string :=
  ⋃ (map (λ '(_, targets), dom targets) (map_to_list filteredEdges)).

(** The body of the loop of [Edges] over the tickets; the state is
    [(reply.EdgeSets, reply.Nodes, targetSet)]. *)
Definition Edges_ticket (req : EdgesRequest) (patterns : list string)
    (allowedKinds : gset string)
    (st : gmap string EdgeSet * gmap string NodeInfo * gset string) (ticket : string)
    : M (gmap string EdgeSet * gmap string NodeInfo * gset string) :=
  let '(edgeSets, nodes, targetSet) := st in
  let* vname := mapErr (EWrap ("invalid ticket " +:+ ticket)) (parseTicket ticket) in
  let* (filteredEdges, filteredFacts) :=
    mapErr (λ _, EMsg ("failed to retrieve entries for ticket " +:+ ticket))
      (gsRead vname "*" (Edges_visitor req patterns allowedKinds) (∅, ∅)) in
  if (0 <? size filteredEdges)%nat then
    ret (<[ticket := groupOf <$> filteredEdges]> edgeSets,
         (if (0 <? size filteredFacts)%nat
          then <[ticket := filteredFacts]> nodes else nodes),
         targetSet ∪ targetsOf filteredEdges)
  else ret st.

Definition Edges (req : EdgesRequest) : M EdgesReply :=
  if (length (ETickets req) =? 0)%nat then fail (EMsg "no tickets specified")
  else if negb (bool_decide (EPageToken req = "")) then fail (EMsg "UNIMPLEMENTED: page_token")
  else
    let patterns := ConvertFilters (EFilter req) in
    let allowedKinds : gset string := list_to_set (EKind req) in
    let* (edgeSets, nodes, targetSet) :=
      foldM (Edges_ticket req patterns allowedKinds) (ETickets req) (∅, ∅, ∅) in
    if (0 <? length (EFilter req))%nat then
      let targetSet : gset string := targetSet ∖ dom (nodes : gmap string NodeInfo) in
      let* nodesReply := mapErr (EWrap "failure getting target nodes")
        (Nodes (mkNodesRequest (elements targetSet) (EFilter req))) in
      ret (mkEdgesReply edgeSets (NNodes nodesReply ∪ nodes) "")
    else ret (mkEdgesReply edgeSets nodes "").

(** ** Decorations *)

Definition revChildOfEdgeKind : string := edges.Mirror edges.ChildOf.

(** The visitor of [getSourceText]; the state is [(text, encoding)], with
    [text] nil until a text fact is seen. *)
Definition getSourceText_visitor (st : option string * string) (entry : Entry)
    : option string * string :=
  let '(text, encoding) := st in
  if bool_decide (FactName entry = facts.Text) then (Some (FactValue entry), encoding)
  else if bool_decide (FactName entry = facts.TextEncoding) then (text, FactValue entry)
  else st.

Definition getSourceText (fileVName : VName) : M (string * string) :=
  let* (text, encoding) := mapErr (EWrap "read error")
    (gsRead fileVName "" getSourceText_visitor (None, "")) in
  match text with
  | None => fail (EMsg "file not found")
  | Some text => ret (text, encoding)
  end.

Definition getEdges_visitor (pred : Entry → bool) (targets : list edgeTarget)
    (entry : Entry) : list edgeTarget :=
  if IsEdge entry && pred entry then
    let '(edgeKind, ordinal, _) := ParseOrdinal (EdgeKind entry) in
    targets ++ [mkEdgeTarget edgeKind (Target entry) (int32 ordinal)]
  else targets.

Definition getEdges (node : VName) (pred : Entry → bool) : M (list edgeTarget) :=
  mapErr (EWrap "read error") (gsRead node "*" (getEdges_visitor pred) []).

Definition filterNode (patterns : list string) (node : NodeInfo) : option NodeInfo :=
  if (length patterns =? 0)%nat then None
  else
    let filteredFacts : NodeInfo :=
      filter (λ kv, MatchesAny kv.1 patterns = true) node in
    if (size filteredFacts =? 0)%nat then None else Some filteredFacts.

(** The references an anchor contributes, one for each target edge, and
    the targets added to [targetSet]. *)
Definition Decorations_targets (text ticket : string) (anchorStart anchorEnd : Z)
    (st : gset string * list Reference) (edge : edgeTarget)
    : gset string * list Reference :=
  let '(targetSet, refs) := st in
  let targetTicket := ToString (ETarget edge) in
  ({[targetTicket]} ∪ targetSet,
   refs ++ [mkReference ticket (Kind edge) targetTicket
              (normByteOffset text (int32 anchorStart))
              (normByteOffset text (int32 anchorEnd))]).

(** The edges of an anchor that [Decorations] follows: the forward edges
    other than [childof]. *)
Definition forwardNotChildOf (e : Entry) : bool :=
  edges.IsForward (EdgeKind e) && negb (bool_decide (EdgeKind e = edges.ChildOf)).

(** The body of the loop of [Decorations] over the children of the file;
    the state is [(targetSet, reply.Nodes, reply.Reference)].  Returning
    the state unchanged is the loop's [continue]. *)
Definition Decorations_child (req : DecorationsRequest) (text : string)
    (loc : Location) (patterns : list string)
    (st : gset string * gmap string NodeInfo * list Reference) (edge : edgeTarget)
    : M (gset string * gmap string NodeInfo * list Reference) :=
  let '(targetSet, replyNodes, refs) := st in
  let anchor := ETarget edge in
  let ticket := ToString anchor in
  let* anchorNodeReply := mapErr (EWrap "failure getting reference source node")
    (Nodes (mkNodesRequest [ticket] [])) in
  if negb (size (NNodes anchorNodeReply) =? 1)%nat then fail (EMsg "found nodes")
  else
    match NNodes anchorNodeReply !! ticket with
    | None => fail (EMsg ("failed to find info for node " +:+ ticket))
    | Some node =>
        if negb (bool_decide (factOr node facts.NodeKind = nodes.Anchor)) then ret st
        else
          match Atoi (factOr node facts.AnchorStart) with
          | None => logLine (LogInvalidStart ticket) ;;; ret st
          | Some anchorStart =>
              match Atoi (factOr node facts.AnchorEnd) with
              | None => logLine (LogInvalidEnd ticket) ;;; ret st
              | Some anchorEnd =>
                  let resolve : M (gset string * gmap string NodeInfo * list Reference) :=
                    let* targets := mapErr (EWrap "failed to retrieve targets of anchor")
                      (getEdges anchor forwardNotChildOf) in
                    if (length targets =? 0)%nat then
                      logLine (LogMissingForward anchor) ;;; ret st
                    else
                      let replyNodes :=
                        match filterNode patterns node with
                        | Some node => <[ticket := node]> replyNodes
                        | None => replyNodes
                        end in
                      let '(targetSet, refs) :=
                        foldl (Decorations_targets text ticket anchorStart anchorEnd)
                              (targetSet, refs) targets in
                      ret (targetSet, replyNodes, refs) in
                  if bool_decide (LKind loc = Location_SPAN) then
                    if negb (InSpanBounds (DSpanKind req) (int32 anchorStart)
                               (int32 anchorEnd) (ByteOffset (LStart loc))
                               (ByteOffset (LEnd loc)))
                    then ret st
                    else if (anchorStart >? anchorEnd)%Z then
                      logLine (LogInvalidOffsetSpan anchorStart anchorEnd) ;;; ret st
                    else resolve
                  else resolve
              end
          end
    end.

Definition Decorations (req : DecorationsRequest) : M DecorationsReply :=
  if (0 <? len (DDirtyBuffer req))%Z then fail (EMsg "UNIMPLEMENTED: dirty buffers")
  else
    match DLocation req with
    | None => fail (EMsg "missing location")
    | Some reqLoc =>
        let* fileVName := mapErr (EWrap ("invalid file ticket " +:+ LTicket reqLoc))
          (parseTicket (LTicket reqLoc)) in
        let* (text, encoding) := mapErr (EWrap "failed to retrieve file text")
          (getSourceText fileVName) in
        match normLocation text reqLoc with
        | inl e => fail e
        | inr loc =>
            let* (sourceText, replyEncoding) :=
              if DSourceText req then
                if bool_decide (LKind loc = Location_FILE) then ret (text, encoding)
                else
                  let* s := sliceM text (ByteOffset (LStart loc)) (ByteOffset (LEnd loc)) in
                  ret (s, encoding)
              else ret ("", "") in
            if DReferences req then
              let patterns := ConvertFilters (DFilter req) in
              let* children := mapErr (EWrap "failed to retrieve file children")
                (getEdges fileVName (λ e, bool_decide (EdgeKind e = revChildOfEdgeKind))) in
              let* (targetSet, replyNodes, refs) :=
                foldM (Decorations_child req text loc patterns) children (∅, ∅, []) in
              let refs := sortBySpan refs in
              if (0 <? length (DFilter req))%nat then
                let targetSet : gset string :=
                  targetSet ∖ dom (replyNodes : gmap string NodeInfo) in
                let* nodesReply := mapErr (EWrap "failure getting reference target nodes")
                  (Nodes (mkNodesRequest (elements targetSet) (DFilter req))) in
                ret (mkDecorationsReply loc sourceText replyEncoding refs
                       (NNodes nodesReply ∪ replyNodes))
              else ret (mkDecorationsReply loc sourceText replyEncoding refs replyNodes)
            else ret (mkDecorationsReply loc sourceText replyEncoding [] ∅)
        end
    end.

(** ** Anchor completion *)

(** Modelled from the spec: the filters of the location and snippet fact
    families that [completeAnchors] passes to [Nodes] (spec 4.8). *)
Definition AnchorLocFilter := "/kythe/loc/*".
Definition SnippetLocFilter := "/kythe/snippet/*".

Definition edgeTickets (grp : list Edge) : list string := map TargetTicket grp.

Definition getSpan (facts : NodeInfo) (startFact endFact : string) : error + Z * Z :=
  let start := factOr facts startFact in
  let end_ := factOr facts endFact in
  if bool_decide (start = "") || bool_decide (end_ = "")
  then inl (EMsg "missing location facts")
  else
    match Atoi start with
    | None => inl (EMsg ("error parsing " +:+ startFact))
    | Some so =>
        match Atoi end_ with
        | None => inl (EMsg ("error parsing " +:+ endFact))
        | Some eo =>
            if (so >? eo)%Z then inl (EMsg "invalid span") else inr (so, eo)
        end
    end.

(** [normalizeSpan]: both points are returned, with or without an error. *)
Definition normalizeSpan (text : string) (startOffset endOffset : Z)
    : Point * Point * option error :=
  let start := normByteOffset text startOffset in
  let end_ := normByteOffset text endOffset in
  (start, end_,
   if negb (ByteOffset start =? startOffset)%Z
   then Some (EMsg "inconsistent start location")
   else if negb (ByteOffset end_ =? endOffset)%Z
   then Some (EMsg "inconsistent end location")
   else None).

(** [text.ToUTF8] on a slice of the file, logging a decoding error. *)
Definition decodeSlice (file : fileNode) (lo hi : Z) (onError : LogLine) : M string :=
  let* bytes := sliceM (text file) lo hi in
  let '(decoded, err) := ToUTF8 (encoding file) bytes in
  match err with
  | Some _ => logLine onError ;;; ret decoded
  | None => ret decoded
  end.

(** The body of the loop of [completeAnchors] over the nodes of the reply;
    the state is [(files, result)], and returning it without a new anchor
    is the loop's [continue]. *)
Definition completeAnchors_anchor (retrieveText : bool) (edgeKind : string)
    (parents : gmap string string) (replyNodes : gmap string NodeInfo)
    (st : gmap string fileNode * list Anchor) (node : string * NodeInfo)
    : M (gmap string fileNode * list Anchor) :=
  let '(files, result) := st in
  let '(ticket, info) := node in
  match getSpan info facts.AnchorStart facts.AnchorEnd with
  | inl _ => logLine (LogInvalidAnchorSpan ticket) ;;; ret st
  | inr (start, end_) =>
      let parent := default "" (parents !! ticket) in
      let* (file, files) :=
        match files !! parent with
        | Some file => ret (file, files)
        | None =>
            let* rsp := mapErr (EWrap ("fetching file contents for " +:+ parent))
              (Nodes (mkNodesRequest [parent] [])) in
            match NNodes rsp !! parent with
            | None => panic NilDereference
            | Some info =>
                let file := mkFileNode (factOr info facts.Text)
                                       (factOr info facts.TextEncoding) in
                ret (file, <[parent := file]> files)
            end
        end in
      let '(aStart, aEnd, err) := normalizeSpan (text file) (int32 start) (int32 end_) in
      match err with
      | Some _ => logLine (LogInvalidAnchorInFile ticket parent) ;;; ret (files, result)
      | None =>
          let* aText :=
            if retrieveText && (ByteOffset aStart <? ByteOffset aEnd)%Z
            then decodeSlice file (ByteOffset aStart) (ByteOffset aEnd) LogDecodeAnchorText
            else ret "" in
          let* (snippet, snippetStart, snippetEnd) :=
            match replyNodes !! ticket with
            | None => panic NilDereference
            | Some info' =>
                match getSpan info' facts.SnippetStart facts.SnippetEnd with
                | inr (snipStart, snipEnd) =>
                    let '(start, end_, err) :=
                      normalizeSpan (text file) (int32 snipStart) (int32 snipEnd) in
                    match err with
                    | Some _ =>
                        logLine (LogInvalidSnippetSpan ticket parent) ;;;
                        ret ("", None, None)
                    | None =>
                        let* s := decodeSlice file (ByteOffset start) (ByteOffset end_)
                                    LogDecodeSnippet in
                        ret (s, Some start, Some end_)
                    end
                | inl _ => ret ("", None, None)
                end
            end in
          let* (snippet, snippetStart, snippetEnd) :=
            if bool_decide (snippet = "") then
              let snippetStart :=
                mkPoint (int32 (ByteOffset aStart - ColumnOffset aStart))
                        (LineNumber aStart) 0 in
              let nextLine :=
                normPoint (text file) (mkPoint 0 (int32 (LineNumber aStart + 1)) 0) in
              let snippetEnd :=
                mkPoint (int32 (ByteOffset nextLine - 1)) (LineNumber aStart)
                        (int32 (ColumnOffset aStart +
                                int32 (int32 (ByteOffset nextLine - ByteOffset aStart) - 1))) in
              let* s := decodeSlice file (ByteOffset snippetStart) (ByteOffset snippetEnd)
                          LogDecodeSnippet in
              ret (s, Some snippetStart, Some snippetEnd)
            else ret (snippet, snippetStart, snippetEnd) in
          ret (files,
               result ++ [mkAnchor ticket edgeKind parent aText aStart aEnd
                                   snippet snippetStart snippetEnd])
      end
  end.

(** The body of the first loop of [completeAnchors]: the parent file of
    an anchor. *)
Definition completeAnchors_parent (parents : gmap string string) (anchor : string)
    : M (gmap string string) :=
  match AnchorFile anchor with
  | None => fail (EWrap ("invalid anchor " +:+ anchor) (ETicket anchor))
  | Some file => ret (<[anchor := file]> parents)
  end.

(** [completeAnchors]; the file cache [files] is a map shared with the
    caller, so the updated cache is returned with the result. *)
Definition completeAnchors (retrieveText : bool) (files : gmap string fileNode)
    (edgeKind : string) (anchors : list string)
    : M (gmap string fileNode * list Anchor) :=
  let edgeKind := edges.Canonical edgeKind in
  let* parents := foldM completeAnchors_parent anchors ∅ in
  let* reply := Nodes (mkNodesRequest anchors [AnchorLocFilter; SnippetLocFilter]) in
  foldM (completeAnchors_anchor retrieveText edgeKind parents (NNodes reply))
        (map_to_list (NNodes reply)) (files, []).

(** ** CrossReferences *)

Definition defaultXRefPageSize : Z := 1024.

(** The state of the loops of [CrossReferences]: the set under
    construction with its [count], the set [allRelatedNodes] and the
    cache of parent files. *)
Definition groupState : Type :=
  CrossReferenceSet * nat * gset string * gmap string fileNode.

(** The [switch] on one group of an edge set. *)
Definition CrossReferences_group (req : CrossReferencesRequest) (st : groupState)
    (group : string * list Edge) : M groupState :=
  let '(xr, count, allRelatedNodes, files) := st in
  let '(kind, grp) := group in
  if IsDefKind (XDefinitionKind req) kind false then
    let* (files, anchors) := mapErr (EWrap "error resolving definition anchors")
      (completeAnchors (XAnchorText req) files kind (edgeTickets grp)) in
    ret (mkCrossReferenceSet (CTicket xr) (CDefinition xr ++ anchors) (CReference xr)
           (CDocumentation xr) (CRelatedNode xr),
         (count + length anchors)%nat, allRelatedNodes, files)
  else if IsRefKind (XReferenceKind req) kind then
    let* (files, anchors) := mapErr (EWrap "error resolving reference anchors")
      (completeAnchors (XAnchorText req) files kind (edgeTickets grp)) in
    ret (mkCrossReferenceSet (CTicket xr) (CDefinition xr) (CReference xr ++ anchors)
           (CDocumentation xr) (CRelatedNode xr),
         (count + length anchors)%nat, allRelatedNodes, files)
  else if IsDocKind (XDocumentationKind req) kind then
    let* (files, anchors) := mapErr (EWrap "error resolving documentation anchors")
      (completeAnchors (XAnchorText req) files kind (edgeTickets grp)) in
    ret (mkCrossReferenceSet (CTicket xr) (CDefinition xr) (CReference xr)
           (CDocumentation xr ++ anchors) (CRelatedNode xr),
         (count + length anchors)%nat, allRelatedNodes, files)
  else if negb (bool_decide (allRelatedNodes = ∅)) && negb (IsAnchorEdge kind) then
    ret (mkCrossReferenceSet (CTicket xr) (CDefinition xr) (CReference xr)
           (CDocumentation xr)
           (CRelatedNode xr ++
              map (λ edge, mkRelatedNode (TargetTicket edge) kind (Ordinal edge)) grp),
         (count + length grp)%nat,
         allRelatedNodes ∪ list_to_set (map TargetTicket grp), files)
  else ret st.

(** The state across sources and pages: [reply.CrossReferences],
    [allRelatedNodes], the file cache and [totalXRefs]. *)
Definition pageState : Type :=
  gmap string CrossReferenceSet * gset string * gmap string fileNode * nat.

(** The body of the loop over the edge sets of an [Edges] reply. *)
Definition CrossReferences_source (req : CrossReferencesRequest) (st : pageState)
    (edgeSet : string * EdgeSet) : M pageState :=
  let '(crossRefs, allRelatedNodes, files, totalXRefs) := st in
  let '(source, es) := edgeSet in
  let xr := default (mkCrossReferenceSet source [] [] [] []) (crossRefs !! source) in
  let* (xr, count, allRelatedNodes, files) :=
    foldM (CrossReferences_group req) (map_to_list es)
          (xr, O, allRelatedNodes, files) in
  if (0 <? count)%nat
  then ret (<[CTicket xr := xr]> crossRefs, allRelatedNodes, files,
            (totalXRefs + count)%nat)
  else ret (crossRefs, allRelatedNodes, files, totalXRefs).

(** The unbounded [for] loop over pages, run for at most [fuel] rounds;
    [None] when the rounds are used up.  The result pairs the state with
    [reply.NextPageToken]. *)
Fixpoint CrossReferences_pages (fuel : nat) (req : CrossReferencesRequest)
    (requestedPageSize : Z) (eReply : EdgesReply) (st : pageState)
    (nextPageToken : string) : M (option (pageState * string)) :=
  match fuel with
  | O => ret None
  | S fuel' =>
      let* st := foldM (CrossReferences_source req) (map_to_list (EdgeSets eReply)) st in
      if bool_decide (nextPageToken = "") || (0 <? st.2)%nat
      then ret (Some (st, nextPageToken))
      else
        logLine (LogExtraEdgesCall nextPageToken) ;;;
        let* eReply := mapErr (EWrap "error getting edges for cross-references")
          (Edges (mkEdgesRequest (XTicket req) [] [] (int32 requestedPageSize)
                                 nextPageToken)) in
        CrossReferences_pages fuel' req requestedPageSize eReply st
                              (ENextPageToken eReply)
  end.

(** [reply.Nodes[ticket] = n] for every node of a reply; writing to the
    nil map panics. *)
Definition mergeNodes (replyNodes : option (gmap string NodeInfo))
    (node : string * NodeInfo) : M (option (gmap string NodeInfo)) :=
  match replyNodes with
  | None => panic NilMapWrite
  | Some m => ret (Some (<[node.1 := node.2]> m))
  end.

Definition CrossReferences (fuel : nat) (req : CrossReferencesRequest)
    : M (option CrossReferencesReply) :=
  if (length (XTicket req) =? 0)%nat then fail (EMsg "no cross-references requested")
  else
    let requestedPageSize :=
      if (XPageSize req =? 0)%Z then defaultXRefPageSize else XPageSize req in
    let* eReply := mapErr (EWrap "error getting edges for cross-references")
      (Edges (mkEdgesRequest (XTicket req) [] [] (int32 requestedPageSize)
                             (XPageToken req))) in
    let replyNodes : option (gmap string NodeInfo) :=
      if (0 <? length (XFilter req))%nat then Some ∅ else None in
    let* pages := CrossReferences_pages fuel req requestedPageSize eReply
                    (∅, ∅, ∅, O) (ENextPageToken eReply) in
    match pages with
    | None => ret None
    | Some (crossRefs, allRelatedNodes, _, _, nextPageToken) =>
        if negb (bool_decide (allRelatedNodes = ∅)) then
          let* nReply := mapErr (EWrap "error retrieving related nodes")
            (Nodes (mkNodesRequest (elements allRelatedNodes) (XFilter req))) in
          let* replyNodes := foldM mergeNodes (map_to_list (NNodes nReply)) replyNodes in
          ret (Some (mkCrossReferencesReply crossRefs replyNodes nextPageToken))
        else ret (Some (mkCrossReferencesReply crossRefs replyNodes nextPageToken))
    end.

End Queries.


(** ** Properties under study: vocabulary *)

(** The entry the bootstrap writes for a forward edge. *)
Definition reverseOf (e : Entry) : Entry :=
  mkEntry (Target e) (edges.Mirror (EdgeKind e)) (Source e) (FactName e) (FactValue e).

Definition isForwardEdge (e : Entry) : bool :=
  IsEdge e && edges.IsForward (EdgeKind e).

(** Invariant 1 of the data model: every forward edge has its reverse,
    with the same fact name and value. *)
Definition reverse_closed (es : list Entry) : Prop :=
  ∀ e, e ∈ es → isForwardEdge e = true → reverseOf e ∈ es.

(** The edge the bootstrap samples: the first edge in delivery order. *)
Fixpoint sampledEdge (es : list Entry) : option Entry :=
  match es with
  | [] => None
  | e :: es' => if IsEdge e then Some e else sampledEdge es'
  end.

(** The sampled edge is a forward edge whose reverse kind is not found at
    its target. *)
Definition sample_uncovered (es : list Entry) : bool :=
  match sampledEdge es with
  | Some e0 =>
      edges.IsForward (EdgeKind e0) &&
      bool_decide (filter (λ e, readMatches (Target e0) (edges.Mirror (EdgeKind e0)) e = true) es = [])
  | None => false
  end.

(** The set [allRelatedNodes] is empty and no cross-reference set has a
    related node. *)
Definition noRelated (crossRefs : gmap string CrossReferenceSet)
    (allRelatedNodes : gset string) : Prop :=
  allRelatedNodes = ∅ ∧
  ∀ t xr, crossRefs !! t = Some xr → CRelatedNode xr = [].

(** A computation that never panics on a write to a nil map. *)
Definition neverWritesNilMap {A} (m : M A) : Prop :=
  ∀ w w', m w ≠ (Panic NilMapWrite, w').

(** A store call that is a [Read]. *)
Definition isRead (c : StoreCall) : bool :=
  match c with
  | CallRead _ _ => true
  | _ => false
  end.

(** A computation that, whatever its outcome, leaves the content of the
    store as it was and calls the store only to read. *)
Definition readsOnly {A} (m : M A) : Prop :=
  ∀ w r w', m w = (r, w') →
    entries w' = entries w ∧
    ∃ new, calls w' = new ++ calls w ∧ Forall (λ c, isRead c = true) new.

(** A store call that is a [Write]. *)
Definition isWrite (c : StoreCall) : bool :=
  match c with
  | CallWrite _ _ => true
  | _ => false
  end.

(** A world whose store answers every call. *)
Definition healthy (w : World) : Prop := ∀ n, faulty w n = false.

(** A store that never fails, with nothing called or logged yet. *)
Definition freshWorld (es : list Entry) : World := mkWorld es [] [] (λ _, false).

(** The order of the claim about [Decorations]: by start offset, then by
    end offset, ties allowed. *)
Definition spanOrdered (a b : Reference) : Prop :=
  ByteOffset (AnchorStart a) < ByteOffset (AnchorStart b) ∨
  (ByteOffset (AnchorStart a) = ByteOffset (AnchorStart b) ∧
   ByteOffset (AnchorEnd a) ≤ ByteOffset (AnchorEnd b)).

(** An entry that states the fact [name] of the node [v]. *)
Definition isFactOf (v : VName) (name : string) (e : Entry) : Prop :=
  Source e = v ∧ EdgeKind e = "" ∧ FactName e = name.

#[global] Instance isFactOf_dec v name e : Decision (isFactOf v name e).
Proof. unfold isFactOf. apply _. Defined.

(** The value the store holds for a fact of a node: that of the latest
    entry stating it. *)
Definition storedFact (es : list Entry) (v : VName) (name : string) : option string :=
  FactValue <$> last (filter (isFactOf v name) es).


Section Vocabulary.
Context `{Collaborators}.

(** Whether a query with the given filters keeps a fact: every fact when
    there is no filter, the facts some filter matches otherwise. *)
Definition retains (filters : list string) (name : string) : bool :=
  bool_decide (filters = []) || MatchesAny name filters.

(** The facts [Nodes] collects for a ticket in a store. *)
Definition collected (filters : list string) (es : list Entry) (ticket : string)
    : NodeInfo :=
  match ToVName ticket with
  | Some v => foldl (Nodes_visitor (ConvertFilters filters)) ∅
                    (filter (λ e, readMatches v "" e = true) es)
  | None => ∅
  end.

(** An edge of the node [v] that an [Edges] request with the allow-list
    [kinds] retains: any edge when the list is empty, the edges whose
    parsed base kind is in the list otherwise. *)
Definition retainedEdge (kinds : list string) (v : VName) (e : Entry) : Prop :=
  Source e = v ∧ EdgeKind e ≠ "" ∧
  (kinds = [] ∨ (ParseOrdinal (EdgeKind e)).1.1 ∈ kinds).

(** The reference [Decorations] makes of an anchor and one of its target
    edges: the offsets of the anchor go through the normalizer of the
    file text, truncated to 32 bits as the code does. *)
Definition referenceOf (text ticket : string) (anchorStart anchorEnd : Z)
    (edge : edgeTarget) : Reference :=
  mkReference ticket (Kind edge) (ToString (ETarget edge))
              (normByteOffset text (int32 anchorStart))
              (normByteOffset text (int32 anchorEnd)).

(** The snippet of an anchor is the line snippet in a file: the decoded
    bytes of the file text from the start of the anchor's line up to the
    byte before the start of the next line. *)
Definition lineSnippet (file : fileNode) (a : Anchor) : Prop :=
  let lineStart := int32 (ByteOffset (AStart a) - ColumnOffset (AStart a)) in
  let nextLine :=
    normPoint (text file) (mkPoint 0 (int32 (LineNumber (AStart a) + 1)) 0) in
  ∃ bytes,
    slice (text file) lineStart (int32 (ByteOffset nextLine - 1)) = Some bytes ∧
    ASnippet a = (ToUTF8 (encoding file) bytes).1.

(** The facts of an anchor whose [loc/start] equals its [loc/end] and
    which has neither snippet fact. *)
Definition emptySpanNoSnippet (info : NodeInfo) : Prop :=
  Atoi (factOr info facts.AnchorStart) = Atoi (factOr info facts.AnchorEnd) ∧
  info !! facts.SnippetStart = None ∧ info !! facts.SnippetEnd = None.

(** What anchor completion returns for an anchor: when its span is empty
    and it has no snippet facts, no text and the line snippet. *)
Definition completedAs (replyNodes : gmap string NodeInfo)
    (files : gmap string fileNode) (a : Anchor) : Prop :=
  ∃ info file,
    replyNodes !! ATicket a = Some info ∧ files !! AParent a = Some file ∧
    (emptySpanNoSnippet info → AText a = "" ∧ lineSnippet file a).

(** The ordinal [o] is recorded for the target [t] under the kind [k]. *)
Definition hasOrdinal (fe : gmap string (gmap string (gset Z))) (k t : string)
    (o : Z) : Prop :=
  ∃ targets ords, fe !! k = Some targets ∧ targets !! t = Some ords ∧ o ∈ ords.

(** The edge entry [e] is one an [Edges] request with the allow-list
    [kinds] retains, and it reads as an edge of base kind [k] to the
    ticket [t] with the ordinal [o] (in 32 bits). *)
Definition emits (kinds : list string) (e : Entry) (k t : string) (o : Z) : Prop :=
  EdgeKind e ≠ "" ∧
  (kinds = [] ∨ (ParseOrdinal (EdgeKind e)).1.1 ∈ kinds) ∧
  (ParseOrdinal (EdgeKind e)).1.1 = k ∧
  ToString (Target e) = t ∧
  int32 (ParseOrdinal (EdgeKind e)).1.2 = o.

(** What every anchor that anchor completion returns looks like: it
    carries the canonical edge kind and the parent recorded for its
    ticket, its two points are the normalizer's points for the offsets
    it holds, its parent file is in the cache, and the two points of its
    snippet are set. *)
Definition wellFormedAnchor (edgeKind : string) (parents : gmap string string)
    (files : gmap string fileNode) (a : Anchor) : Prop :=
  AKind a = edgeKind ∧
  AParent a = default "" (parents !! ATicket a) ∧
  (∃ file, files !! AParent a = Some file ∧
           AStart a = normByteOffset (text file) (ByteOffset (AStart a)) ∧
           AEnd a = normByteOffset (text file) (ByteOffset (AEnd a))) ∧
  is_Some (ASnippetStart a) ∧ is_Some (ASnippetEnd a).

(** The anchors of a cross-reference set, of its three lists. *)
Definition anchorsOf (xr : CrossReferenceSet) : list Anchor :=
  CDefinition xr ++ CReference xr ++ CDocumentation xr.

(** Every anchor of the set has the parent file that its ticket names. *)
Definition parented (xr : CrossReferenceSet) : Prop :=
  Forall (λ a, AnchorFile (ATicket a) = Some (AParent a)) (anchorsOf xr).

(** What holds of [reply.CrossReferences] while the loops of
    [CrossReferences] run: every set is stored under its own ticket, one
    of [sources], holds an anchor, and has its anchors [parented]. *)
Definition keyedSets (sources : list string)
    (crossRefs : gmap string CrossReferenceSet) : Prop :=
  ∀ t xr, crossRefs !! t = Some xr →
    CTicket xr = t ∧ t ∈ sources ∧ anchorsOf xr ≠ [] ∧ parented xr.

(** A computation that returns a result only when the store answered
    every call the computation made: none of them was one that fails. *)
Definition reportsStoreErrors {A} (m : M A) : Prop :=
  ∀ w a w', m w = (Ok a, w') →
    faulty w' = faulty w ∧
    ∃ new, calls w' = new ++ calls w ∧
      ∀ i, (length (calls w) ≤ i < length (calls w'))%nat → faulty w i = false.


(** The target [getEdges] makes of an edge entry: the base kind and the
    ordinal that its kind parses to, the ordinal in 32 bits, with the
    target of the entry. *)
Definition edgeTargetOf (e : Entry) : edgeTarget :=
  let '(edgeKind, ordinal, _) := ParseOrdinal (EdgeKind e) in
  mkEdgeTarget edgeKind (Target e) (int32 ordinal).



(** A ticket that is the string form of a name. *)
Definition isPrinted (ticket : string) : Prop := ∃ v, ticket = ToString v.

(** The names of the tickets that come before the first malformed one. *)
Fixpoint validPrefix (tickets : list string) : list VName :=
  match tickets with
  | [] => []
  | t :: ts =>
      match ToVName t with
      | Some v => v :: validPrefix ts
      | None => []
      end
  end.

(** The store calls made by reading, edges included, the first [k] of the
    names [vs], on top of the calls [before]. *)
Definition readsOf (k : nat) (vs : list VName) (before : list StoreCall)
    : list StoreCall :=
  rev (map (λ v, CallRead v "*") (take k vs)) ++ before.

End Vocabulary.


(** ** A concrete set of collaborators

    Small stand-ins for the imported packages, written after the spec's
    account of them (spec 4.1, 4.2, 6), on which the queries can be run. *)
Module Scenario.

Fixpoint stripPrefix (p s : string) : option string :=
  match p, s with
  | EmptyString, _ => Some s
  | String a p', String b s' => if bool_decide (a = b) then stripPrefix p' s' else None
  | String _ _, EmptyString => None
  end.

(** The part before the first [c], and the part after it if [c] occurs. *)
Fixpoint splitFirst (c : ascii) (s : string) : string * option string :=
  match s with
  | EmptyString => (EmptyString, None)
  | String a s' =>
      if bool_decide (a = c) then (EmptyString, Some s')
      else let '(before, after) := splitFirst c s' in (String a before, after)
  end.

(** Tickets of the shape [kythe:?path=P#S], either part optional. *)
Definition toVName (ticket : string) : option VName :=
  match stripPrefix "kythe:" ticket with
  | None => None
  | Some rest =>
      let '(attrs, sig) := splitFirst "#" rest in
      match (if bool_decide (attrs = "") then Some "" else stripPrefix "?path=" attrs) with
      | Some path => Some (mkVName (default "" sig) "" "" path "")
      | None => None
      end
  end.

Definition toString (v : VName) : string :=
  "kythe:" +:+ (if bool_decide (Path v = "") then "" else "?path=" +:+ Path v)
           +:+ (if bool_decide (Signature v = "") then "" else "#" +:+ Signature v).

(** The ticket of the file of an anchor: the anchor's ticket without
    signature and language. *)
Definition anchorFile (ticket : string) : option string :=
  match toVName ticket with
  | Some v => Some (toString (mkVName "" (Corpus v) (Root v) (Path v) ""))
  | None => None
  end.

(** Glob matching: a star is a run of characters other than the slash,
    a question mark one such character (spec 4.2). *)
Fixpoint glob (p : string) : string → bool :=
  match p with
  | EmptyString => λ s, bool_decide (s = "")
  | String a p' =>
      if bool_decide (a = "*"%char) then
        fix star (s : string) : bool :=
          glob p' s ||
          match s with
          | String c s' => negb (bool_decide (c = "/"%char)) && star s'
          | EmptyString => false
          end
      else if bool_decide (a = "?"%char) then
        λ s, match s with
             | String c s' => negb (bool_decide (c = "/"%char)) && glob p' s'
             | EmptyString => false
             end
      else
        λ s, match s with
             | String c s' => bool_decide (c = a) && glob p' s'
             | EmptyString => false
             end
  end.

(** The part before the last dot and the part after it. *)
Fixpoint splitLastDot (s : string) : option (string * string) :=
  match s with
  | EmptyString => None
  | String c rest =>
      match splitLastDot rest with
      | Some (a, b) => Some (String c a, b)
      | None => if bool_decide (c = "."%char) then Some (EmptyString, rest) else None
      end
  end.

(** [base.N] gives [(base, N, true)], anything else [(kind, 0, false)]. *)
Definition parseOrdinal (kind : string) : string * Z * bool :=
  match splitLastDot kind with
  | Some (base, digits) =>
      match digits, base, digitsValue digits 0 with
      | String _ _, String _ _, Some n => (base, n, true)
      | _, _, _ => (kind, 0, false)
      end
  | None => (kind, 0, false)
  end.

Definition isVariant (kind base : string) : bool :=
  bool_decide (kind = base) || String.prefix (base +:+ "/") kind.

Definition isAnchorEdge (kind : string) : bool :=
  let kind := edges.Canonical kind in
  isVariant kind "/kythe/edge/defines" || isVariant kind "/kythe/edge/documents" ||
  isVariant kind "/kythe/edge/ref" || isVariant kind "/kythe/edge/completes".

(** Definition kinds: 0 none, 1 all, 2 full, 3 binding. *)
Definition BINDING_DEFINITIONS : Z := 3.
Definition isDefKind (requested : Z) (kind : string) (incomplete : bool) : bool :=
  let kind := edges.Canonical kind in
  if (requested =? 1)%Z then isVariant kind "/kythe/edge/defines"
  else if (requested =? 2)%Z then bool_decide (kind = "/kythe/edge/defines")
  else if (requested =? 3)%Z then bool_decide (kind = "/kythe/edge/defines/binding")
  else false.

(** Reference kinds: 0 none, 1 calls, 2 all but calls, 3 all. *)
Definition ALL_REFERENCES : Z := 3.
Definition isRefKind (requested : Z) (kind : string) : bool :=
  let kind := edges.Canonical kind in
  if (requested =? 1)%Z then bool_decide (kind = "/kythe/edge/ref/call")
  else if (requested =? 2)%Z then
    negb (bool_decide (kind = "/kythe/edge/ref/call")) && isVariant kind "/kythe/edge/ref"
  else if (requested =? 3)%Z then isVariant kind "/kythe/edge/ref"
  else false.

(** Documentation kinds: 0 none, 1 all. *)
Definition isDocKind (requested : Z) (kind : string) : bool :=
  (requested =? 1)%Z && isVariant (edges.Canonical kind) "/kythe/edge/documents".

(** Span kinds: 0 within the window, 1 around it. *)
Definition inSpanBounds (kind start end_ spanStart spanEnd : Z) : bool :=
  if (kind =? 0)%Z then (spanStart <=? start)%Z && (end_ <=? spanEnd)%Z
  else if (kind =? 1)%Z then (start <=? spanStart)%Z && (spanEnd <=? end_)%Z
  else false.

Definition toUTF8 (encoding bytes : string) : string * option error :=
  if bool_decide (encoding = "") || bool_decide (encoding = "UTF-8")
  then (bytes, None)
  else ("", Some (EMsg "unsupported encoding")).

(** The byte offsets at which the lines of a text start, from offset
    [pos] on: the start of the text and the byte after each newline. *)
Fixpoint lineStartsFrom (s : string) (pos : Z) : list Z :=
  match s with
  | EmptyString => []
  | String c rest =>
      if bool_decide (c = "010"%char) then (pos + 1) :: lineStartsFrom rest (pos + 1)
      else lineStartsFrom rest (pos + 1)
  end.

Definition lineStarts (text : string) : list Z := 0 :: lineStartsFrom text 0.

(** The last line start at or before [b], with its 1-based line number. *)
Fixpoint lineOf (starts : list Z) (b line start : Z) : Z * Z :=
  match starts with
  | [] => (line, start)
  | s :: rest => if (s <=? b)%Z then lineOf rest b (line + 1) s else (line, start)
  end.

(** [byteOffset] of the normalizer (spec 4.1), clamped to the text. *)
Definition byteOffset (text : string) (b : Z) : Point :=
  let b := if (b >? len text)%Z then len text else if (b <? 0)%Z then 0 else b in
  let '(line, start) := lineOf (lineStartsFrom text 0) b 1 0 in
  mkPoint b line (b - start).

(** [point] of the normalizer (spec 4.1): a byte offset wins; a line
    alone gives the start of that line, or the end of the text when the
    text has fewer lines. *)
Definition point (text : string) (p : Point) : Point :=
  if (0 <? ByteOffset p)%Z then byteOffset text (ByteOffset p)
  else if (0 <? LineNumber p)%Z then
    match lineStarts text !! Z.to_nat (LineNumber p - 1) with
    | Some start => mkPoint start (LineNumber p) 0
    | None => byteOffset text (len text)
    end
  else mkPoint 0 1 0.

Definition location (text : string) (loc : Location) : error + Location :=
  match LKind loc with
  | Location_FILE => inr (mkLocation (LTicket loc) Location_FILE (mkPoint 0 0 0) (mkPoint 0 0 0))
  | Location_SPAN =>
      let start := point text (LStart loc) in
      let end_ := point text (LEnd loc) in
      if (ByteOffset start >? ByteOffset end_)%Z
      then inl (EMsg "invalid SPAN: start is after end")
      else inr (mkLocation (LTicket loc) Location_SPAN start end_)
  end.

Definition collaborators : Collaborators := {|
  ToVName := toVName;
  ToString := toString;
  AnchorFile := anchorFile;
  filterMatches := glob;
  ParseOrdinal := parseOrdinal;
  IsAnchorEdge := isAnchorEdge;
  IsDefKind := isDefKind;
  IsRefKind := isRefKind;
  IsDocKind := isDocKind;
  InSpanBounds := inSpanBounds;
  ToUTF8 := toUTF8;
  normByteOffset := byteOffset;
  normPoint := point;
  normLocation := location
|}.

Definition vn (sig : string) : VName := mkVName sig "" "" "" "".
Definition A := vn "A".
Definition B := vn "B".
Definition C := vn "C".
Definition F := vn "F".

Definition fact (v : VName) (name value : string) : Entry :=
  mkEntry v "" (vn "") name value.
Definition edge (s : VName) (kind : string) (t : VName) : Entry :=
  mkEntry s kind t "/" "".

(** A store whose first edge is a reverse edge and which holds a forward
    edge without its reverse. *)
Definition partial : list Entry :=
  [ edge F "%/kythe/edge/childof" A; edge B "/kythe/edge/ref" C ].

(** Scenario S2: one forward edge, no reverse. *)
Definition forwardOnly : list Entry :=
  [ fact A "/kythe/node/kind" "anchor"; edge A "/kythe/edge/childof" F ].

(** Scenario S4: the file [f] with text [abc\ndef\n] and two anchors,
    at (4,7) and (0,3), each referring to its own target; the target
    [t1] also generates [t2]. *)
Definition newline : string := String "010"%char EmptyString.
Definition fileF := mkVName "" "" "" "f" "".
Definition a1 := mkVName "a1" "" "" "f" "".
Definition a2 := mkVName "a2" "" "" "f" "".
Definition t1 := vn "t1".
Definition t2 := vn "t2".

Definition decorated : list Entry :=
  [ fact fileF "/kythe/node/kind" "file";
    fact fileF "/kythe/text" ("abc" +:+ newline +:+ "def" +:+ newline);
    edge fileF "%/kythe/edge/childof" a1;
    edge fileF "%/kythe/edge/childof" a2;
    fact a1 "/kythe/node/kind" "anchor";
    fact a1 "/kythe/loc/start" "4";
    fact a1 "/kythe/loc/end" "7";
    edge a1 "/kythe/edge/childof" fileF;
    edge a1 "/kythe/edge/ref" t1;
    fact a2 "/kythe/node/kind" "anchor";
    fact a2 "/kythe/loc/start" "0";
    fact a2 "/kythe/loc/end" "3";
    edge a2 "/kythe/edge/childof" fileF;
    edge a2 "/kythe/edge/ref" t2;
    fact t1 "/kythe/node/kind" "function";
    edge t1 "%/kythe/edge/ref" a1;
    edge t1 "/kythe/edge/generates" t2;
    edge t2 "%/kythe/edge/ref" a2;
    edge t2 "%/kythe/edge/generates" t1 ].

Definition wholeFile : Location :=
  mkLocation "kythe:?path=f" Location_FILE (mkPoint 0 0 0) (mkPoint 0 0 0).

(** [Nodes] of a node without location facts and of an anchor, asking
    for the location facts. *)
Definition nodesRequest : NodesRequest :=
  mkNodesRequest ["kythe:#t1"; "kythe:?path=f#a1"] ["/kythe/loc/*"].

(** [Edges] of [t1] and of the file, for the [generates] edges and the
    node kinds: the file has a node kind and no such edge. *)
Definition edgesRequest : EdgesRequest :=
  mkEdgesRequest ["kythe:#t1"; "kythe:?path=f"] ["/kythe/edge/generates"]
                 ["/kythe/node/kind"] 0 "".

(** [Edges] with a malformed ticket after a well-formed one. *)
Definition edgesRequestMalformed : EdgesRequest :=
  mkEdgesRequest ["kythe:#t1"; "bogus"] [] [] 0 "".

(** Scenario S5: the node [X] is bound at the anchor [a1], referred to
    at the anchor [a2], and generates the node [Y]. *)
Definition X := vn "X".
Definition Y := vn "Y".

Definition crossReferenced : list Entry :=
  [ fact fileF "/kythe/node/kind" "file";
    fact fileF "/kythe/text" ("abc" +:+ newline +:+ "def" +:+ newline);
    fact a1 "/kythe/node/kind" "anchor";
    fact a1 "/kythe/loc/start" "4";
    fact a1 "/kythe/loc/end" "7";
    edge a1 "/kythe/edge/defines/binding" X;
    fact a2 "/kythe/node/kind" "anchor";
    fact a2 "/kythe/loc/start" "0";
    fact a2 "/kythe/loc/end" "3";
    edge a2 "/kythe/edge/ref" X;
    fact X "/kythe/node/kind" "function";
    edge X "%/kythe/edge/defines/binding" a1;
    edge X "%/kythe/edge/ref" a2;
    edge X "/kythe/edge/generates" Y;
    fact Y "/kythe/node/kind" "function";
    edge Y "%/kythe/edge/generates" X ].

(** Binding definitions, all references, no documentation, anchor text,
    and a filter for the facts of related nodes. *)
Definition crossReferencesRequest : CrossReferencesRequest :=
  mkCrossReferencesRequest ["kythe:#X"] BINDING_DEFINITIONS ALL_REFERENCES 0 true
                           ["/kythe/node/kind"] 0 "".

(** A file whose one anchor has its start after its end and beyond the
    end of the text. *)
Definition a3 := mkVName "a3" "" "" "f" "".

Definition inverted : list Entry :=
  [ fact fileF "/kythe/node/kind" "file";
    fact fileF "/kythe/text" ("abc" +:+ newline +:+ "def" +:+ newline);
    edge fileF "%/kythe/edge/childof" a3;
    fact a3 "/kythe/node/kind" "anchor";
    fact a3 "/kythe/loc/start" "9";
    fact a3 "/kythe/loc/end" "2";
    edge a3 "/kythe/edge/childof" fileF;
    edge a3 "/kythe/edge/ref" t1 ].

(** A file of two lines with an anchor of empty span, at byte 7, and
    no snippet facts. *)
Definition a4 := mkVName "a4" "" "" "f" "".

Definition emptySpan : list Entry :=
  [ fact fileF "/kythe/node/kind" "file";
    fact fileF "/kythe/text" ("hello" +:+ newline +:+ "world" +:+ newline);
    fact a4 "/kythe/node/kind" "anchor";
    fact a4 "/kythe/loc/start" "7";
    fact a4 "/kythe/loc/end" "7" ].

(** [Decorations] of the span from byte 1 to byte 6 of the file, with
    text and without references. *)
Definition spanRequest : DecorationsRequest :=
  mkDecorationsRequest
    (Some (mkLocation "kythe:?path=f" Location_SPAN (mkPoint 1 0 0) (mkPoint 6 0 0)))
    true false "" 0 [].

(** [Decorations] with a dirty buffer. *)
Definition dirtyRequest : DecorationsRequest :=
  mkDecorationsRequest (Some wholeFile) true true "edited" 0 [].

(** [Decorations] of the whole file, with text and references. *)
Definition decorationsRequest : DecorationsRequest :=
  mkDecorationsRequest (Some wholeFile) true true "" 0 [].
End Scenario.

(** * Proofs *)

(** ** The monad *)

Lemma bind_Ok {A B} (m : M A) (k : A → M B) w b w' :
  bind m k w = (Ok b, w') →
  ∃ a w1, m w = (Ok a, w1) ∧ k a w1 = (Ok b, w').
Proof.
  unfold bind. destruct (m w) as [[a|e|] w1]; intros H; try discriminate.
  eauto.
Qed.

Lemma mapErr_Ok {A} f (m : M A) w a w' :
  mapErr f m w = (Ok a, w') → m w = (Ok a, w').
Proof.
  unfold mapErr. destruct (m w) as [[a0|e|] w1]; intros H; congruence.
Qed.

Ltac inv_ok :=
  repeat match goal with
  | H : bind _ _ _ = (Ok _, _) |- _ =>
      let a := fresh "a" in let w := fresh "w" in
      let H1 := fresh "H" in let H2 := fresh "H" in
      apply bind_Ok in H; destruct H as (a & w & H1 & H2)
  | H : mapErr _ _ _ = (Ok _, _) |- _ => apply mapErr_Ok in H
  | H : ret _ _ = (Ok _, _) |- _ => unfold ret in H; inversion H; subst; clear H
  | H : fail _ _ = (Ok _, _) |- _ => discriminate H
  | H : panic _ _ = (Ok _, _) |- _ => discriminate H
  end.

(** ** Edge kinds *)

Lemma Mirror_forward_is_reverse kind :
  edges.IsForward kind = true → edges.IsReverse (edges.Mirror kind) = true.
Proof.
  unfold edges.IsForward, edges.Mirror. destruct (edges.IsReverse kind) eqn:E; [done|].
  intros _. reflexivity.
Qed.

Lemma Mirror_forward_not_star kind :
  edges.IsForward kind = true → edges.Mirror kind ≠ "*".
Proof.
  intros H%Mirror_forward_is_reverse Heq. rewrite Heq in H. discriminate.
Qed.

(** ** The bootstrap *)

Lemma addReverseEdges_visitor_visit es : ∀ s w s' w',
  visitAll addReverseEdges_visitor es s w = (Ok (s', None), w') →
  entries w' = entries w ++ map reverseOf (filter (λ e, isForwardEdge e = true) es).
Proof.
  induction es as [|e es IH]; intros [t a] w s' w' H; simpl in H.
  - inv_ok. by rewrite app_nil_r.
  - apply bind_Ok in H as ([s1 r] & w1 & Hstep & Hrest).
    unfold addReverseEdges_visitor in Hstep. rewrite filter_cons.
    change (negb (bool_decide (EdgeKind e = "")) && edges.IsForward (EdgeKind e))
      with (isForwardEdge e) in Hstep.
    destruct (isForwardEdge e) eqn:Hfw.
    + apply bind_Ok in Hstep as (r0 & w2 & Hwr & Hret).
      unfold tryM, gsWrite in Hwr.
      destruct (nextFails w) eqn:Hf; inversion Hwr; subst; clear Hwr;
        unfold ret in Hret; inversion Hret; subst; clear Hret.
      * by inv_ok.
      * apply IH in Hrest. rewrite Hrest. rewrite decide_True by done.
        simpl. by rewrite <- app_assoc.
    + inv_ok. apply IH in Hrest. rewrite Hrest.
      rewrite decide_False; [done|]. by intros ?.
Qed.

Lemma addReverseEdges_entries w w' :
  addReverseEdges w = (Ok tt, w') →
  entries w' = entries w ++ map reverseOf (filter (λ e, isForwardEdge e = true) (entries w)).
Proof.
  unfold addReverseEdges. intros H.
  apply bind_Ok in H as ([] & w1 & Hlog & H).
  apply bind_Ok in H as ([counts err] & w2 & Hscan & H).
  apply bind_Ok in H as ([] & w3 & Hlog2 & H).
  destruct err; [discriminate|]. inv_ok.
  unfold logLine in *. inversion Hlog; subst; clear Hlog.
  inversion Hlog2; subst; clear Hlog2. simpl.
  unfold gsScan in Hscan. destruct (nextFails _); [discriminate|].
  apply addReverseEdges_visitor_visit in Hscan. by rewrite Hscan.
Qed.

Lemma reverseOf_not_forward e :
  isForwardEdge e = true → isForwardEdge (reverseOf e) = false.
Proof.
  unfold isForwardEdge. intros [_ H]%andb_prop. simpl.
  apply Mirror_forward_is_reverse in H. unfold edges.IsForward. rewrite H.
  apply andb_false_r.
Qed.

Lemma addReverseEdges_closed w w' :
  addReverseEdges w = (Ok tt, w') → reverse_closed (entries w').
Proof.
  intros H%addReverseEdges_entries. rewrite H. intros e He Hfw.
  apply elem_of_app. right. apply list_elem_of_fmap. exists e. split; [done|].
  apply list_elem_of_filter. split; [done|].
  apply elem_of_app in He as [He|He]; [done|].
  apply list_elem_of_fmap in He as (e0 & -> & He0).
  apply list_elem_of_filter in He0 as [Hf0 _].
  apply reverseOf_not_forward in Hf0. congruence.
Qed.

Lemma firstEdge_scan es : ∀ edge w,
  visitAll firstEdge_visitor es edge w =
    (Ok (match sampledEdge es with Some e => Some e | None => edge end, None), w).
Proof.
  induction es as [|e es IH]; intros edge w; simpl; [done|].
  unfold bind, firstEdge_visitor at 1. destruct (IsEdge e); simpl; [done|].
  apply IH.
Qed.

(** C2 (as amended): when the edge the bootstrap samples is a forward edge
    whose mirrored kind is absent at its target, a successful
    [EnsureReverseEdges] leaves a store in which every forward edge has
    its reverse, with the same fact name and value. *)
Theorem EnsureReverseEdges_closes_when_sample_uncovered (w w' : World) :
  sample_uncovered (entries w) = true →
  EnsureReverseEdges w = (Ok tt, w') →
  reverse_closed (entries w').
Proof.
  unfold sample_uncovered, EnsureReverseEdges. intros Hs H.
  apply bind_Ok in H as ([edge err] & w1 & Hscan & H).
  unfold gsScan in Hscan. destruct (nextFails w).
  { inversion Hscan; subst. discriminate. }
  rewrite firstEdge_scan in Hscan. inversion Hscan; subst; clear Hscan.
  destruct (sampledEdge (entries w)) as [e0|]; [|discriminate].
  apply andb_prop in Hs as [Hfw Hnone].
  unfold edges.IsForward in Hfw. apply negb_true_iff in Hfw. rewrite Hfw in H.
  apply bind_Ok in H as (found & w2 & Hread & H).
  apply mapErr_Ok in Hread. unfold gsRead in Hread.
  destruct (nextFails _); [discriminate|].
  apply bool_decide_eq_true in Hnone. simpl in Hread. rewrite Hnone in Hread.
  inversion Hread; subst; clear Hread. simpl in H.
  by apply addReverseEdges_closed in H.
Qed.

Lemma EnsureReverseEdges_closes_witness :
  sample_uncovered (entries (freshWorld Scenario.forwardOnly)) = true ∧
  reverse_closed
    (entries (EnsureReverseEdges (freshWorld Scenario.forwardOnly)).2).
Proof.
  split; [reflexivity|].
  apply (EnsureReverseEdges_closes_when_sample_uncovered
           (freshWorld Scenario.forwardOnly)); reflexivity.
Defined.

(** Scenario S2: the bootstrap writes the reverse of the one forward edge. *)
Example bootstrap_S2 :
  entries (EnsureReverseEdges (freshWorld Scenario.forwardOnly)).2 =
    Scenario.forwardOnly ++
    [Scenario.edge Scenario.F "%/kythe/edge/childof" Scenario.A].
Proof. reflexivity. Qed.

(** C2 as stated fails: a store with a forward edge whose first edge is a
    reverse edge is left as it is, and the forward edge has no reverse. *)
Lemma EnsureReverseEdges_not_closed_in_general :
  ¬ (∀ w w', (∃ e, e ∈ entries w ∧ isForwardEdge e = true) →
             EnsureReverseEdges w = (Ok tt, w') →
             reverse_closed (entries w')).
Proof.
  intros H.
  specialize (H (freshWorld Scenario.partial)
                (EnsureReverseEdges (freshWorld Scenario.partial)).2).
  assert (Hc : reverse_closed Scenario.partial).
  { apply H; [|reflexivity].
    exists (Scenario.edge Scenario.B "/kythe/edge/ref" Scenario.C).
    split; [|reflexivity]. apply list_elem_of_In. simpl. auto. }
  specialize (Hc (Scenario.edge Scenario.B "/kythe/edge/ref" Scenario.C)).
  assert (Hin : reverseOf (Scenario.edge Scenario.B "/kythe/edge/ref" Scenario.C)
                  ∈ Scenario.partial).
  { apply Hc; [|reflexivity]. apply list_elem_of_In. simpl. auto. }
  apply list_elem_of_In in Hin. simpl in Hin.
  destruct Hin as [Hin|[Hin|[]]]; discriminate Hin.
Qed.

(** ** Store reads *)

Lemma gsRead_Ok {S} v k (f : S → Entry → S) s w r w' :
  gsRead v k f s w = (Ok r, w') →
  r = foldl f s (filter (λ e, readMatches v k e = true) (entries w)) ∧
  w' = recordCall (CallRead v k) w.
Proof.
  unfold gsRead. destruct (nextFails w); intros H; inversion H; auto.
Qed.

Lemma readMatches_fact v e :
  readMatches v "" e = true ↔ Source e = v ∧ EdgeKind e = "".
Proof.
  unfold readMatches. rewrite andb_true_iff, bool_decide_eq_true.
  rewrite bool_decide_false by done. by rewrite bool_decide_eq_true.
Qed.

Lemma readMatches_star v e : readMatches v "*" e = true ↔ Source e = v.
Proof.
  unfold readMatches. rewrite andb_true_iff, bool_decide_eq_true.
  rewrite bool_decide_true by done. tauto.
Qed.

(** The facts of [name] among the entries a fact read delivers are the
    entries stating [name]. *)
Lemma filter_fact_read v name (es : list Entry) :
  filter (λ e, FactName e = name) (filter (λ e, readMatches v "" e = true) es)
  = filter (isFactOf v name) es.
Proof.
  induction es as [|e es IH]; [done|].
  rewrite !filter_cons. destruct (decide (readMatches v "" e = true)) as [Hm|Hm].
  - rewrite filter_cons. apply readMatches_fact in Hm as [Hs Hk].
    destruct (decide (FactName e = name)) as [Hn|Hn].
    + rewrite decide_True by done. by rewrite IH.
    + rewrite decide_False by (intros (?&?&?); done). done.
  - rewrite decide_False; [done|]. intros (Hs & Hk & _). apply Hm.
    by apply readMatches_fact.
Qed.

(** ** Decorations: order of the references *)

Lemma bySpan_notAfter_spanOrdered a b : bySpan_notAfter a b → spanOrdered a b.
Proof.
  unfold bySpan_notAfter, bySpan_Less, spanOrdered.
  destruct (ByteOffset (AnchorStart b) <? ByteOffset (AnchorStart a)) eqn:E1; [done|].
  destruct (ByteOffset (AnchorStart b) >? ByteOffset (AnchorStart a)) eqn:E2.
  - intros _. left. lia.
  - destruct (ByteOffset (AnchorEnd b) <? ByteOffset (AnchorEnd a)) eqn:E3; [done|].
    intros _. right. lia.
Qed.

Lemma bySpan_notAfter_total : Total bySpan_notAfter.
Proof.
  intros a b. unfold bySpan_notAfter, bySpan_Less.
  destruct (ByteOffset (AnchorStart b) <? ByteOffset (AnchorStart a)) eqn:E1;
  destruct (ByteOffset (AnchorStart a) <? ByteOffset (AnchorStart b)) eqn:E2;
  destruct (ByteOffset (AnchorStart b) >? ByteOffset (AnchorStart a)) eqn:E3;
  destruct (ByteOffset (AnchorStart a) >? ByteOffset (AnchorStart b)) eqn:E4;
  destruct (ByteOffset (AnchorEnd b) <? ByteOffset (AnchorEnd a)) eqn:E5;
  destruct (ByteOffset (AnchorEnd a) <? ByteOffset (AnchorEnd b)) eqn:E6;
  auto; lia.
Qed.

Lemma Sorted_weaken {A} (R1 R2 : A → A → Prop) l :
  (∀ a b, R1 a b → R2 a b) → Sorted R1 l → Sorted R2 l.
Proof.
  intros HR. induction 1 as [|x l Hs IH Hhd]; constructor; [done|].
  destruct Hhd; constructor; auto.
Qed.

Lemma sortBySpan_ordered refs : Sorted spanOrdered (sortBySpan refs).
Proof.
  apply (Sorted_weaken bySpan_notAfter); [apply bySpan_notAfter_spanOrdered|].
  apply Sorted_merge_sort, bySpan_notAfter_total.
Qed.

(** Case analysis on the test that heads a computation known to succeed. *)
Ltac case_ok H :=
  match type of H with
  | (if ?c then _ else _) _ = (Ok _, _) =>
      let E := fresh "E" in destruct c eqn:E
  | (match ?c with _ => _ end) _ = (Ok _, _) =>
      let E := fresh "E" in destruct c eqn:E
  end; try discriminate H.

Section DecorationsReply.
Context `{Collaborators}.

Lemma parseTicket_Ok ticket w v w' :
  parseTicket ticket w = (Ok v, w') → ToVName ticket = Some v ∧ w' = w.
Proof.
  unfold parseTicket. destruct (ToVName ticket); intros Hp; inversion Hp; auto.
Qed.

Lemma getSourceText_visitor_encoding es : ∀ t enc,
  (foldl getSourceText_visitor (t, enc) es).2 =
    default enc (FactValue <$> last (filter (λ e, FactName e = facts.TextEncoding) es)).
Proof.
  induction es as [|e es IH]; intros t enc; [done|].
  simpl. rewrite filter_cons.
  destruct (decide (FactName e = facts.TextEncoding)) as [Hn|Hn].
  - rewrite bool_decide_false by (rewrite Hn; done).
    rewrite bool_decide_true by done. rewrite IH.
    destruct (filter _ es) as [|e' l] eqn:Hf; [done|].
    rewrite last_cons_cons. destruct (last (e' :: l)) eqn:Hl; [done|].
    by apply last_None in Hl.
  - rewrite (bool_decide_false (FactName e = facts.TextEncoding)) by done.
    case_bool_decide; apply IH.
Qed.

Lemma getSourceText_Ok v w text enc w' :
  getSourceText v w = (Ok (text, enc), w') →
  enc = default "" (storedFact (entries w) v facts.TextEncoding) ∧
  entries w' = entries w.
Proof.
  unfold getSourceText. intros Hg.
  apply bind_Ok in Hg as ([t e] & w1 & Hread & Hg).
  apply mapErr_Ok, gsRead_Ok in Hread as [Hr ->].
  destruct t; [|discriminate]. inv_ok. split; [|done].
  apply (f_equal snd) in Hr. simpl in Hr. rewrite Hr.
  rewrite getSourceText_visitor_encoding. unfold storedFact.
  by rewrite filter_fact_read.
Qed.

Lemma Decorations_Ok req w reply w' :
  Decorations req w = (Ok reply, w') →
  ∃ reqLoc fileV text enc w1,
    DLocation req = Some reqLoc ∧ ToVName (LTicket reqLoc) = Some fileV ∧
    getSourceText fileV w = (Ok (text, enc), w1) ∧
    REncoding reply = (if DSourceText req then enc else "") ∧
    (RReference reply = [] ∨ ∃ refs, RReference reply = sortBySpan refs).
Proof.
  unfold Decorations. intros Hd.
  case_ok Hd. destruct (DLocation req) as [reqLoc|]; [|discriminate].
  apply bind_Ok in Hd as (fileV & w0 & Hp & Hd).
  apply mapErr_Ok, parseTicket_Ok in Hp as [Hv ->].
  apply bind_Ok in Hd as ([text enc] & w1 & Hsrc & Hd).
  apply mapErr_Ok in Hsrc.
  exists reqLoc, fileV, text, enc, w1. split_and!; try done;
    destruct (normLocation text reqLoc) as [e|loc]; try discriminate;
    apply bind_Ok in Hd as ([sourceText replyEncoding] & w2 & Hst & Hd).
  - assert (replyEncoding = if DSourceText req then enc else "") as ->.
    { destruct (DSourceText req); [|by inv_ok].
      case_ok Hst; inv_ok; [done|]. by inv_ok. }
    destruct (DReferences req); [|by inv_ok].
    apply bind_Ok in Hd as (children & w3 & _ & Hd).
    apply bind_Ok in Hd as ([[ts rn] refs] & w4 & _ & Hd).
    case_ok Hd; inv_ok; done.
  - destruct (DReferences req); [|inv_ok; by left].
    apply bind_Ok in Hd as (children & w3 & _ & Hd).
    apply bind_Ok in Hd as ([[ts rn] refs] & w4 & _ & Hd).
    right. exists refs. case_ok Hd; inv_ok; done.
Qed.

(** C5: the references of a [Decorations] reply are in span order: each
    one starts before the next, or starts with it and ends no later. *)
Theorem Decorations_references_sorted req w reply w' :
  Decorations req w = (Ok reply, w') →
  Sorted spanOrdered (RReference reply).
Proof.
  intros (_ & _ & _ & _ & _ & _ & _ & _ & _ & [->|[refs ->]])%Decorations_Ok.
  - constructor.
  - apply sortBySpan_ordered.
Qed.

(** C6 (as amended): with [sourceText] set, the encoding of the reply is
    the value of the file's [text/encoding] fact as stored, hence the
    empty string when that fact is empty or absent. *)
Theorem Decorations_encoding_is_stored_fact req w reply w' :
  DSourceText req = true →
  Decorations req w = (Ok reply, w') →
  ∃ reqLoc fileV,
    DLocation req = Some reqLoc ∧ ToVName (LTicket reqLoc) = Some fileV ∧
    REncoding reply = default "" (storedFact (entries w) fileV facts.TextEncoding).
Proof.
  intros Hst (reqLoc & fileV & text & enc & w1 & Hl & Hv & Hsrc & He & _)%Decorations_Ok.
  exists reqLoc, fileV. split_and!; [done..|].
  rewrite He, Hst. by apply getSourceText_Ok in Hsrc as [-> _].
Qed.

End DecorationsReply.

Lemma Decorations_references_sorted_witness :
  ∃ reply w',
    @Decorations Scenario.collaborators Scenario.decorationsRequest
      (freshWorld Scenario.decorated) = (Ok reply, w') ∧
    Sorted spanOrdered (RReference reply).
Proof.
  eexists _, _. split; [vm_compute; reflexivity|].
  eapply (@Decorations_references_sorted Scenario.collaborators
            Scenario.decorationsRequest (freshWorld Scenario.decorated)).
  vm_compute. reflexivity.
Defined.

(** Scenario S4: the references come back as (0,3), then (4,7). *)
Example Decorations_S4 :
  map (λ r, (ByteOffset (AnchorStart r), ByteOffset (AnchorEnd r)))
      (match (@Decorations Scenario.collaborators Scenario.decorationsRequest
                (freshWorld Scenario.decorated)).1 with
       | Ok reply => RReference reply
       | _ => []
       end) = [(0, 3); (4, 7)].
Proof. vm_compute. reflexivity. Qed.

Lemma Decorations_encoding_witness :
  ∃ reply w',
    @Decorations Scenario.collaborators Scenario.decorationsRequest
      (freshWorld Scenario.decorated) = (Ok reply, w') ∧
    REncoding reply =
      default "" (storedFact Scenario.decorated Scenario.fileF facts.TextEncoding).
Proof.
  eexists _, _. split; [vm_compute; reflexivity|].
  destruct (@Decorations_encoding_is_stored_fact Scenario.collaborators
              Scenario.decorationsRequest (freshWorld Scenario.decorated) _ _
              eq_refl ltac:(vm_compute; reflexivity))
    as (reqLoc & fileV & Hl & Hv & He).
  vm_compute in Hl, Hv. inversion Hl; subst. inversion Hv; subst. exact He.
Defined.

(** C6 as stated fails: the file of scenario S4 has a text fact and no
    encoding fact, and the reply carries the empty string, not UTF-8. *)
Lemma Decorations_encoding_not_defaulted :
  ¬ (∀ (C : Collaborators) req w reply w' reqLoc fileV,
       DSourceText req = true →
       DLocation req = Some reqLoc → ToVName (LTicket reqLoc) = Some fileV →
       is_Some (storedFact (entries w) fileV facts.Text) →
       default "" (storedFact (entries w) fileV facts.TextEncoding) = "" →
       Decorations req w = (Ok reply, w') →
       REncoding reply = facts.DefaultTextEncoding).
Proof.
  intros Hall.
  specialize (Hall Scenario.collaborators Scenario.decorationsRequest
                (freshWorld Scenario.decorated)).
  pose (r := @Decorations Scenario.collaborators Scenario.decorationsRequest
               (freshWorld Scenario.decorated)).
  assert (Hr : ∃ reply w', r = (Ok reply, w') ∧ REncoding reply = "").
  { eexists _, _. split; vm_compute; reflexivity. }
  destruct Hr as (reply & w' & Hr & He).
  specialize (Hall reply w' Scenario.wholeFile Scenario.fileF eq_refl eq_refl eq_refl).
  rewrite Hall in He; [discriminate He| |reflexivity|exact Hr].
  vm_compute. eauto.
Qed.

(** ** Nodes *)

Section NodesReply.
Context `{Collaborators}.

Lemma retains_keep filters name :
  (length (ConvertFilters filters) =? 0)%nat || MatchesAny name (ConvertFilters filters)
  = retains filters name.
Proof. unfold retains, ConvertFilters. by destruct filters. Qed.

Lemma Nodes_visitor_lookup patterns es : ∀ (m : NodeInfo) name,
  foldl (Nodes_visitor patterns) m es !! name =
    if (length patterns =? 0)%nat || MatchesAny name patterns
    then match last (filter (λ e, FactName e = name) es) with
         | Some e => Some (FactValue e)
         | None => m !! name
         end
    else m !! name.
Proof.
  induction es as [|e es IH]; intros m name; simpl.
  { by destruct (_ || _). }
  rewrite IH, filter_cons. unfold Nodes_visitor.
  destruct ((length patterns =? 0)%nat || MatchesAny name patterns) eqn:Hk; simpl.
  - destruct (decide (FactName e = name)) as [<-|Hn].
    + rewrite Hk, lookup_insert_eq.
      destruct (filter _ es) as [|e' l] eqn:Hf; [done|].
      rewrite last_cons_cons. destruct (last (e' :: l)) eqn:Hl; [done|].
      by apply last_None in Hl.
    + destruct (_ || MatchesAny (FactName e) patterns); [|done].
      by rewrite lookup_insert_ne.
  - destruct (_ || MatchesAny (FactName e) patterns) eqn:Hk'; [|done].
    rewrite lookup_insert_ne; [done|]. intros <-. congruence.
Qed.

(** The facts a node read collects are the stored facts the filters keep. *)
Lemma Nodes_read_lookup filters v es name :
  foldl (Nodes_visitor (ConvertFilters filters)) ∅
        (filter (λ e, readMatches v "" e = true) es) !! name =
    if retains filters name then storedFact es v name else None.
Proof.
  rewrite Nodes_visitor_lookup, retains_keep, filter_fact_read, lookup_empty.
  unfold storedFact. destruct (retains filters name); [|done].
  by destruct (last _).
Qed.

Lemma parse_fold tickets : ∀ acc w names w',
  foldM Nodes_parse tickets acc w = (Ok names, w') →
  w' = w ∧ ∃ vs, names = acc ++ vs ∧ Forall2 (λ t v, ToVName t = Some v) tickets vs.
Proof.
  induction tickets as [|t ts IH]; intros acc w names w' Hf; simpl in Hf.
  - inv_ok. split; [done|]. exists []. by rewrite app_nil_r.
  - apply bind_Ok in Hf as (acc1 & w1 & Hstep & Hf). unfold Nodes_parse in Hstep.
    apply bind_Ok in Hstep as (v & w2 & Hp & Hr).
    apply parseTicket_Ok in Hp as [Hv ->]. inv_ok.
    apply IH in Hf as [-> (vs & -> & Hall)]. split; [done|].
    exists (v :: vs). rewrite <- app_assoc. split; [done|]. by constructor.
Qed.

Lemma read_fold filters pairs : ∀ nodes w nodes' w',
  Forall (λ p, ToVName p.1 = Some p.2) pairs →
  foldM (Nodes_read (ConvertFilters filters)) pairs nodes w = (Ok nodes', w') →
  entries w' = entries w ∧ logged w' = logged w ∧
  ∀ t, nodes' !! t =
    if bool_decide (t ∈ pairs.*1) && (0 <? size (collected filters (entries w) t))%nat
    then Some (collected filters (entries w) t)
    else nodes !! t.
Proof.
  induction pairs as [|[t0 v0] pairs IH]; intros nodes w nodes' w' Hall Hf; simpl in Hf.
  - inv_ok. split_and!; [done..|]. intros t.
    by rewrite bool_decide_false by apply not_elem_of_nil.
  - apply Forall_cons in Hall as [Hv0 Hall]. simpl in Hv0.
    apply bind_Ok in Hf as (nodes1 & w1 & Hstep & Hf). unfold Nodes_read in Hstep.
    apply bind_Ok in Hstep as (facts & w2 & Hread & Hr).
    apply gsRead_Ok in Hread as [Hfacts ->].
    apply IH in Hf as (He & Hl & Hlook); [|done].
    assert (Hw : entries w1 = entries w ∧ logged w1 = logged w)
      by (destruct (0 <? size facts)%nat; inv_ok; done).
    destruct Hw as [Hw1 Hw2]. rewrite He, Hl, Hw1, Hw2. split_and!; [done..|].
    intros t. rewrite Hlook, Hw1. clear Hlook.
    assert (Hc : collected filters (entries w) t0 = facts).
    { unfold collected. by rewrite Hv0, Hfacts. }
    rewrite fmap_cons. simpl.
    destruct (decide (t = t0)) as [->|Hne].
    + rewrite (bool_decide_true (t0 ∈ t0 :: _)) by (apply elem_of_cons; auto).
      rewrite Hc. simpl.
      destruct (0 <? size facts)%nat eqn:Hs.
      * rewrite andb_true_r. inv_ok. rewrite lookup_insert_eq. by case_bool_decide.
      * rewrite andb_false_r. by inv_ok.
    + assert (Hin : bool_decide (t ∈ t0 :: pairs.*1) = bool_decide (t ∈ pairs.*1)).
      { apply bool_decide_ext. rewrite elem_of_cons. tauto. }
      rewrite Hin. destruct (_ && _); [done|].
      destruct (0 <? size facts)%nat; inv_ok; [|done]. by rewrite lookup_insert_ne.
Qed.

Lemma Nodes_Ok req w reply w' :
  Nodes req w = (Ok reply, w') →
  entries w' = entries w ∧ logged w' = logged w ∧
  Forall (λ t, is_Some (ToVName t)) (NTicket req) ∧
  ∀ t, NNodes reply !! t =
    if bool_decide (t ∈ NTicket req) &&
       (0 <? size (collected (NFilter req) (entries w) t))%nat
    then Some (collected (NFilter req) (entries w) t)
    else None.
Proof.
  unfold Nodes. intros Hn.
  apply bind_Ok in Hn as (names & w1 & Hparse & Hn).
  apply parse_fold in Hparse as [-> (vs & -> & Hall)]. simpl in Hn.
  apply bind_Ok in Hn as (nodes & w2 & Hread & Hn). inv_ok.
  assert (Hlen : length (NTicket req) = length vs) by by eapply Forall2_length.
  apply read_fold in Hread as (He & Hl & Hlook).
  - split_and!; [done..| |].
    + clear -Hall. induction Hall; constructor; eauto.
    + intros t. simpl. rewrite Hlook, fst_zip by lia. by rewrite lookup_empty.
  - clear -Hall. induction Hall; simpl; constructor; auto.
Qed.

Lemma retains_nil name : retains [] name = true.
Proof. done. Qed.

Lemma retains_filters filters name :
  filters ≠ [] → retains filters name = MatchesAny name filters.
Proof. unfold retains. intros Hne. by rewrite bool_decide_false. Qed.

Lemma collected_lookup filters es ticket v name :
  ToVName ticket = Some v →
  collected filters es ticket !! name =
    if retains filters name then storedFact es v name else None.
Proof. unfold collected. intros ->. apply Nodes_read_lookup. Qed.

(** C3: in a reply of [Nodes], a requested ticket is present exactly when
    the store holds a fact of its node that the filters keep (every fact
    when the filter list is empty, the facts matching some filter
    otherwise), and it then carries all the kept facts and no others;
    tickets that were not requested are absent. *)
Theorem Nodes_reply_facts req w reply w' :
  Nodes req w = (Ok reply, w') →
  (∀ ticket, ticket ∉ NTicket req → NNodes reply !! ticket = None) ∧
  (∀ ticket, ticket ∈ NTicket req →
     ∃ v, ToVName ticket = Some v ∧
       match NNodes reply !! ticket with
       | Some facts =>
           (∃ name, is_Some (facts !! name)) ∧
           ∀ name, facts !! name =
             if retains (NFilter req) name then storedFact (entries w) v name else None
       | None =>
           ∀ name, retains (NFilter req) name = true →
                   storedFact (entries w) v name = None
       end).
Proof.
  intros (_ & _ & Hvalid & Hlook)%Nodes_Ok. split.
  - intros t Ht. rewrite Hlook. by rewrite bool_decide_false.
  - intros t Ht. rewrite Forall_forall in Hvalid.
    destruct (Hvalid t Ht) as [v Hv]. exists v. split; [done|].
    rewrite Hlook, bool_decide_true by done. simpl.
    destruct (0 <? size (collected (NFilter req) (entries w) t))%nat eqn:Hs.
    + split; [|intros name; by apply collected_lookup].
      apply Nat.ltb_lt in Hs.
      destruct (map_choose (collected (NFilter req) (entries w) t)) as (name & x & Hx).
      { intros He. rewrite He, map_size_empty in Hs. lia. }
      exists name. by rewrite Hx.
    + intros name Hk. apply Nat.ltb_ge in Hs.
      assert (He : collected (NFilter req) (entries w) t = ∅)
        by (apply map_size_empty_iff; lia).
      pose proof (collected_lookup (NFilter req) (entries w) t v name Hv) as Hc.
      by rewrite He, lookup_empty, Hk in Hc.
Qed.

End NodesReply.


Lemma Nodes_reply_facts_witness :
  ∃ reply w',
    @Nodes Scenario.collaborators Scenario.nodesRequest
      (freshWorld Scenario.decorated) = (Ok reply, w') ∧
    (∀ ticket, ticket ∉ NTicket Scenario.nodesRequest →
               NNodes reply !! ticket = None) ∧
    ∃ facts, NNodes reply !! "kythe:?path=f#a1" = Some facts ∧
             facts !! "/kythe/loc/start" = Some "4" ∧
             facts !! "/kythe/node/kind" = None.
Proof.
  eexists _, _. split; [vm_compute; reflexivity|].
  destruct (@Nodes_reply_facts Scenario.collaborators Scenario.nodesRequest
              (freshWorld Scenario.decorated) _ _ ltac:(vm_compute; reflexivity))
    as [Habsent _].
  split; [exact Habsent|].
  eexists. split; [vm_compute; reflexivity|]. split; vm_compute; reflexivity.
Defined.


(** ** Edges *)

Section EdgesReply.
Context `{Collaborators}.

Lemma Edges_visitor_nonempty req patterns es : ∀ fe ff,
  (foldl (Edges_visitor req patterns (list_to_set (EKind req))) (fe, ff) es).1 ≠ ∅ ↔
  fe ≠ ∅ ∨ ∃ e, e ∈ es ∧ EdgeKind e ≠ "" ∧
                (EKind req = [] ∨ (ParseOrdinal (EdgeKind e)).1.1 ∈ EKind req).
Proof.
  induction es as [|e es IH]; intros fe ff; cbn [foldl fst].
  { split; [auto|]. intros [?|(e & He & _)]; [done|]. by apply not_elem_of_nil in He. }
  destruct (Edges_visitor req patterns (list_to_set (EKind req)) (fe, ff) e)
    as [fe1 ff1] eqn:Hv.
  rewrite IH. unfold Edges_visitor in Hv.
  assert (Hcons : ∀ P : Entry → Prop,
            (∃ e', e' ∈ e :: es ∧ P e') ↔ P e ∨ ∃ e', e' ∈ es ∧ P e').
  { intros P. split.
    - intros (e' & [->|He']%elem_of_cons & HP); eauto.
    - intros [HP|(e' & He' & HP)]; [exists e|exists e']; rewrite elem_of_cons; auto. }
  rewrite Hcons. clear Hcons.
  case_bool_decide as Hk.
  - assert (fe1 = fe) as -> by (destruct (_ && _); by inversion Hv). tauto.
  - destruct (ParseOrdinal (EdgeKind e)) as [[k o] b] eqn:Hp. simpl.
    destruct ((length (EKind req) =? 0)%nat || bool_decide (k ∈ (list_to_set (EKind req) : gset string)))
      eqn:Hallow.
    + inversion Hv; subst. clear Hv.
      assert (Hret : EKind req = [] ∨ k ∈ EKind req).
      { apply orb_prop in Hallow as [Hl|Hl].
        - left. apply Nat.eqb_eq in Hl. by destruct (EKind req).
        - right. apply bool_decide_eq_true in Hl. by apply elem_of_list_to_set in Hl. }
      split; [tauto|]. intros _. left. apply insert_non_empty.
    + inversion Hv; subst. clear Hv.
      apply orb_false_elim in Hallow as [Hl Hm].
      apply Nat.eqb_neq in Hl. apply bool_decide_eq_false in Hm.
      rewrite elem_of_list_to_set in Hm.
      assert (EKind req ≠ []) by (destruct (EKind req); [done|discriminate]).
      tauto.
Qed.

Lemma Edges_ticket_fold req tickets : ∀ edgeSets nodes targetSet w st' w',
  foldM (Edges_ticket req (ConvertFilters (EFilter req)) (list_to_set (EKind req)))
        tickets (edgeSets, nodes, targetSet) w = (Ok st', w') →
  entries w' = entries w ∧
  ∀ t, is_Some (st'.1.1 !! t) ↔
       is_Some (edgeSets !! t) ∨
       (t ∈ tickets ∧ ∃ v e, ToVName t = Some v ∧ e ∈ entries w ∧
                             retainedEdge (EKind req) v e).
Proof.
  induction tickets as [|t0 ts IH]; intros edgeSets nodes targetSet w st' w' Hf;
    simpl in Hf.
  - inv_ok. split; [done|]. intros t. simpl. split; [auto|].
    intros [?|[Hin _]]; [done|]. by apply not_elem_of_nil in Hin.
  - apply bind_Ok in Hf as ([[es1 ns1] ts1] & w1 & Hstep & Hf).
    apply IH in Hf as [He Hiff]. unfold Edges_ticket in Hstep.
    apply bind_Ok in Hstep as (v0 & w2 & Hp & Hstep).
    apply mapErr_Ok, parseTicket_Ok in Hp as [Hv0 ->].
    apply bind_Ok in Hstep as ([fe ff] & w3 & Hread & Hstep).
    apply mapErr_Ok, gsRead_Ok in Hread as [Hr ->].
    assert (Hw1 : entries w1 = entries w)
      by (destruct (0 <? size fe)%nat; inv_ok; done).
    rewrite He, Hw1. split; [done|]. intros t. rewrite Hiff, Hw1. clear Hiff.
    assert (Hfe : fe ≠ ∅ ↔ ∃ e, e ∈ entries w ∧ retainedEdge (EKind req) v0 e).
    { apply (f_equal fst) in Hr. simpl in Hr. rewrite Hr.
      rewrite Edges_visitor_nonempty. split.
      - intros [?|(e & He' & Hk & Hallow)]; [done|].
        apply list_elem_of_filter in He' as [Hm%readMatches_star He'].
        exists e. unfold retainedEdge. auto.
      - intros (e & He' & Hs & Hk & Hallow). right. exists e. split; [|done].
        apply list_elem_of_filter. split; [by apply readMatches_star|done]. }
    assert (Hes1 : ∀ t, is_Some (es1 !! t) ↔ is_Some (edgeSets !! t) ∨ (t = t0 ∧ fe ≠ ∅)).
    { intros t'. destruct (0 <? size fe)%nat eqn:Hs; inv_ok.
      - apply Nat.ltb_lt in Hs.
        assert (fe ≠ ∅) by (intros ->; rewrite map_size_empty in Hs; lia).
        destruct (decide (t' = t0)) as [->|Hne].
        + rewrite lookup_insert_eq. split; [intros _; right; done|eauto].
        + rewrite lookup_insert_ne by done. tauto.
      - apply Nat.ltb_ge in Hs.
        assert (fe = ∅) by (apply map_size_empty_iff; lia). tauto. }
    rewrite Hes1, Hfe, elem_of_cons. clear Hes1 Hfe. split.
    + intros [[?|[-> (e & He' & Hre)]]|[Hin Hex]]; eauto 10.
    + intros [?|[[->|Hin] (v & e & Hv & He' & Hre)]]; eauto 10.
      left. right. split; [done|]. exists e. split; [done|]. congruence.
Qed.

(** [Edges] replies never carry a page token. *)
Lemma Edges_Ok req w reply w' :
  Edges req w = (Ok reply, w') →
  ENextPageToken reply = "" ∧
  ∃ st w1,
    foldM (Edges_ticket req (ConvertFilters (EFilter req)) (list_to_set (EKind req)))
          (ETickets req) (∅, ∅, ∅) w = (Ok st, w1) ∧
    EdgeSets reply = st.1.1.
Proof.
  unfold Edges. intros He. case_ok He. case_ok He.
  apply bind_Ok in He as ([[es ns] ts] & w1 & Hfold & He).
  case_ok He.
  - apply bind_Ok in He as (nr & w2 & _ & He). inv_ok. eauto.
  - inv_ok. eauto.
Qed.

(** C7: the reply of [Edges] maps a ticket to an edge set exactly when the
    ticket was requested and its node has an edge the allow-list retains;
    facts matching the filter do not earn a source an edge set. *)
Theorem Edges_edge_set_iff_retained_edge req w reply w' :
  Edges req w = (Ok reply, w') →
  ∀ ticket,
    is_Some (EdgeSets reply !! ticket) ↔
    ticket ∈ ETickets req ∧
    ∃ v e, ToVName ticket = Some v ∧ e ∈ entries w ∧ retainedEdge (EKind req) v e.
Proof.
  intros (_ & st & w1 & Hfold & ->)%Edges_Ok ticket.
  apply Edges_ticket_fold in Hfold as [_ Hiff]. rewrite Hiff, lookup_empty.
  split; [|auto]. intros [[? ?]|?]; done.
Qed.

End EdgesReply.


Lemma Edges_edge_set_witness :
  ∃ reply w',
    @Edges Scenario.collaborators Scenario.edgesRequest
      (freshWorld Scenario.decorated) = (Ok reply, w') ∧
    ("kythe:#t1" ∈ ETickets Scenario.edgesRequest ∧
     ∃ v e, @ToVName Scenario.collaborators "kythe:#t1" = Some v ∧
            e ∈ Scenario.decorated ∧
            @retainedEdge Scenario.collaborators (EKind Scenario.edgesRequest) v e) ∧
    EdgeSets reply !! "kythe:?path=f" = None ∧
    is_Some (ENodes reply !! "kythe:#t1").
Proof.
  eexists _, _. split; [vm_compute; reflexivity|]. split.
  - apply (@Edges_edge_set_iff_retained_edge Scenario.collaborators
             Scenario.edgesRequest (freshWorld Scenario.decorated) _ _
             ltac:(vm_compute; reflexivity) "kythe:#t1").
    vm_compute. eexists. reflexivity.
  - split; [vm_compute; reflexivity|]. vm_compute. eexists. reflexivity.
Defined.

(** ** Invalid requests *)

Section InvalidRequests.
Context `{Collaborators}.

Lemma len_nonempty s : s ≠ "" → (0 <? len s) = true.
Proof.
  destruct s; [done|]. intros _. unfold len. apply Z.ltb_lt.
  cbn [String.length]. lia.
Qed.

Lemma bind_Fail {A B} (m : M A) (k : A → M B) w e w' :
  m w = (Fail e, w') → bind m k w = (Fail e, w').
Proof. unfold bind. by intros ->. Qed.

Lemma mapErr_Fail {A} f (m : M A) w e w' :
  m w = (Fail e, w') → mapErr f m w = (Fail (f e), w').
Proof. unfold mapErr. by intros ->. Qed.

Lemma Decorations_invalid req w :
  DDirtyBuffer req ≠ "" ∨ DLocation req = None ∨
  (∃ loc, DLocation req = Some loc ∧ ToVName (LTicket loc) = None) →
  ∃ e, Decorations req w = (Fail e, w).
Proof.
  intros Hinv. unfold Decorations.
  destruct (0 <? len (DDirtyBuffer req)) eqn:Hd; [eauto|].
  destruct (DLocation req) as [loc|] eqn:Hl; [|eauto].
  destruct Hinv as [Hdirty|[?|(loc' & Hloc & Hv)]]; [|done|].
  - apply len_nonempty in Hdirty. congruence.
  - inversion Hloc; subst. eexists. apply bind_Fail, mapErr_Fail.
    unfold parseTicket. by rewrite Hv.
Qed.

Lemma Edges_invalid_shape req w :
  ETickets req = [] ∨ EPageToken req ≠ "" → ∃ e, Edges req w = (Fail e, w).
Proof.
  intros Hinv. unfold Edges.
  destruct (length (ETickets req) =? 0)%nat eqn:Hl; [eauto|].
  destruct Hinv as [Ht|Hp].
  - rewrite Ht in Hl. discriminate.
  - rewrite bool_decide_false by done. simpl. eauto.
Qed.

Lemma CrossReferences_no_tickets fuel req w :
  XTicket req = [] → ∃ e, CrossReferences fuel req w = (Fail e, w).
Proof. intros Ht. unfold CrossReferences. rewrite Ht. simpl. eauto. Qed.

Lemma Nodes_parse_malformed tickets : ∀ acc w,
  (∃ t, t ∈ tickets ∧ ToVName t = None) →
  ∃ e, foldM Nodes_parse tickets acc w = (Fail e, w).
Proof.
  induction tickets as [|t0 ts IH]; intros acc w (t & Hin & Hv).
  { by apply not_elem_of_nil in Hin. }
  simpl. unfold bind, Nodes_parse at 1, bind, parseTicket.
  destruct (ToVName t0) as [v0|] eqn:Hv0; simpl; [|eauto].
  apply IH. apply elem_of_cons in Hin as [->|Hin]; [congruence|eauto].
Qed.

Lemma Nodes_malformed req w :
  (∃ t, t ∈ NTicket req ∧ ToVName t = None) → ∃ e, Nodes req w = (Fail e, w).
Proof.
  intros Hbad. unfold Nodes.
  destruct (Nodes_parse_malformed (NTicket req) [] w Hbad) as [e He].
  exists e. by apply bind_Fail.
Qed.

Lemma readsOf_next k v vs before :
  readsOf k vs (CallRead v "*" :: before) = readsOf (S k) (v :: vs) before.
Proof. unfold readsOf. simpl. by rewrite <- app_assoc. Qed.

Lemma Edges_ticket_step req patterns allowed st t w :
  match ToVName t with
  | None => ∃ e, Edges_ticket req patterns allowed st t w = (Fail e, w)
  | Some v =>
      (∃ e, Edges_ticket req patterns allowed st t w
            = (Fail e, recordCall (CallRead v "*") w)) ∨
      (∃ st', Edges_ticket req patterns allowed st t w
              = (Ok st', recordCall (CallRead v "*") w))
  end.
Proof.
  destruct st as [[edgeSets nodes] targetSet].
  unfold Edges_ticket, bind, mapErr, parseTicket, gsRead.
  destruct (ToVName t) as [v|]; simpl; [|eauto].
  destruct (nextFails w); simpl; [eauto|].
  match goal with
  | |- context [foldl ?f ?s ?l] => destruct (foldl f s l) as [fe ff]
  end.
  destruct (0 <? size fe)%nat; simpl; eauto.
Qed.

Lemma Edges_ticket_malformed req patterns allowed tickets : ∀ st w,
  (∃ t, t ∈ tickets ∧ ToVName t = None) →
  ∃ e w' k,
    foldM (Edges_ticket req patterns allowed) tickets st w = (Fail e, w') ∧
    entries w' = entries w ∧
    calls w' = readsOf k (validPrefix tickets) (calls w).
Proof.
  induction tickets as [|t0 ts IH]; intros st w (t & Hin & Hv).
  { by apply not_elem_of_nil in Hin. }
  cbn [foldM validPrefix]. unfold bind at 1.
  pose proof (Edges_ticket_step req patterns allowed st t0 w) as Hstep.
  destruct (ToVName t0) as [v0|] eqn:Hv0.
  - assert (Hbad : ∃ t, t ∈ ts ∧ ToVName t = None).
    { apply elem_of_cons in Hin as [->|Hin]; [congruence|eauto]. }
    destruct Hstep as [[e ->]|[st' ->]].
    + by exists e, (recordCall (CallRead v0 "*") w), 1%nat.
    + destruct (IH st' (recordCall (CallRead v0 "*") w) Hbad)
        as (e & w' & k & Hfold & He & Hc).
      exists e, w', (S k). split_and!; [done..|].
      rewrite Hc. apply readsOf_next.
  - destruct Hstep as [e ->]. by exists e, w, 0%nat.
Qed.

Lemma Edges_malformed req w :
  (∃ t, t ∈ ETickets req ∧ ToVName t = None) →
  ∃ e w' k,
    Edges req w = (Fail e, w') ∧ entries w' = entries w ∧
    calls w' = readsOf k (validPrefix (ETickets req)) (calls w).
Proof.
  intros Hbad. unfold Edges.
  destruct (length (ETickets req) =? 0)%nat.
  { by exists (EMsg "no tickets specified"), w, 0%nat. }
  destruct (negb (bool_decide (EPageToken req = ""))).
  { by exists (EMsg "UNIMPLEMENTED: page_token"), w, 0%nat. }
  destruct (Edges_ticket_malformed req (ConvertFilters (EFilter req))
              (list_to_set (EKind req)) (ETickets req) (∅, ∅, ∅) w Hbad)
    as (e & w' & k & Hfold & He & Hc).
  exists e, w', k. split; [|done]. by apply bind_Fail.
Qed.

Lemma CrossReferences_malformed fuel req w :
  (∃ t, t ∈ XTicket req ∧ ToVName t = None) →
  ∃ e w' k,
    CrossReferences fuel req w = (Fail e, w') ∧ entries w' = entries w ∧
    calls w' = readsOf k (validPrefix (XTicket req)) (calls w).
Proof.
  intros Hbad. unfold CrossReferences.
  destruct (length (XTicket req) =? 0)%nat.
  { by exists (EMsg "no cross-references requested"), w, 0%nat. }
  match goal with
  | |- context [Edges ?r] =>
      destruct (Edges_malformed r w Hbad) as (e & w' & k & He & Hent & Hc)
  end.
  eexists _, w', k. split; [|done]. by apply bind_Fail, mapErr_Fail.
Qed.

(** C4 (as amended): every invalid request is answered with an error.  No
    store call precedes the error for a [Decorations] request with a dirty
    buffer, without a location or with a malformed file ticket, for an
    [Edges] request without tickets or with a page token, for a
    [CrossReferences] request without tickets, and for [Nodes] with a
    malformed ticket anywhere.  [Edges] and [CrossReferences] with a
    malformed ticket leave the store as it is and have made no call other
    than reads of tickets that precede the first malformed one. *)
Theorem invalid_requests_are_errors :
  (∀ req w,
     DDirtyBuffer req ≠ "" ∨ DLocation req = None ∨
     (∃ loc, DLocation req = Some loc ∧ ToVName (LTicket loc) = None) →
     ∃ e, Decorations req w = (Fail e, w)) ∧
  (∀ req w, ETickets req = [] ∨ EPageToken req ≠ "" →
     ∃ e, Edges req w = (Fail e, w)) ∧
  (∀ fuel req w, XTicket req = [] →
     ∃ e, CrossReferences fuel req w = (Fail e, w)) ∧
  (∀ req w, (∃ t, t ∈ NTicket req ∧ ToVName t = None) →
     ∃ e, Nodes req w = (Fail e, w)) ∧
  (∀ req w, (∃ t, t ∈ ETickets req ∧ ToVName t = None) →
     ∃ e w' k, Edges req w = (Fail e, w') ∧ entries w' = entries w ∧
               calls w' = readsOf k (validPrefix (ETickets req)) (calls w)) ∧
  (∀ fuel req w, (∃ t, t ∈ XTicket req ∧ ToVName t = None) →
     ∃ e w' k, CrossReferences fuel req w = (Fail e, w') ∧ entries w' = entries w ∧
               calls w' = readsOf k (validPrefix (XTicket req)) (calls w)).
Proof.
  split_and!.
  - apply Decorations_invalid.
  - apply Edges_invalid_shape.
  - apply CrossReferences_no_tickets.
  - apply Nodes_malformed.
  - apply Edges_malformed.
  - apply CrossReferences_malformed.
Qed.

End InvalidRequests.

Lemma invalid_requests_witness :
  (∃ e, @Decorations Scenario.collaborators Scenario.dirtyRequest
          (freshWorld Scenario.decorated) = (Fail e, freshWorld Scenario.decorated)) ∧
  (∃ e, @Nodes Scenario.collaborators (mkNodesRequest ["kythe:#t1"; "bogus"] [])
          (freshWorld Scenario.decorated) = (Fail e, freshWorld Scenario.decorated)) ∧
  (∃ e w' k, @Edges Scenario.collaborators Scenario.edgesRequestMalformed
               (freshWorld Scenario.decorated) = (Fail e, w') ∧
             entries w' = Scenario.decorated ∧
             calls w' = readsOf k [Scenario.t1] []).
Proof.
  destruct (@invalid_requests_are_errors Scenario.collaborators)
    as (HD & _ & _ & HN & HE & _).
  split_and!.
  - apply HD. left. discriminate.
  - apply HN. exists "bogus". split; [|reflexivity].
    apply elem_of_cons. right. apply elem_of_cons. by left.
  - apply (HE Scenario.edgesRequestMalformed (freshWorld Scenario.decorated)).
    exists "bogus". split; [|reflexivity].
    apply elem_of_cons. right. apply elem_of_cons. by left.
Defined.

(** C4 as stated fails: [Edges] reads the tickets in turn, so a malformed
    ticket that follows a well-formed one is met after a [Read]. *)
Lemma Edges_reads_before_malformed_ticket :
  ¬ (∀ (C : Collaborators) req w,
       (∃ t, t ∈ ETickets req ∧ ToVName t = None) →
       ∃ e w', Edges req w = (Fail e, w') ∧ calls w' = calls w).
Proof.
  intros Hall.
  destruct (Hall Scenario.collaborators Scenario.edgesRequestMalformed
              (freshWorld Scenario.decorated)) as (e & w' & He & Hc).
  { exists "bogus". split; [|reflexivity].
    apply elem_of_cons. right. apply elem_of_cons. by left. }
  assert (Hrun : calls (@Edges Scenario.collaborators Scenario.edgesRequestMalformed
                          (freshWorld Scenario.decorated)).2
                 = [CallRead Scenario.t1 "*"]) by (vm_compute; reflexivity).
  rewrite He in Hrun. simpl in Hrun. rewrite Hc in Hrun. discriminate Hrun.
Qed.


(** ** CrossReferences: related nodes and the nil map *)

Lemma nw_ret {A} (a : A) : neverWritesNilMap (ret a).
Proof. intros w w' Hr. discriminate Hr. Qed.

Lemma nw_fail {A} e : neverWritesNilMap (@fail A e).
Proof. intros w w' Hr. discriminate Hr. Qed.

Lemma nw_panic {A} p : p ≠ NilMapWrite → neverWritesNilMap (@panic A p).
Proof. intros Hp w w' Hr. inversion Hr. done. Qed.

Lemma nw_logLine l : neverWritesNilMap (logLine l).
Proof. intros w w' Hr. discriminate Hr. Qed.

Lemma nw_gsRead {S} v k (f : S → Entry → S) s : neverWritesNilMap (gsRead v k f s).
Proof. intros w w'. unfold gsRead. destruct (nextFails w); discriminate. Qed.

Lemma nw_bind {A B} (m : M A) (k : A → M B) :
  neverWritesNilMap m → (∀ a, neverWritesNilMap (k a)) → neverWritesNilMap (bind m k).
Proof.
  intros Hm Hk w w'. unfold bind. specialize (Hm w).
  destruct (m w) as [[a|e|p] w1]; [apply Hk|discriminate|].
  intros Hr. inversion Hr; subst. by apply (Hm w').
Qed.

Lemma nw_mapErr {A} f (m : M A) : neverWritesNilMap m → neverWritesNilMap (mapErr f m).
Proof.
  intros Hm w w'. unfold mapErr. specialize (Hm w).
  destruct (m w) as [[a|e|p] w1]; [discriminate..|].
  intros Hr. inversion Hr; subst. by apply (Hm w').
Qed.

Lemma nw_foldM {A S} (f : S → A → M S) l :
  (∀ s a, neverWritesNilMap (f s a)) → ∀ s, neverWritesNilMap (foldM f l s).
Proof.
  intros Hf. induction l as [|a l IH]; intros s; simpl.
  - apply nw_ret.
  - apply nw_bind; [apply Hf|apply IH].
Qed.

Lemma nw_sliceM b lo hi : neverWritesNilMap (sliceM b lo hi).
Proof. unfold sliceM. destruct (slice b lo hi); [apply nw_ret|by apply nw_panic]. Qed.

(** Decompose a computation into the primitives above. *)
Ltac nw_step :=
  first
    [ apply nw_ret | apply nw_fail | apply nw_logLine | apply nw_gsRead
    | apply nw_sliceM | apply nw_panic; discriminate
    | apply nw_mapErr | apply nw_bind; [|intros ?] | apply nw_foldM; intros ? ?
    | match goal with
      | |- neverWritesNilMap (if ?c then _ else _) => destruct c
      | |- neverWritesNilMap (match ?c with _ => _ end) => destruct c
      | |- neverWritesNilMap (let (_, _) := ?c in _) => destruct c
      end ].

Section RelatedNodes.
Context `{Collaborators}.

Lemma nw_Nodes req : neverWritesNilMap (Nodes req).
Proof. unfold Nodes, Nodes_parse, Nodes_read, parseTicket. repeat nw_step. Qed.

Lemma nw_Edges req : neverWritesNilMap (Edges req).
Proof.
  unfold Edges, Edges_ticket, parseTicket.
  repeat first [apply nw_Nodes | nw_step].
Qed.

Lemma nw_decodeSlice file lo hi l : neverWritesNilMap (decodeSlice file lo hi l).
Proof. unfold decodeSlice. repeat nw_step. Qed.

Lemma nw_completeAnchors retrieveText files edgeKind anchors :
  neverWritesNilMap (completeAnchors retrieveText files edgeKind anchors).
Proof.
  unfold completeAnchors, completeAnchors_anchor, completeAnchors_parent.
  repeat first [apply nw_Nodes | apply nw_decodeSlice | nw_step].
Qed.

Lemma nw_CrossReferences_group req st group :
  neverWritesNilMap (CrossReferences_group req st group).
Proof.
  unfold CrossReferences_group.
  repeat first [apply nw_completeAnchors | nw_step].
Qed.

Lemma nw_CrossReferences_source req st edgeSet :
  neverWritesNilMap (CrossReferences_source req st edgeSet).
Proof.
  unfold CrossReferences_source.
  repeat first [apply nw_CrossReferences_group | nw_step].
Qed.

Lemma nw_CrossReferences_pages req size fuel : ∀ eReply st token,
  neverWritesNilMap (CrossReferences_pages fuel req size eReply st token).
Proof.
  induction fuel as [|fuel IH]; intros eReply st token; simpl.
  - apply nw_ret.
  - repeat first [apply nw_CrossReferences_source | apply nw_Edges | apply IH | nw_step].
Qed.

Lemma CrossReferences_group_related req xr count files group w st' w' :
  CrossReferences_group req (xr, count, ∅, files) group w = (Ok st', w') →
  st'.1.2 = ∅ ∧ CRelatedNode st'.1.1.1 = CRelatedNode xr.
Proof.
  unfold CrossReferences_group. destruct group as [kind grp]. intros Hg.
  repeat case_ok Hg;
    try (apply bind_Ok in Hg as ([files' anchors] & w1 & _ & Hg));
    inv_ok; done.
Qed.

Lemma CrossReferences_groups_related req groups : ∀ xr count files w st' w',
  foldM (CrossReferences_group req) groups (xr, count, ∅, files) w = (Ok st', w') →
  st'.1.2 = ∅ ∧ CRelatedNode st'.1.1.1 = CRelatedNode xr.
Proof.
  induction groups as [|g gs IH]; intros xr count files w st' w' Hf; simpl in Hf.
  - by inv_ok.
  - apply bind_Ok in Hf as ([[[xr1 c1] rel1] files1] & w1 & Hstep & Hf).
    apply CrossReferences_group_related in Hstep as [Hrel Hxr]. simpl in Hrel, Hxr.
    subst rel1. apply IH in Hf as [? ?]. split; [done|congruence].
Qed.

Lemma CrossReferences_source_related req crossRefs files total edgeSet w st' w' :
  noRelated crossRefs ∅ →
  CrossReferences_source req (crossRefs, ∅, files, total) edgeSet w = (Ok st', w') →
  noRelated st'.1.1.1 st'.1.1.2.
Proof.
  unfold CrossReferences_source. destruct edgeSet as [source es].
  intros [_ Hno] Hs.
  apply bind_Ok in Hs as ([[[xr c] rel] files1] & w1 & Hgroups & Hs).
  apply CrossReferences_groups_related in Hgroups as [Hrel Hxr]. simpl in Hrel, Hxr.
  assert (Hnil : CRelatedNode xr = []).
  { rewrite Hxr. destruct (crossRefs !! source) as [xr0|] eqn:Hl; [|done].
    by apply (Hno source). }
  case_ok Hs; inv_ok; (split; [done|]); [|done].
  intros t xr'. simpl. destruct (decide (CTicket xr = t)) as [<-|Hne].
  - rewrite lookup_insert_eq. by intros [= <-].
  - rewrite lookup_insert_ne by done. apply Hno.
Qed.

Lemma CrossReferences_sources_related req sets : ∀ crossRefs files total w st' w',
  noRelated crossRefs ∅ →
  foldM (CrossReferences_source req) sets (crossRefs, ∅, files, total) w = (Ok st', w') →
  noRelated st'.1.1.1 st'.1.1.2.
Proof.
  induction sets as [|e sets IH]; intros crossRefs files total w st' w' Hno Hf;
    simpl in Hf.
  - by inv_ok.
  - apply bind_Ok in Hf as ([[[cr1 rel1] files1] total1] & w1 & Hstep & Hf).
    apply CrossReferences_source_related in Hstep as Hno1; [|done].
    simpl in Hno1. destruct Hno1 as [-> Hno1].
    by apply IH in Hf.
Qed.

(** A page token of [""] ends the loop of pages at its first round. *)
Lemma CrossReferences_pages_related req size fuel eReply crossRefs files total w r w' :
  noRelated crossRefs ∅ →
  CrossReferences_pages (S fuel) req size eReply (crossRefs, ∅, files, total) "" w
    = (Ok r, w') →
  ∃ st, r = Some (st, "") ∧ noRelated st.1.1.1 st.1.1.2.
Proof.
  intros Hno Hp. simpl in Hp.
  apply bind_Ok in Hp as (st & w1 & Hsources & Hp).
  apply CrossReferences_sources_related in Hsources; [|done].
  inv_ok. eauto.
Qed.

Lemma CrossReferences_Ok fuel req w r w' :
  CrossReferences (S fuel) req w = (Ok r, w') →
  ∃ reply, r = Some reply ∧
    XNodes reply = (if (0 <? length (XFilter req))%nat then Some ∅ else None) ∧
    ∀ t xr, CrossReferences_ reply !! t = Some xr → CRelatedNode xr = [].
Proof.
  unfold CrossReferences. intros Hx. case_ok Hx.
  apply bind_Ok in Hx as (eReply & w1 & He & Hx).
  apply mapErr_Ok, Edges_Ok in He as [Htok _]. rewrite Htok in Hx.
  apply bind_Ok in Hx as (pages & w2 & Hp & Hx).
  apply CrossReferences_pages_related in Hp as (st & -> & Hrel & Hno); [|done].
  destruct st as [[[crossRefs rel] files] total]. simpl in Hrel, Hno. subst rel.
  rewrite bool_decide_true in Hx by done. simpl in Hx. inv_ok.
  eexists. split; [done|]. by split.
Qed.

Lemma CrossReferences_no_nil_map_write fuel req :
  neverWritesNilMap (CrossReferences (S fuel) req).
Proof.
  intros w w'. unfold CrossReferences.
  destruct (length (XTicket req) =? 0)%nat; [discriminate|].
  unfold bind at 1.
  match goal with |- context [mapErr ?f (Edges ?r) w] =>
    pose proof (nw_mapErr f _ (nw_Edges r) w) as Hsafe;
    destruct (mapErr f (Edges r) w) as [[eReply|e|p] w1] eqn:He
  end; [|discriminate|by intros [= -> ->]; apply (Hsafe w')].
  apply mapErr_Ok, Edges_Ok in He as [Htok _]. rewrite Htok.
  unfold bind at 1.
  match goal with |- context [CrossReferences_pages ?f ?r ?s ?e ?st ?t w1] =>
    pose proof (nw_CrossReferences_pages r s f e st t w1) as Hsafe';
    destruct (CrossReferences_pages f r s e st t w1) as [[pages|e'|p] w2] eqn:Hp
  end; [|discriminate|by intros [= -> ->]; apply (Hsafe' w')].
  apply CrossReferences_pages_related in Hp as (st & -> & Hrel & Hno); [|done].
  destruct st as [[[crossRefs rel] files] total]. simpl in Hrel. subst rel.
  rewrite bool_decide_true by done. discriminate.
Qed.

(** C9: [CrossReferences] never panics on a write to the nil [Nodes] map.
    With no filter the map of the reply is left nil; the set
    [allRelatedNodes] stays empty, so no related node is ever emitted
    and the batch fetch of related nodes never runs: with a filter the
    map of the reply is the empty map it was made as. *)
Theorem CrossReferences_never_writes_nil_map fuel req w :
  (∀ w', CrossReferences (S fuel) req w ≠ (Panic NilMapWrite, w')) ∧
  (∀ r w', CrossReferences (S fuel) req w = (Ok r, w') →
     ∃ reply, r = Some reply ∧
       (XFilter req = [] → XNodes reply = None) ∧
       (XFilter req ≠ [] → XNodes reply = Some ∅) ∧
       ∀ t xr, CrossReferences_ reply !! t = Some xr → CRelatedNode xr = []).
Proof.
  split; [apply CrossReferences_no_nil_map_write|].
  intros r w' (reply & -> & Hnodes & Hrel)%CrossReferences_Ok.
  exists reply. split_and!; [done| | |done].
  - intros Hf. by rewrite Hnodes, Hf.
  - intros Hf. rewrite Hnodes. by destruct (XFilter req).
Qed.

End RelatedNodes.

Lemma CrossReferences_never_writes_nil_map_witness :
  ∃ reply w',
    @CrossReferences Scenario.collaborators 1 Scenario.crossReferencesRequest
      (freshWorld Scenario.crossReferenced) = (Ok (Some reply), w') ∧
    XNodes reply = Some ∅.
Proof.
  destruct (@CrossReferences_never_writes_nil_map Scenario.collaborators 0
              Scenario.crossReferencesRequest (freshWorld Scenario.crossReferenced))
    as [_ Hok].
  destruct (@CrossReferences Scenario.collaborators 1 Scenario.crossReferencesRequest
              (freshWorld Scenario.crossReferenced)) as [r w'] eqn:Hrun.
  assert (Hr : ∃ x, r = Ok x).
  { apply (f_equal fst) in Hrun. vm_compute in Hrun. subst r. eauto. }
  destruct Hr as [x ->].
  destruct (Hok x w' eq_refl) as (reply & -> & _ & Hfilter & _).
  exists reply, w'. split; [done|]. by apply Hfilter.
Defined.

(** C1, on the code: in scenario S5 [a1] is a definition of [X] and [a2] a
    reference to it, and the node [Y] that [X] generates is not among the
    related nodes, which are none; the map of node facts stays empty. *)
Example CrossReferences_S5_has_no_related_node :
  ∃ reply w' xr,
    @CrossReferences Scenario.collaborators 1 Scenario.crossReferencesRequest
      (freshWorld Scenario.crossReferenced) = (Ok (Some reply), w') ∧
    CrossReferences_ reply !! "kythe:#X" = Some xr ∧
    map ATicket (CDefinition xr) = ["kythe:?path=f#a1"] ∧
    map ATicket (CReference xr) = ["kythe:?path=f#a2"] ∧
    CRelatedNode xr = [] ∧
    XNodes reply = Some ∅.
Proof.
  eexists _, _, _. split; [vm_compute; reflexivity|].
  split; [vm_compute; reflexivity|]. split_and!; reflexivity.
Qed.


(** ** Decorations: anchors under a file-kind location *)

Lemma bind_Ok_eq {A B} (m : M A) (k : A → M B) w a w1 :
  m w = (Ok a, w1) → bind m k w = k a w1.
Proof. unfold bind. by intros ->. Qed.

Lemma mapErr_Ok_eq {A} f (m : M A) w a w' :
  m w = (Ok a, w') → mapErr f m w = (Ok a, w').
Proof. unfold mapErr. by intros ->. Qed.

Section FileKindAnchors.
Context `{Collaborators}.

Lemma Decorations_targets_fold text ticket s e targets : ∀ targetSet refs,
  (foldl (Decorations_targets text ticket s e) (targetSet, refs) targets).2 =
    refs ++ map (referenceOf text ticket s e) targets.
Proof.
  induction targets as [|t ts IH]; intros targetSet refs; simpl.
  - by rewrite app_nil_r.
  - rewrite IH. by rewrite <- app_assoc.
Qed.

Lemma getEdges_Ok node pred w targets w' :
  getEdges node pred w = (Ok targets, w') →
  logged w' = logged w ∧ entries w' = entries w.
Proof.
  unfold getEdges. intros Hg. by apply mapErr_Ok, gsRead_Ok in Hg as [_ ->].
Qed.

(** The reply of [Nodes] for one ticket holds that ticket alone. *)
Lemma Nodes_single ticket filters w reply w' node :
  Nodes (mkNodesRequest [ticket] filters) w = (Ok reply, w') →
  NNodes reply !! ticket = Some node →
  size (NNodes reply) = 1%nat.
Proof.
  intros (_ & _ & _ & Hlook)%Nodes_Ok Hnode.
  assert (Heq : NNodes reply = {[ticket := node]}).
  { apply map_eq. intros t. destruct (decide (t = ticket)) as [->|Hne].
    - by rewrite lookup_singleton_eq.
    - rewrite lookup_singleton_ne by done. rewrite Hlook. simpl.
      rewrite bool_decide_false; [done|].
      intros Hin%elem_of_cons. destruct Hin as [?|Hin]; [done|].
      by apply not_elem_of_nil in Hin. }
  rewrite Heq. apply map_size_singleton.
Qed.

(** The body of the loop under a file-kind location: a child that is an
    anchor with integer [loc/start] and [loc/end] contributes one
    reference for each of its forward edges other than [childof],
    whatever the order of the two offsets and the length of the text:
    the points of each reference are the normalizer's points for the two
    offsets, and nothing is logged but the absence of such edges. *)
Lemma Decorations_child_file_kind req text loc patterns
    targetSet replyNodes refs edge w nreply w1 node s e targets w2 :
  LKind loc = Location_FILE →
  Nodes (mkNodesRequest [ToString (ETarget edge)] []) w = (Ok nreply, w1) →
  NNodes nreply !! ToString (ETarget edge) = Some node →
  factOr node facts.NodeKind = nodes.Anchor →
  Atoi (factOr node facts.AnchorStart) = Some s →
  Atoi (factOr node facts.AnchorEnd) = Some e →
  getEdges (ETarget edge) forwardNotChildOf w1 = (Ok targets, w2) →
  ∃ targetSet' replyNodes' w',
    Decorations_child req text loc patterns (targetSet, replyNodes, refs) edge w
      = (Ok (targetSet', replyNodes',
             refs ++ map (referenceOf text (ToString (ETarget edge)) s e) targets), w') ∧
    logged w' =
      (if targets is [] then [LogMissingForward (ETarget edge)] else []) ++ logged w.
Proof.
  intros Hkind Hnodes Hnode Hanchor Hs He Hedges.
  pose proof (Nodes_single _ _ _ _ _ _ Hnodes Hnode) as Hsize.
  apply Nodes_Ok in Hnodes as Hn. destruct Hn as (_ & Hlog1 & _).
  apply getEdges_Ok in Hedges as Hg. destruct Hg as [Hlog2 _].
  unfold Decorations_child.
  rewrite (bind_Ok_eq _ _ _ _ _ (mapErr_Ok_eq _ _ _ _ _ Hnodes)).
  rewrite Hsize, Hnode, Hanchor, Hs, He. simpl.
  rewrite Hkind. rewrite bool_decide_false by done.
  rewrite (bind_Ok_eq _ _ _ _ _ (mapErr_Ok_eq _ _ _ _ _ Hedges)).
  destruct targets as [|t ts].
  - simpl. eexists _, _, _. split; [rewrite app_nil_r; reflexivity|]. simpl.
    by rewrite Hlog2, Hlog1.
  - cbn [length Nat.eqb].
    pose proof (Decorations_targets_fold text (ToString (ETarget edge)) s e
                  (t :: ts) targetSet refs) as Hfold.
    destruct (foldl _ (targetSet, refs) (t :: ts)) as [targetSet' refs'].
    simpl in Hfold. subst refs'.
    eexists _, _, _. split; [reflexivity|]. simpl. by rewrite Hlog2, Hlog1.
Qed.

(** Under a span-kind location the same anchor is dropped when it is
    outside the window, and dropped with a log line when its start is
    after its end. *)
Lemma Decorations_child_span_kind req text loc patterns st edge w nreply w1 node s e :
  LKind loc = Location_SPAN →
  Nodes (mkNodesRequest [ToString (ETarget edge)] []) w = (Ok nreply, w1) →
  NNodes nreply !! ToString (ETarget edge) = Some node →
  factOr node facts.NodeKind = nodes.Anchor →
  Atoi (factOr node facts.AnchorStart) = Some s →
  Atoi (factOr node facts.AnchorEnd) = Some e →
  InSpanBounds (DSpanKind req) (int32 s) (int32 e) (ByteOffset (LStart loc))
               (ByteOffset (LEnd loc)) = false ∨ e < s →
  ∃ w', Decorations_child req text loc patterns st edge w = (Ok st, w').
Proof.
  intros Hkind Hnodes Hnode Hanchor Hs He Hskip.
  pose proof (Nodes_single _ _ _ _ _ _ Hnodes Hnode) as Hsize.
  unfold Decorations_child. destruct st as [[targetSet replyNodes] refs].
  rewrite (bind_Ok_eq _ _ _ _ _ (mapErr_Ok_eq _ _ _ _ _ Hnodes)).
  rewrite Hsize, Hnode, Hanchor, Hs, He. simpl.
  rewrite Hkind. rewrite bool_decide_true by done.
  destruct (InSpanBounds _ _ _ _ _) eqn:Hin; simpl; [|eauto].
  destruct Hskip as [?|Hlt]; [done|].
  assert (Hgt : (s >? e) = true) by lia. rewrite Hgt. simpl. eauto.
Qed.

End FileKindAnchors.

Lemma Decorations_child_file_kind_witness :
  ∃ targetSet' replyNodes' w',
    @Decorations_child Scenario.collaborators Scenario.decorationsRequest
      ("abc" +:+ Scenario.newline +:+ "def" +:+ Scenario.newline)
      Scenario.wholeFile [] (∅, ∅, [])
      (mkEdgeTarget "/kythe/edge/childof" Scenario.a3 0)
      (freshWorld Scenario.inverted)
    = (Ok (targetSet', replyNodes',
           [mkReference "kythe:?path=f#a3" "/kythe/edge/ref" "kythe:#t1"
                        (mkPoint 8 3 0) (mkPoint 2 1 2)]), w') ∧
    logged w' = [].
Proof.
  destruct (@Decorations_child_file_kind Scenario.collaborators
              Scenario.decorationsRequest
              ("abc" +:+ Scenario.newline +:+ "def" +:+ Scenario.newline)
              Scenario.wholeFile [] ∅ ∅ []
              (mkEdgeTarget "/kythe/edge/childof" Scenario.a3 0)
              (freshWorld Scenario.inverted)
              _ _ _ 9 2 _ _
              eq_refl ltac:(vm_compute; reflexivity) ltac:(vm_compute; reflexivity)
              ltac:(vm_compute; reflexivity) ltac:(vm_compute; reflexivity)
              ltac:(vm_compute; reflexivity) ltac:(vm_compute; reflexivity))
    as (targetSet' & replyNodes' & w' & Hrun & Hlog).
  exists targetSet', replyNodes', w'. split; [exact Hrun|exact Hlog].
Defined.

(** The whole query on that store: the anchor with start 9 and end 2 in
    a text of 8 bytes is kept, with its start clamped to the end of the
    text, and nothing is logged. *)
Example Decorations_keeps_inverted_anchor :
  let r := @Decorations Scenario.collaborators Scenario.decorationsRequest
             (freshWorld Scenario.inverted) in
  (match r.1 with
   | Ok reply => map (λ x, (AnchorStart x, AnchorEnd x)) (RReference reply)
   | _ => []
   end) = [(mkPoint 8 3 0, mkPoint 2 1 2)] ∧
  logged r.2 = [].
Proof. vm_compute. split; reflexivity. Qed.

(** ** Anchor completion: empty spans *)

Section AnchorCompletion.
Context `{Collaborators}.

Lemma getSpan_inr info startFact endFact s e :
  getSpan info startFact endFact = inr (s, e) →
  Atoi (factOr info startFact) = Some s ∧ Atoi (factOr info endFact) = Some e.
Proof.
  unfold getSpan. destruct (_ || _); [discriminate|].
  destruct (Atoi (factOr info startFact)); [|discriminate].
  destruct (Atoi (factOr info endFact)); [|discriminate].
  destruct (_ >? _); [discriminate|]. by intros [= -> ->].
Qed.

Lemma getSpan_missing info startFact endFact :
  info !! startFact = None →
  getSpan info startFact endFact = inl (EMsg "missing location facts").
Proof. unfold getSpan, factOr. by intros ->. Qed.

Lemma decodeSlice_Ok file lo hi l w s w' :
  decodeSlice file lo hi l w = (Ok s, w') →
  ∃ bytes, slice (text file) lo hi = Some bytes ∧
           s = (ToUTF8 (encoding file) bytes).1.
Proof.
  unfold decodeSlice, sliceM. intros Hd.
  apply bind_Ok in Hd as (bytes & w1 & Hs & Hd).
  destruct (slice (text file) lo hi) as [b|]; [|discriminate]. inv_ok.
  exists bytes. split; [done|].
  destruct (ToUTF8 (encoding file) bytes) as [decoded [err|]]; by inv_ok.
Qed.

(** The file cache only grows, and holds the file of the anchor at hand. *)
Lemma fileNode_cached (files : gmap string fileNode) parent w file files1 w1 :
  (match files !! parent with
   | Some file => ret (file, files)
   | None =>
       let* rsp := mapErr (EWrap ("fetching file contents for " +:+ parent))
         (Nodes (mkNodesRequest [parent] [])) in
       match NNodes rsp !! parent with
       | None => panic NilDereference
       | Some info =>
           let file := mkFileNode (factOr info facts.Text)
                                  (factOr info facts.TextEncoding) in
           ret (file, <[parent := file]> files)
       end
   end) w = (Ok (file, files1), w1) →
  files ⊆ files1 ∧ files1 !! parent = Some file.
Proof.
  destruct (files !! parent) as [f|] eqn:Hl; intros Hf.
  - by inv_ok.
  - apply bind_Ok in Hf as (rsp & w2 & _ & Hf).
    destruct (NNodes rsp !! parent); [|discriminate]. cbv zeta in Hf. inv_ok.
    split; [by apply insert_subseteq|apply lookup_insert_eq].
Qed.

Lemma completeAnchors_anchor_Ok edgeKind parents replyNodes files result
    ticket info w files' result' w' :
  replyNodes !! ticket = Some info →
  completeAnchors_anchor true edgeKind parents replyNodes (files, result)
                         (ticket, info) w = (Ok (files', result'), w') →
  files ⊆ files' ∧
  (result' = result ∨
   ∃ a, result' = result ++ [a] ∧ ATicket a = ticket ∧
        completedAs replyNodes files' a).
Proof.
  intros Hinfo Hrun. unfold completeAnchors_anchor in Hrun.
  destruct (getSpan info facts.AnchorStart facts.AnchorEnd) as [err|[s e]] eqn:Hspan.
  { inv_ok. unfold logLine in *. inv_ok. auto. }
  apply getSpan_inr in Hspan as [Hs He].
  apply bind_Ok in Hrun as ([file files1] & w1 & Hfile & Hrun).
  apply fileNode_cached in Hfile as [Hsub Hfile].
  unfold normalizeSpan in Hrun.
  destruct (negb (ByteOffset (normByteOffset (text file) (int32 s)) =? int32 s)) eqn:Hns.
  { inv_ok. auto. }
  destruct (negb (ByteOffset (normByteOffset (text file) (int32 e)) =? int32 e)) eqn:Hne.
  { inv_ok. auto. }
  apply negb_false_iff, Z.eqb_eq in Hns, Hne.
  apply bind_Ok in Hrun as (aText & w2 & Htext & Hrun).
  apply bind_Ok in Hrun as ([[snippet snipStart] snipEnd] & w3 & Hsnip & Hrun).
  apply bind_Ok in Hrun as ([[snippet' snipStart'] snipEnd'] & w4 & Hline & Hrun).
  inv_ok. split; [done|]. right. eexists. split; [reflexivity|]. split; [done|].
  exists info, file. simpl. split_and!; [done..|].
  intros (Heq & Hnostart & Hnoend).
  assert (s = e) as -> by congruence.
  rewrite Z.ltb_irrefl in Htext. simpl in Htext. inv_ok.
  split; [done|].
  rewrite Hinfo, (getSpan_missing _ _ _ Hnostart) in Hsnip. inv_ok.
  simpl in Hline. apply bind_Ok in Hline as (decoded & w5 & Hdec & Hline). inv_ok.
  apply decodeSlice_Ok in Hdec as (bytes & Hslice & ->).
  exists bytes. simpl. by split.
Qed.

Lemma completedAs_weaken replyNodes (files files' : gmap string fileNode) a :
  files ⊆ files' → completedAs replyNodes files a → completedAs replyNodes files' a.
Proof.
  intros Hsub (info & file & Hinfo & Hfile & Hprop).
  exists info, file. split_and!; [done| |done].
  by eapply lookup_weaken.
Qed.

Lemma completeAnchors_anchor_fold edgeKind parents replyNodes nodes :
  ∀ files result w files' result' w',
  Forall (λ n, replyNodes !! n.1 = Some n.2) nodes →
  foldM (completeAnchors_anchor true edgeKind parents replyNodes) nodes
        (files, result) w = (Ok (files', result'), w') →
  files ⊆ files' ∧
  ∃ new, result' = result ++ new ∧ Forall (completedAs replyNodes files') new.
Proof.
  induction nodes as [|[ticket info] nodes IH];
    intros files result w files' result' w' Hall Hf; simpl in Hf.
  - inv_ok. split; [done|]. exists []. by rewrite app_nil_r.
  - apply Forall_cons in Hall as [Hinfo Hall]. simpl in Hinfo.
    apply bind_Ok in Hf as ([files1 result1] & w1 & Hstep & Hf).
    apply completeAnchors_anchor_Ok in Hstep as [Hsub Hstep]; [|done].
    apply IH in Hf as (Hsub' & new & -> & Hnew); [|done].
    split; [by etrans|].
    destruct Hstep as [->|(a & -> & _ & Ha)].
    + by exists new.
    + exists (a :: new). rewrite <- app_assoc. split; [done|].
      constructor; [|done]. by eapply completedAs_weaken.
Qed.

Lemma completeAnchors_parent_fold anchors : ∀ parents w parents' w',
  foldM completeAnchors_parent anchors parents w = (Ok parents', w') → w' = w.
Proof.
  induction anchors as [|a anchors IH]; intros parents w parents' w' Hf; simpl in Hf.
  - by inv_ok.
  - apply bind_Ok in Hf as (p1 & w1 & Hstep & Hf). unfold completeAnchors_parent in Hstep.
    destruct (AnchorFile a); [|discriminate]. inv_ok. by apply IH in Hf.
Qed.

(** C8: with the anchor text requested, an anchor that anchor completion
    returns, whose [loc/start] equals its [loc/end] and which has neither
    snippet fact, has no text, and its snippet is the decoded bytes of its
    file from the start of its line up to the byte before the start of
    the next line. *)
Theorem completeAnchors_empty_span files edgeKind anchors w files' result w'
    reply w1 a info :
  completeAnchors true files edgeKind anchors w = (Ok (files', result), w') →
  Nodes (mkNodesRequest anchors [AnchorLocFilter; SnippetLocFilter]) w
    = (Ok reply, w1) →
  a ∈ result →
  NNodes reply !! ATicket a = Some info →
  emptySpanNoSnippet info →
  AText a = "" ∧
  ∃ file, files' !! AParent a = Some file ∧ lineSnippet file a.
Proof.
  unfold completeAnchors. intros Hrun Hnodes Ha Hinfo Hempty.
  apply bind_Ok in Hrun as (parents & w2 & Hparents & Hrun).
  apply completeAnchors_parent_fold in Hparents as ->.
  apply bind_Ok in Hrun as (reply' & w3 & Hnodes' & Hrun).
  rewrite Hnodes in Hnodes'. inversion Hnodes'; subst reply' w3. clear Hnodes'.
  apply completeAnchors_anchor_fold in Hrun as (_ & new & Hres & Hall).
  - simpl in Hres. subst new. rewrite Forall_forall in Hall.
    destruct (Hall a Ha) as (info' & file & Hinfo' & Hfile & Hprop).
    rewrite Hinfo in Hinfo'. inversion Hinfo'; subst info'.
    destruct (Hprop Hempty) as [Htext Hsnip]. eauto.
  - apply Forall_forall. intros [t i] Hin. by apply elem_of_map_to_list in Hin.
Qed.

End AnchorCompletion.

Lemma completeAnchors_empty_span_witness :
  ∃ a files' w',
    @completeAnchors Scenario.collaborators true ∅ "%/kythe/edge/ref"
      ["kythe:?path=f#a4"] (freshWorld Scenario.emptySpan)
    = (Ok (files', [a]), w') ∧
    AText a = "" ∧
    ∃ file, files' !! AParent a = Some file ∧
            @lineSnippet Scenario.collaborators file a.
Proof.
  eexists _, _, _. split; [vm_compute; reflexivity|].
  eapply (@completeAnchors_empty_span Scenario.collaborators ∅ "%/kythe/edge/ref"
            ["kythe:?path=f#a4"] (freshWorld Scenario.emptySpan)).
  - vm_compute. reflexivity.
  - vm_compute. reflexivity.
  - apply elem_of_cons. by left.
  - vm_compute. reflexivity.
  - split_and!; vm_compute; reflexivity.
Defined.

(** On that store the anchor comes back without text and with the line
    it sits on as its snippet. *)
Example completeAnchors_line_snippet :
  match (@completeAnchors Scenario.collaborators true ∅ "%/kythe/edge/ref"
           ["kythe:?path=f#a4"] (freshWorld Scenario.emptySpan)).1 with
  | Ok (_, [a]) => (AText a, ASnippet a, ASnippetStart a, ASnippetEnd a)
  | _ => ("?", "?", None, None)
  end = ("", "world", Some (mkPoint 6 2 0), Some (mkPoint 11 2 5)).
Proof. vm_compute. reflexivity. Qed.


(** ** The queries return on a store that answers *)

Section Returns.
Context `{Collaborators}.

Lemma gsRead_healthy {S} v k (f : S → Entry → S) s w :
  healthy w →
  ∃ r, gsRead v k f s w = (Ok r, recordCall (CallRead v k) w) ∧
       healthy (recordCall (CallRead v k) w).
Proof.
  intros Hh. unfold gsRead, nextFails. rewrite Hh. eauto.
Qed.

Lemma Nodes_parse_returns tickets : ∀ acc w,
  Forall (λ t, is_Some (ToVName t)) tickets →
  ∃ names, foldM Nodes_parse tickets acc w = (Ok names, w).
Proof.
  induction tickets as [|t ts IH]; intros acc w Hall; simpl; [by eexists|].
  apply Forall_cons in Hall as [[v Hv] Hall].
  unfold bind, Nodes_parse at 1, bind, parseTicket. rewrite Hv. simpl.
  by apply IH.
Qed.

Lemma Nodes_read_returns patterns pairs : ∀ nodes w,
  healthy w →
  ∃ nodes' w', foldM (Nodes_read patterns) pairs nodes w = (Ok nodes', w') ∧
               healthy w'.
Proof.
  induction pairs as [|[t v] pairs IH]; intros nodes w Hh; simpl; [by eexists _, _|].
  unfold bind at 1, Nodes_read at 1.
  destruct (gsRead_healthy v "" (Nodes_visitor patterns) ∅ w Hh) as (facts & Hr & Hh').
  rewrite (bind_Ok_eq _ _ _ _ _ Hr).
  destruct (0 <? size facts)%nat; simpl; by apply IH.
Qed.

(** [Nodes] answers when every ticket is well formed and the store does. *)
Lemma Nodes_returns req w :
  healthy w → Forall (λ t, is_Some (ToVName t)) (NTicket req) →
  ∃ reply w', Nodes req w = (Ok reply, w') ∧ healthy w'.
Proof.
  intros Hh Hall. unfold Nodes.
  destruct (Nodes_parse_returns (NTicket req) [] w Hall) as [names Hp].
  rewrite (bind_Ok_eq _ _ _ _ _ Hp).
  destruct (Nodes_read_returns (ConvertFilters (NFilter req))
              (zip (NTicket req) names) ∅ w Hh) as (nodes & w' & Hr & Hh').
  rewrite (bind_Ok_eq _ _ _ _ _ Hr). by eexists _, _.
Qed.

Lemma Edges_visitor_printed req patterns allowed es : ∀ fe ff,
  (∀ k targets t, fe !! k = Some targets → is_Some (targets !! t) → isPrinted t) →
  ∀ k targets t,
    (foldl (Edges_visitor req patterns allowed) (fe, ff) es).1 !! k = Some targets →
    is_Some (targets !! t) → isPrinted t.
Proof.
  induction es as [|e es IH]; intros fe ff Hfe; cbn [foldl]; [done|].
  destruct (Edges_visitor req patterns allowed (fe, ff) e) as [fe1 ff1] eqn:Hv.
  apply IH. unfold Edges_visitor in Hv.
  case_bool_decide.
  { destruct (_ && _); inversion Hv; by subst. }
  destruct (ParseOrdinal (EdgeKind e)) as [[kind o] b].
  destruct (_ || _); inversion Hv; subst; [|done].
  intros k targets t. destruct (decide (kind = k)) as [->|Hne].
  - rewrite lookup_insert_eq. intros [= <-].
    destruct (decide (ToString (Target e) = t)) as [<-|Hne'].
    + intros _. by eexists.
    + rewrite lookup_insert_ne by done.
      destruct (fe !! k) as [targets0|] eqn:Hk; simpl.
      * by apply (Hfe k).
      * rewrite lookup_empty. by intros [? ?].
  - rewrite lookup_insert_ne by done. apply Hfe.
Qed.

Lemma targetsOf_printed (fe : gmap string (gmap string (gset Z))) t :
  (∀ k targets t, fe !! k = Some targets → is_Some (targets !! t) → isPrinted t) →
  t ∈ targetsOf fe → isPrinted t.
Proof.
  intros Hfe. unfold targetsOf. rewrite elem_of_union_list.
  intros (X & HX & Ht). apply list_elem_of_fmap in HX as ([k targets] & -> & Hin).
  apply elem_of_map_to_list in Hin. apply elem_of_dom in Ht. by apply (Hfe k targets).
Qed.

Lemma Edges_ticket_returns req patterns allowed tickets : ∀ edgeSets nodes targetSet w,
  healthy w → Forall (λ t, is_Some (ToVName t)) tickets →
  (∀ t, t ∈ targetSet → isPrinted t) →
  ∃ edgeSets' nodes' (targetSet' : gset string) w',
    foldM (Edges_ticket req patterns allowed) tickets (edgeSets, nodes, targetSet) w
      = (Ok (edgeSets', nodes', targetSet'), w') ∧
    healthy w' ∧ ∀ t, t ∈ targetSet' → isPrinted t.
Proof.
  induction tickets as [|t0 ts IH]; intros edgeSets nodes targetSet w Hh Hall Hts;
    cbn [foldM].
  { by eexists _, _, _, _. }
  apply Forall_cons in Hall as [[v0 Hv0] Hall].
  unfold bind at 1, Edges_ticket at 1, bind at 1, mapErr at 1, parseTicket.
  rewrite Hv0. simpl. unfold bind at 1, mapErr, gsRead, nextFails. rewrite Hh. simpl.
  match goal with
  | |- context [foldl ?f (∅, ∅) ?l] =>
      pose proof (Edges_visitor_printed req patterns allowed l ∅ ∅) as Hpr;
      destruct (foldl f (∅, ∅) l) as [fe ff]
  end.
  simpl in Hpr.
  assert (Hfe : ∀ k targets t, fe !! k = Some targets → is_Some (targets !! t) →
                               isPrinted t).
  { apply Hpr. intros k targets t. by rewrite lookup_empty. }
  destruct (0 <? size fe)%nat; simpl; apply IH; try done.
  intros t [Ht|Ht]%elem_of_union; [by apply Hts|by apply targetsOf_printed in Ht].
Qed.

(** [Edges] answers when there are tickets, all well formed, no page
    token, the store answers and printed tickets parse back. *)
Lemma Edges_returns req w :
  (∀ v, is_Some (ToVName (ToString v))) →
  healthy w → ETickets req ≠ [] → EPageToken req = "" →
  Forall (λ t, is_Some (ToVName t)) (ETickets req) →
  ∃ reply w', Edges req w = (Ok reply, w') ∧ healthy w'.
Proof.
  intros Hround Hh Hne Htok Hall. unfold Edges.
  destruct (ETickets req) as [|t0 ts] eqn:Ht; [done|]. cbn [length Nat.eqb].
  rewrite Htok, bool_decide_true by done. cbn [negb].
  destruct (Edges_ticket_returns req (ConvertFilters (EFilter req))
              (list_to_set (EKind req)) (t0 :: ts) ∅ ∅ ∅ w Hh Hall)
    as (edgeSets & nodes & targetSet & w1 & Hfold & Hh1 & Hts).
  { intros t Hin. by apply not_elem_of_empty in Hin. }
  rewrite (bind_Ok_eq _ _ _ _ _ Hfold).
  destruct (0 <? length (EFilter req))%nat; [|by eexists _, _].
  match goal with
  | |- context [Nodes ?r] =>
      destruct (Nodes_returns r w1 Hh1) as (nreply & w2 & Hn & Hh2)
  end.
  { apply Forall_forall. intros t Hin. simpl in Hin.
    apply elem_of_elements, elem_of_difference in Hin as [Hin _].
    destruct (Hts t Hin) as [v ->]. apply Hround. }
  rewrite (bind_Ok_eq _ _ _ _ _ (mapErr_Ok_eq _ _ _ _ _ Hn)). by eexists _, _.
Qed.

End Returns.


(** * Further properties of the code *)

(** ** The queries only read *)

Lemma ro_pure {A} (r : outcome A) : readsOnly (λ w, (r, w)).
Proof.
  intros w r' w' [= <- <-]. split; [done|]. exists []. by split.
Qed.

Lemma ro_ret {A} (a : A) : readsOnly (ret a).
Proof. apply ro_pure. Qed.

Lemma ro_fail {A} e : readsOnly (@fail A e).
Proof. apply ro_pure. Qed.

Lemma ro_panic {A} p : readsOnly (@panic A p).
Proof. apply ro_pure. Qed.

Lemma ro_logLine l : readsOnly (logLine l).
Proof.
  intros w r w' [= <- <-]. split; [done|]. exists []. by split.
Qed.

Lemma ro_gsRead {S} v k (f : S → Entry → S) s : readsOnly (gsRead v k f s).
Proof.
  intros w r w'. unfold gsRead.
  destruct (nextFails w); intros [= <- <-]; (split; [done|]);
    exists [CallRead v k]; split; try done; by repeat constructor.
Qed.

Lemma ro_bind {A B} (m : M A) (k : A → M B) :
  readsOnly m → (∀ a, readsOnly (k a)) → readsOnly (bind m k).
Proof.
  intros Hm Hk w r w'. unfold bind. specialize (Hm w).
  destruct (m w) as [[a|e|p] w1]; destruct (Hm _ _ eq_refl) as (He & new & Hc & Hr).
  - intros Hka. destruct (Hk a _ _ _ Hka) as (He' & new' & Hc' & Hr').
    split; [congruence|]. exists (new' ++ new).
    rewrite Hc', Hc, app_assoc. split; [done|]. by apply Forall_app.
  - intros [= <- <-]. eauto.
  - intros [= <- <-]. eauto.
Qed.

Lemma ro_mapErr {A} f (m : M A) : readsOnly m → readsOnly (mapErr f m).
Proof.
  intros Hm w r w'. unfold mapErr. specialize (Hm w).
  destruct (m w) as [[a|e|p] w1]; destruct (Hm _ _ eq_refl) as (He & new & Hc & Hr);
    intros [= <- <-]; eauto.
Qed.

Lemma ro_foldM {A S} (f : S → A → M S) l :
  (∀ s a, readsOnly (f s a)) → ∀ s, readsOnly (foldM f l s).
Proof.
  intros Hf. induction l as [|a l IH]; intros s; simpl.
  - apply ro_ret.
  - apply ro_bind; [apply Hf|apply IH].
Qed.

Lemma ro_sliceM b lo hi : readsOnly (sliceM b lo hi).
Proof. unfold sliceM. destruct (slice b lo hi); [apply ro_ret|apply ro_panic]. Qed.

Ltac ro_step :=
  first
    [ apply ro_ret | apply ro_fail | apply ro_logLine | apply ro_gsRead
    | apply ro_sliceM | apply ro_panic
    | apply ro_mapErr | apply ro_bind; [|intros ?] | apply ro_foldM; intros ? ?
    | match goal with
      | |- readsOnly (if ?c then _ else _) => destruct c
      | |- readsOnly (match ?c with _ => _ end) => destruct c
      | |- readsOnly (let (_, _) := ?c in _) => destruct c
      end ].

Section ReadOnly.
Context `{Collaborators}.

Lemma ro_Nodes req : readsOnly (Nodes req).
Proof. unfold Nodes, Nodes_parse, Nodes_read, parseTicket. repeat ro_step. Qed.

Lemma ro_Edges req : readsOnly (Edges req).
Proof.
  unfold Edges, Edges_ticket, parseTicket. repeat first [apply ro_Nodes | ro_step].
Qed.

Lemma ro_Decorations req : readsOnly (Decorations req).
Proof.
  unfold Decorations, Decorations_child, getSourceText, getEdges, parseTicket.
  repeat first [apply ro_Nodes | ro_step].
Qed.

Lemma ro_completeAnchors retrieveText files edgeKind anchors :
  readsOnly (completeAnchors retrieveText files edgeKind anchors).
Proof.
  unfold completeAnchors, completeAnchors_anchor, completeAnchors_parent, decodeSlice.
  repeat first [apply ro_Nodes | ro_step].
Qed.

Lemma ro_CrossReferences_pages req size fuel : ∀ eReply st token,
  readsOnly (CrossReferences_pages fuel req size eReply st token).
Proof.
  induction fuel as [|fuel IH]; intros eReply st token; simpl.
  - apply ro_ret.
  - unfold CrossReferences_source, CrossReferences_group.
    repeat first [apply ro_completeAnchors | apply ro_Edges | apply IH | ro_step].
Qed.

Lemma ro_CrossReferences fuel req : readsOnly (CrossReferences fuel req).
Proof.
  unfold CrossReferences, mergeNodes.
  repeat first [apply ro_CrossReferences_pages | apply ro_Edges | apply ro_Nodes
               | ro_step].
Qed.

(** X1: none of the four queries writes to the store or scans it:
    whatever a query returns, be it a reply, an error or a panic, the
    content of the store is as before and every store call the query
    made is a [Read]. *)
Theorem queries_only_read :
  (∀ req, readsOnly (Nodes req)) ∧
  (∀ req, readsOnly (Edges req)) ∧
  (∀ req, readsOnly (Decorations req)) ∧
  (∀ fuel req, readsOnly (CrossReferences fuel req)).
Proof.
  split_and!.
  - apply ro_Nodes.
  - apply ro_Edges.
  - apply ro_Decorations.
  - apply ro_CrossReferences.
Qed.

End ReadOnly.


(** ** The bootstrap: when it writes and what it logs *)

Lemma found_any (l : list Entry) :
  foldl (λ (_ : bool) (_ : Entry), true) false l = negb (bool_decide (l = [])).
Proof.
  destruct l as [|e l]; [done|]. simpl. generalize l. clear.
  induction l as [|e l IH]; [done|]. apply IH.
Qed.

(** X2: on a store without edges, if the store answers the scan,
    [EnsureReverseEdges] succeeds after that one scan: it writes nothing
    and logs that no edges were found. *)
Theorem EnsureReverseEdges_no_edges w :
  sampledEdge (entries w) = None → nextFails w = false →
  EnsureReverseEdges w =
    (Ok tt, mkWorld (entries w) (CallScan :: calls w) (LogNoEdges :: logged w)
                    (faulty w)).
Proof.
  intros Hnone Hf. unfold EnsureReverseEdges, bind at 1, gsScan.
  rewrite Hf, firstEdge_scan, Hnone. reflexivity.
Qed.

Lemma EnsureReverseEdges_no_edges_witness :
  sampledEdge (entries (freshWorld [Scenario.fact Scenario.A "/kythe/node/kind" "anchor"]))
    = None ∧
  EnsureReverseEdges (freshWorld [Scenario.fact Scenario.A "/kythe/node/kind" "anchor"])
  = (Ok tt, mkWorld [Scenario.fact Scenario.A "/kythe/node/kind" "anchor"]
                    [CallScan] [LogNoEdges] (λ _, false)).
Proof.
  split; [reflexivity|].
  apply (EnsureReverseEdges_no_edges
           (freshWorld [Scenario.fact Scenario.A "/kythe/node/kind" "anchor"]));
    reflexivity.
Defined.

(** X3: unless the sampled edge is a forward edge without a reverse at
    its target, [EnsureReverseEdges] changes nothing: whatever it returns,
    the content of the store is as before and no call it made is a
    [Write]. *)
Theorem EnsureReverseEdges_writes_only_when_uncovered w r w' :
  sample_uncovered (entries w) = false →
  EnsureReverseEdges w = (r, w') →
  entries w' = entries w ∧
  ∃ new, calls w' = new ++ calls w ∧ Forall (λ c, isWrite c = false) new.
Proof.
  unfold sample_uncovered, EnsureReverseEdges, bind at 1, gsScan.
  intros Hs. destruct (nextFails w).
  { intros [= <- <-]. split; [done|]. exists [CallScan]. split; [done|].
    by repeat constructor. }
  rewrite firstEdge_scan. destruct (sampledEdge (entries w)) as [e0|].
  - unfold edges.IsForward in Hs. destruct (edges.IsReverse (EdgeKind e0)).
    + intros [= <- <-]. split; [done|]. exists [CallScan]. split; [done|].
      by repeat constructor.
    + simpl in Hs. apply bool_decide_eq_false in Hs.
      unfold bind, mapErr, gsRead. destruct (nextFails _).
      * intros [= <- <-]. split; [done|]. eexists [_; _]. split; [done|].
        by repeat constructor.
      * simpl. rewrite found_any, bool_decide_false by done. simpl.
        intros [= <- <-]. split; [done|]. eexists [_; _]. split; [done|].
        by repeat constructor.
  - intros [= <- <-]. split; [done|]. exists [CallScan]. split; [done|].
    by repeat constructor.
Qed.

Lemma EnsureReverseEdges_writes_only_witness :
  sample_uncovered (entries (freshWorld Scenario.partial)) = false ∧
  entries (EnsureReverseEdges (freshWorld Scenario.partial)).2 = Scenario.partial.
Proof.
  split; [reflexivity|].
  destruct (EnsureReverseEdges (freshWorld Scenario.partial)) as [r w'] eqn:Hrun.
  by destruct (EnsureReverseEdges_writes_only_when_uncovered
                 (freshWorld Scenario.partial) r w' eq_refl Hrun) as [He _].
Defined.

Lemma closed_sample_covered es :
  reverse_closed es → sample_uncovered es = false.
Proof.
  intros Hclosed. unfold sample_uncovered.
  destruct (sampledEdge es) as [e0|] eqn:Hs; [|done].
  destruct (edges.IsForward (EdgeKind e0)) eqn:Hfw; [|done]. simpl.
  apply bool_decide_eq_false. intros Hnil.
  assert (Hin : e0 ∈ es ∧ IsEdge e0 = true).
  { clear -Hs. induction es as [|e es IH]; [done|]. simpl in Hs.
    destruct (IsEdge e) eqn:He.
    - inversion Hs; subst. split; [apply elem_of_cons; auto|done].
    - destruct (IH Hs). split; [apply elem_of_cons; auto|done]. }
  destruct Hin as [Hin Hedge].
  assert (Hrev : reverseOf e0 ∈ es).
  { apply Hclosed; [done|]. unfold isForwardEdge. by rewrite Hedge, Hfw. }
  assert (Hm : reverseOf e0 ∈
                 filter (λ e, readMatches (Target e0) (edges.Mirror (EdgeKind e0)) e = true) es).
  { apply list_elem_of_filter. split; [|done]. unfold readMatches. simpl.
    rewrite bool_decide_true by done. simpl.
    rewrite bool_decide_false by by apply Mirror_forward_not_star.
    by rewrite bool_decide_true. }
  rewrite Hnil in Hm. by apply not_elem_of_nil in Hm.
Qed.

(** X4: on a store in which every forward edge already has its reverse,
    and which answers, [EnsureReverseEdges] succeeds and leaves the
    content of the store as it is: a second bootstrap is harmless. *)
Theorem EnsureReverseEdges_keeps_closed_store w :
  reverse_closed (entries w) → healthy w →
  ∃ w', EnsureReverseEdges w = (Ok tt, w') ∧ entries w' = entries w.
Proof.
  intros Hs%closed_sample_covered Hh. revert Hs.
  unfold sample_uncovered, EnsureReverseEdges, bind at 1, gsScan, nextFails.
  rewrite Hh, firstEdge_scan. destruct (sampledEdge (entries w)) as [e0|].
  - unfold edges.IsForward. destruct (edges.IsReverse (EdgeKind e0)); [by eexists|].
    simpl. intros Hs%bool_decide_eq_false.
    unfold bind, mapErr, gsRead, nextFails. simpl. rewrite Hh. simpl.
    rewrite found_any, bool_decide_false by done. simpl. by eexists.
  - intros _. by eexists.
Qed.

Lemma reverse_closed_after_S2 :
  reverse_closed
    (Scenario.forwardOnly ++ [Scenario.edge Scenario.F "%/kythe/edge/childof" Scenario.A]).
Proof.
  intros e He Hfw. apply list_elem_of_In in He. simpl in He.
  destruct He as [<-|[<-|[<-|[]]]]; try discriminate Hfw.
  apply list_elem_of_In. simpl. auto.
Qed.

Lemma EnsureReverseEdges_keeps_closed_witness :
  ∃ w', EnsureReverseEdges
          (freshWorld (Scenario.forwardOnly ++
                       [Scenario.edge Scenario.F "%/kythe/edge/childof" Scenario.A]))
        = (Ok tt, w') ∧
        entries w' = Scenario.forwardOnly ++
                     [Scenario.edge Scenario.F "%/kythe/edge/childof" Scenario.A].
Proof.
  apply (EnsureReverseEdges_keeps_closed_store
           (freshWorld (Scenario.forwardOnly ++
                        [Scenario.edge Scenario.F "%/kythe/edge/childof" Scenario.A]))).
  - apply reverse_closed_after_S2.
  - intros n. reflexivity.
Defined.

Lemma addReverseEdges_visit_any es : ∀ t a w r w',
  visitAll addReverseEdges_visitor es (t, a) w = (r, w') →
  ∃ dt da err,
    r = Ok ((t + dt, a + da)%nat, err) ∧
    logged w' = logged w ∧
    length (entries w') = (length (entries w) + da)%nat ∧
    (da ≤ dt)%nat ∧ (dt ≤ length es)%nat ∧
    (err = None →
       dt = length es ∧ da = length (filter (λ e, isForwardEdge e = true) es)).
Proof.
  induction es as [|e es IH]; intros t a w r w' Hv; simpl in Hv.
  { inversion Hv; subst. exists 0%nat, 0%nat, None.
    rewrite !Nat.add_0_r. split_and!; try done. }
  unfold bind at 1, addReverseEdges_visitor at 1 in Hv.
  change (negb (bool_decide (EdgeKind e = "")) && edges.IsForward (EdgeKind e))
    with (isForwardEdge e) in Hv.
  rewrite filter_cons. destruct (isForwardEdge e) eqn:Hfw.
  - unfold bind at 1, tryM, gsWrite in Hv. destruct (nextFails w).
    + simpl in Hv. inversion Hv; subst. exists 0%nat, 0%nat, (Some (EWrap "Failed to write reverse edge" EStore)).
      rewrite !Nat.add_0_r. split_and!; try done. simpl. lia.
    + simpl in Hv. apply IH in Hv as (dt & da & err & -> & Hl & Hlen & Hle & Hdt & Herr).
      exists (S dt), (S da), err. simpl in *.
      rewrite length_app in Hlen. simpl in Hlen.
      split_and!; try done; try lia.
      * f_equal. f_equal. f_equal; lia.
      * intros He. by destruct (Herr He) as [-> ->].
  - simpl in Hv. apply IH in Hv as (dt & da & err & -> & Hl & Hlen & Hle & Hdt & Herr).
    exists (S dt), da, err. simpl in *.
    split_and!; try done; try lia.
    + f_equal. f_equal. f_equal. lia.
    + intros He. by destruct (Herr He) as [-> ->].
Qed.

(** X5: whether the writing of reverse edges succeeds or fails half way,
    it logs its totals and never panics, and the number of added edges it
    logs is the number of entries it appended to the store; on success it
    has counted every entry and added one edge for each forward edge. *)
Theorem addReverseEdges_logs_what_it_wrote w r w' :
  addReverseEdges w = (r, w') →
  ∃ added total,
    logged w' = LogWroteReverse added total :: LogAddingReverse :: logged w ∧
    length (entries w') = (length (entries w) + added)%nat ∧
    (added ≤ total)%nat ∧ (total ≤ length (entries w))%nat ∧
    (∀ p, r ≠ Panic p) ∧
    (r = Ok tt →
       total = length (entries w) ∧
       added = length (filter (λ e, isForwardEdge e = true) (entries w))).
Proof.
  unfold addReverseEdges, bind at 1, logLine at 1, bind at 1, gsScan, nextFails.
  cbn [calls faulty entries].
  destruct (faulty w (length (calls w))).
  - simpl. intros [= <- <-]. exists 0%nat, 0%nat. simpl.
    split_and!; try done; lia.
  - destruct (visitAll _ _ _ _) as [r1 w1] eqn:Hv.
    apply addReverseEdges_visit_any in Hv
      as (dt & da & err & -> & Hl & Hlen & Hle & Hdt & Herr).
    simpl in *. destruct err as [e|]; intros [= <- <-]; exists da, dt; simpl;
      rewrite Hl; split_and!; try done.
    intros _. by apply Herr.
Qed.

Lemma addReverseEdges_logs_witness :
  ∃ added total,
    logged (addReverseEdges (freshWorld Scenario.forwardOnly)).2
      = [LogWroteReverse added total; LogAddingReverse] ∧
    length (entries (addReverseEdges (freshWorld Scenario.forwardOnly)).2)
      = (length Scenario.forwardOnly + added)%nat.
Proof.
  destruct (addReverseEdges (freshWorld Scenario.forwardOnly)) as [r w'] eqn:Hrun.
  destruct (addReverseEdges_logs_what_it_wrote _ _ _ Hrun)
    as (added & total & Hlog & Hlen & _).
  exists added, total. by split.
Defined.

(** ** Nodes and Edges: more on the replies *)

Section MoreReplies.
Context `{Collaborators}.

(** X6: the reply of [Nodes] depends on the set of requested tickets
    only: the order of the tickets and their repetition make no
    difference to the nodes returned. *)
Theorem Nodes_ignores_order_and_repetition req1 req2 w1 w2 r1 r2 w1' w2' :
  NFilter req1 = NFilter req2 →
  (∀ t, t ∈ NTicket req1 ↔ t ∈ NTicket req2) →
  entries w1 = entries w2 →
  Nodes req1 w1 = (Ok r1, w1') → Nodes req2 w2 = (Ok r2, w2') →
  NNodes r1 = NNodes r2.
Proof.
  intros Hf Ht He (_ & _ & _ & Hl1)%Nodes_Ok (_ & _ & _ & Hl2)%Nodes_Ok.
  apply map_eq. intros t. rewrite Hl1, Hl2, Hf, He.
  by rewrite (bool_decide_ext _ _ (Ht t)).
Qed.

Lemma Edges_visitor_no_patterns req allowed es : ∀ fe ff,
  (foldl (Edges_visitor req [] allowed) (fe, ff) es).2 = ff.
Proof.
  induction es as [|e es IH]; intros fe ff; cbn [foldl]; [done|].
  destruct (Edges_visitor req [] allowed (fe, ff) e) as [fe1 ff1] eqn:Hv.
  rewrite IH. unfold Edges_visitor in Hv. simpl in Hv.
  case_bool_decide; [by inversion Hv|].
  destruct (ParseOrdinal (EdgeKind e)) as [[k o] b].
  destruct (_ || _); by inversion Hv.
Qed.

Lemma Edges_ticket_no_patterns req allowed tickets : ∀ edgeSets nodes targetSet w st' w',
  foldM (Edges_ticket req [] allowed) tickets (edgeSets, nodes, targetSet) w
    = (Ok st', w') →
  st'.1.2 = nodes.
Proof.
  induction tickets as [|t0 ts IH]; intros edgeSets nodes targetSet w st' w' Hf;
    simpl in Hf.
  - by inv_ok.
  - apply bind_Ok in Hf as ([[es1 ns1] ts1] & w1 & Hstep & Hf).
    apply IH in Hf. rewrite Hf. unfold Edges_ticket in Hstep.
    apply bind_Ok in Hstep as (v0 & w2 & _ & Hstep).
    apply bind_Ok in Hstep as ([fe ff] & w3 & Hread & Hstep).
    apply mapErr_Ok, gsRead_Ok in Hread as [Hr _].
    apply (f_equal snd) in Hr. rewrite Edges_visitor_no_patterns in Hr.
    simpl in Hr. subst ff. rewrite map_size_empty in Hstep. simpl in Hstep.
    destruct (0 <? size fe)%nat; by inv_ok.
Qed.

(** X7: without a fact filter, the reply of [Edges] carries no node
    facts at all, neither of the sources nor of the targets. *)
Theorem Edges_without_filter_has_no_nodes req w reply w' :
  EFilter req = [] →
  Edges req w = (Ok reply, w') →
  ENodes reply = ∅.
Proof.
  intros Hf. unfold Edges. rewrite Hf. intros He. case_ok He. case_ok He.
  apply bind_Ok in He as ([[es ns] ts] & w1 & Hfold & He).
  apply Edges_ticket_no_patterns in Hfold. simpl in *. by inv_ok.
Qed.

End MoreReplies.

Lemma Nodes_ignores_order_witness :
  ∃ r1 r2 w1 w2,
    @Nodes Scenario.collaborators
      (mkNodesRequest ["kythe:#t1"; "kythe:?path=f#a1"] [])
      (freshWorld Scenario.decorated) = (Ok r1, w1) ∧
    @Nodes Scenario.collaborators
      (mkNodesRequest ["kythe:?path=f#a1"; "kythe:#t1"; "kythe:?path=f#a1"] [])
      (freshWorld Scenario.decorated) = (Ok r2, w2) ∧
    NNodes r1 = NNodes r2.
Proof.
  eexists _, _, _, _. split; [vm_compute; reflexivity|].
  split; [vm_compute; reflexivity|].
  eapply (@Nodes_ignores_order_and_repetition Scenario.collaborators
            (mkNodesRequest ["kythe:#t1"; "kythe:?path=f#a1"] [])
            (mkNodesRequest ["kythe:?path=f#a1"; "kythe:#t1"; "kythe:?path=f#a1"] [])
            (freshWorld Scenario.decorated) (freshWorld Scenario.decorated));
    [reflexivity| |reflexivity|vm_compute; reflexivity|vm_compute; reflexivity].
  intros t. simpl. rewrite !elem_of_cons. tauto.
Defined.

Lemma Edges_without_filter_witness :
  ∃ reply w',
    @Edges Scenario.collaborators
      (mkEdgesRequest ["kythe:#t1"] [] [] 0 "") (freshWorld Scenario.decorated)
    = (Ok reply, w') ∧ ENodes reply = ∅.
Proof.
  eexists _, _. split; [vm_compute; reflexivity|].
  eapply (@Edges_without_filter_has_no_nodes Scenario.collaborators
            (mkEdgesRequest ["kythe:#t1"] [] [] 0 "") (freshWorld Scenario.decorated));
    [reflexivity|vm_compute; reflexivity].
Defined.

(** ** Edges: the groups of an edge set *)

Section EdgeGroups.
Context `{Collaborators}.

Lemma hasOrdinal_insert (fe : gmap string (gmap string (gset Z))) k0 t0 o0 k t o :
  hasOrdinal
    (<[k0 := <[t0 := {[o0]} ∪ default ∅ (default ∅ (fe !! k0) !! t0)]>
               (default ∅ (fe !! k0))]> fe) k t o ↔
  hasOrdinal fe k t o ∨ (k = k0 ∧ t = t0 ∧ o = o0).
Proof.
  unfold hasOrdinal. destruct (decide (k = k0)) as [->|Hk].
  - rewrite lookup_insert_eq. destruct (decide (t = t0)) as [->|Ht].
    + split.
      * intros (targets & ords & [= <-] & Hl & Ho). rewrite lookup_insert_eq in Hl.
        inversion Hl; subst ords. apply elem_of_union in Ho as [Ho|Ho].
        -- apply elem_of_singleton in Ho. auto.
        -- left. destruct (fe !! k0) as [targets|] eqn:Hk0; simpl in Ho.
           ++ destruct (targets !! t0) as [ords|] eqn:Ht0; simpl in Ho.
              ** eauto.
              ** by apply not_elem_of_empty in Ho.
           ++ rewrite lookup_empty in Ho. by apply not_elem_of_empty in Ho.
      * intros Hor. eexists _, _. split; [done|]. rewrite lookup_insert_eq.
        split; [done|]. apply elem_of_union.
        destruct Hor as [(targets & ords & Hk0 & Ht0 & Ho)|(_ & _ & ->)].
        -- right. rewrite Hk0. simpl. by rewrite Ht0.
        -- left. by apply elem_of_singleton.
    + split.
      * intros (targets & ords & [= <-] & Hl & Ho). rewrite lookup_insert_ne in Hl by done.
        left. destruct (fe !! k0) as [targets|] eqn:Hk0; simpl in Hl; [eauto|].
        by rewrite lookup_empty in Hl.
      * intros [(targets & ords & Hk0 & Ht0 & Ho)|(_ & ? & _)]; [|done].
        eexists _, ords. split; [done|]. rewrite lookup_insert_ne by done.
        by rewrite Hk0.
  - split.
    + intros (targets & ords & Hl & Ht & Ho). rewrite lookup_insert_ne in Hl by done.
      left. eauto.
    + intros [(targets & ords & Hl & Ht & Ho)|(? & _)]; [|done].
      exists targets, ords. by rewrite lookup_insert_ne.
Qed.

Lemma Edges_visitor_hasOrdinal req patterns es k t o : ∀ fe ff,
  hasOrdinal (foldl (Edges_visitor req patterns (list_to_set (EKind req)))
                    (fe, ff) es).1 k t o ↔
  hasOrdinal fe k t o ∨ ∃ e, e ∈ es ∧ emits (EKind req) e k t o.
Proof.
  induction es as [|e es IH]; intros fe ff; cbn [foldl fst].
  { split; [auto|]. intros [?|(e & He & _)]; [done|]. by apply not_elem_of_nil in He. }
  destruct (Edges_visitor req patterns (list_to_set (EKind req)) (fe, ff) e)
    as [fe1 ff1] eqn:Hv.
  rewrite IH. unfold Edges_visitor in Hv.
  assert (Hcons : (∃ e', e' ∈ e :: es ∧ emits (EKind req) e' k t o) ↔
                  emits (EKind req) e k t o ∨ ∃ e', e' ∈ es ∧ emits (EKind req) e' k t o).
  { split.
    - intros (e' & [->|He']%elem_of_cons & HP); eauto.
    - intros [HP|(e' & He' & HP)]; [exists e|exists e']; rewrite elem_of_cons; auto. }
  rewrite Hcons. clear Hcons. unfold emits.
  case_bool_decide as Hk.
  - assert (fe1 = fe) as -> by (destruct (_ && _); by inversion Hv). tauto.
  - destruct (ParseOrdinal (EdgeKind e)) as [[k0 o0] b] eqn:Hp. simpl.
    destruct ((length (EKind req) =? 0)%nat ||
              bool_decide (k0 ∈ (list_to_set (EKind req) : gset string))) eqn:Hallow.
    + inversion Hv; subst. clear Hv. rewrite hasOrdinal_insert.
      assert (Hret : EKind req = [] ∨ k0 ∈ EKind req).
      { apply orb_prop in Hallow as [Hl|Hl].
        - left. apply Nat.eqb_eq in Hl. by destruct (EKind req).
        - right. apply bool_decide_eq_true in Hl. by apply elem_of_list_to_set in Hl. }
      split.
      * intros [[?|(-> & -> & ->)]|?]; auto. right. left. done.
      * intros [?|[(_ & _ & <- & <- & <-)|?]]; auto.
    + inversion Hv; subst. clear Hv.
      apply orb_false_elim in Hallow as [Hl Hm].
      apply Nat.eqb_neq in Hl. apply bool_decide_eq_false in Hm.
      rewrite elem_of_list_to_set in Hm.
      assert (EKind req ≠ []) by (destruct (EKind req); [done|discriminate]).
      split; [tauto|]. intros [?|[(_ & [?|?] & <- & _)|?]]; auto; done.
Qed.

Lemma groupOf_elem (targets : gmap string (gset Z)) t o :
  mkEdge t o ∈ groupOf targets ↔ ∃ ords, targets !! t = Some ords ∧ o ∈ ords.
Proof.
  unfold groupOf. rewrite list_elem_of_In, in_flat_map. split.
  - intros ([t' ords] & Hin & Hx). apply list_elem_of_In, elem_of_map_to_list in Hin.
    apply list_elem_of_In, list_elem_of_fmap in Hx as (o' & [= -> ->] & Ho).
    apply elem_of_elements in Ho. eauto.
  - intros (ords & Hl & Ho). exists (t, ords). split.
    + by apply list_elem_of_In, elem_of_map_to_list.
    + apply list_elem_of_In, list_elem_of_fmap. exists o. split; [done|].
      by apply elem_of_elements.
Qed.

Lemma flat_group_NoDup (l : list (string * gset Z)) :
  NoDup l.*1 →
  NoDup (flat_map (λ '(target, ordinals), map (mkEdge target) (elements ordinals)) l).
Proof.
  induction l as [|[t ords] l IH]; simpl; [constructor|].
  intros [Hnot Hnd]%NoDup_cons. apply NoDup_app. split_and!.
  - assert (Inj (=) (=) (mkEdge t)) by (by intros ?? [=]).
    apply (NoDup_fmap_2 _). apply NoDup_elements.
  - intros x Hx Hx'. apply list_elem_of_fmap in Hx as (o & -> & _).
    apply list_elem_of_In, in_flat_map in Hx' as ([t' ords'] & Hin & Hx').
    apply list_elem_of_In, list_elem_of_fmap in Hx' as (o' & [= <- _] & _).
    apply Hnot. apply list_elem_of_fmap. exists (t, ords'). split; [done|].
    by apply list_elem_of_In.
  - by apply IH.
Qed.

Lemma groupOf_NoDup (targets : gmap string (gset Z)) : NoDup (groupOf targets).
Proof. apply flat_group_NoDup, NoDup_fst_map_to_list. Qed.

Lemma Edges_ticket_fold_groups req tickets : ∀ edgeSets nodes targetSet w st' w' t groups,
  foldM (Edges_ticket req (ConvertFilters (EFilter req)) (list_to_set (EKind req)))
        tickets (edgeSets, nodes, targetSet) w = (Ok st', w') →
  st'.1.1 !! t = Some groups →
  edgeSets !! t = Some groups ∨
  ∃ v, ToVName t = Some v ∧
       groups = groupOf <$>
         (foldl (Edges_visitor req (ConvertFilters (EFilter req)) (list_to_set (EKind req)))
                (∅, ∅) (filter (λ e, readMatches v "*" e = true) (entries w))).1.
Proof.
  induction tickets as [|t0 ts IH];
    intros edgeSets nodes targetSet w st' w' t groups Hf Hl; simpl in Hf.
  - inv_ok. auto.
  - apply bind_Ok in Hf as ([[es1 ns1] ts1] & w1 & Hstep & Hf).
    unfold Edges_ticket in Hstep.
    apply bind_Ok in Hstep as (v0 & w2 & Hp & Hstep).
    apply mapErr_Ok, parseTicket_Ok in Hp as [Hv0 ->].
    apply bind_Ok in Hstep as ([fe ff] & w3 & Hread & Hstep).
    apply mapErr_Ok, gsRead_Ok in Hread as [Hr ->].
    assert (Hw1 : entries w1 = entries w)
      by (destruct (0 <? size fe)%nat; inv_ok; done).
    destruct (IH _ _ _ _ _ _ _ _ Hf Hl) as [Hes1|(v & Hv & ->)].
    + destruct (0 <? size fe)%nat; inv_ok; [|auto].
      destruct (decide (t = t0)) as [->|Hne].
      * rewrite lookup_insert_eq in Hes1. inversion Hes1. right. exists v0.
        split; [done|]. by rewrite <- Hr.
      * rewrite lookup_insert_ne in Hes1 by done. auto.
    + right. exists v. by rewrite Hw1.
Qed.

(** X8: in a reply of [Edges], the group of a kind in the edge set of a
    ticket lists a target with an ordinal exactly when the store holds an
    edge of that ticket's node which the allow-list retains and which
    parses to that kind, target and ordinal; and no group lists the same
    target and ordinal twice. *)
Theorem Edges_groups_list_retained_edges_once req w reply w' ticket v groups :
  Edges req w = (Ok reply, w') →
  EdgeSets reply !! ticket = Some groups →
  ToVName ticket = Some v →
  (∀ k grp, groups !! k = Some grp → NoDup grp) ∧
  ∀ k t o,
    (∃ grp, groups !! k = Some grp ∧ mkEdge t o ∈ grp) ↔
    ∃ e, e ∈ entries w ∧ Source e = v ∧ emits (EKind req) e k t o.
Proof.
  intros (_ & st & w1 & Hfold & ->)%Edges_Ok Hl Hv.
  destruct st as [[edgeSets nodes] targetSet].
  eapply Edges_ticket_fold_groups in Hfold as [Hempty|(v' & Hv' & ->)]; [| |exact Hl].
  { by rewrite lookup_empty in Hempty. }
  assert (v' = v) as -> by congruence. split.
  - intros k grp Hk. rewrite lookup_fmap in Hk.
    destruct (_ !! k) as [targets|]; [|done]. inversion Hk. apply groupOf_NoDup.
  - intros k t o.
    pose proof (Edges_visitor_hasOrdinal req (ConvertFilters (EFilter req))
                  (filter (λ e, readMatches v "*" e = true) (entries w)) k t o ∅ ∅) as Hho.
    match type of Hho with hasOrdinal ?fe _ _ _ ↔ _ => set (fe0 := fe) in * end.
    assert (Hgrp : (∃ grp, (groupOf <$> fe0) !! k = Some grp ∧ mkEdge t o ∈ grp) ↔
                   hasOrdinal fe0 k t o).
    { unfold hasOrdinal. rewrite lookup_fmap. split.
      - intros (grp & Hk & Hin). destruct (fe0 !! k) as [targets|]; [|done].
        inversion Hk; subst grp. apply groupOf_elem in Hin as (ords & ? & ?). eauto.
      - intros (targets & ords & Hk & Ht & Ho). rewrite Hk. eexists. split; [done|].
        apply groupOf_elem. eauto. }
    rewrite Hgrp, Hho. split.
    + intros [(? & ? & Hk & _)|(e & [Hm%readMatches_star He]%list_elem_of_filter & Hem)].
      * by rewrite lookup_empty in Hk.
      * eauto.
    + intros (e & He & Hs & Hem). right. exists e. split; [|done].
      apply list_elem_of_filter. split; [by apply readMatches_star|done].
Qed.

End EdgeGroups.

Lemma Edges_groups_witness :
  ∃ reply w' groups,
    @Edges Scenario.collaborators Scenario.edgesRequest
      (freshWorld Scenario.decorated) = (Ok reply, w') ∧
    EdgeSets reply !! "kythe:#t1" = Some groups ∧
    (∀ k grp, groups !! k = Some grp → NoDup grp) ∧
    ∃ grp, groups !! "/kythe/edge/generates" = Some grp ∧ mkEdge "kythe:#t2" 0 ∈ grp.
Proof.
  pose (run := @Edges Scenario.collaborators Scenario.edgesRequest
                 (freshWorld Scenario.decorated)).
  pose (reply := match run.1 with Ok r => r | _ => mkEdgesReply ∅ ∅ "" end).
  pose (groups := default ∅ (EdgeSets reply !! "kythe:#t1")).
  assert (Hrun : run = (Ok reply, run.2)) by (vm_compute; reflexivity).
  assert (Hl : EdgeSets reply !! "kythe:#t1" = Some groups) by (vm_compute; reflexivity).
  exists reply, run.2, groups. split; [exact Hrun|]. split; [exact Hl|].
  assert (Hv : @ToVName Scenario.collaborators "kythe:#t1" = Some Scenario.t1)
    by (vm_compute; reflexivity).
  destruct (@Edges_groups_list_retained_edges_once Scenario.collaborators
              Scenario.edgesRequest (freshWorld Scenario.decorated) reply run.2
              "kythe:#t1" Scenario.t1 groups Hrun Hl Hv)
    as [Hnd Hiff].
  split; [exact Hnd|]. apply Hiff.
  exists (Scenario.edge Scenario.t1 "/kythe/edge/generates" Scenario.t2).
  split; [|split; [reflexivity|]].
  - by apply (list_elem_of_lookup_2 _ 16).
  - unfold emits. split_and!; [vm_compute; discriminate| |vm_compute; reflexivity..].
    right. vm_compute. apply elem_of_cons. by left.
Defined.

(** ** CrossReferences: pages *)

Section Pages.
Context `{Collaborators}.

(** X9: [CrossReferences] hands its page token to [Edges], which
    supports none: a request with tickets and a page token is answered
    with an error, before any store call. *)
Theorem CrossReferences_rejects_page_token fuel req w :
  XTicket req ≠ [] → XPageToken req ≠ "" →
  ∃ e, CrossReferences fuel req w = (Fail e, w).
Proof.
  intros Ht Hp. unfold CrossReferences.
  destruct (XTicket req) as [|t ts] eqn:Hts; [done|]. cbn [length Nat.eqb].
  match goal with
  | |- context [Edges ?r] =>
      destruct (Edges_invalid_shape r w) as [e He]; [right; exact Hp|]
  end.
  eexists. by apply bind_Fail, mapErr_Fail.
Qed.

Lemma bind_agree {A B} (m : M A) (k1 k2 : A → M B) w :
  (∀ a w1, m w = (Ok a, w1) → k1 a w1 = k2 a w1) → bind m k1 w = bind m k2 w.
Proof.
  intros Hk. unfold bind. destruct (m w) as [[a|e|p] w1]; [|done..]. by apply Hk.
Qed.

Lemma CrossReferences_pages_one_round req size fuel eReply st w :
  CrossReferences_pages (S fuel) req size eReply st "" w =
  CrossReferences_pages 1 req size eReply st "" w.
Proof. reflexivity. Qed.

(** X10: the loop of [CrossReferences] over pages ends with its first
    round, whatever the request and the store, because [Edges] never
    names a next page; and so a reply of [CrossReferences] never names
    one either. *)
Theorem CrossReferences_is_one_page fuel req w :
  CrossReferences (S fuel) req w = CrossReferences 1 req w ∧
  ∀ r w', CrossReferences 1 req w = (Ok r, w') →
          ∃ reply, r = Some reply ∧ XNextPageToken reply = "".
Proof.
  split.
  - unfold CrossReferences. destruct (length (XTicket req) =? 0)%nat; [done|].
    apply bind_agree. intros eReply w1 He.
    apply mapErr_Ok, Edges_Ok in He as [-> _]. reflexivity.
  - intros r w' Hx. unfold CrossReferences in Hx. case_ok Hx.
    apply bind_Ok in Hx as (eReply & w1 & He & Hx).
    apply mapErr_Ok, Edges_Ok in He as [Htok _]. rewrite Htok in Hx.
    apply bind_Ok in Hx as (pages & w2 & Hp & Hx).
    apply CrossReferences_pages_related in Hp as (st & -> & Hrel & _); [|done].
    destruct st as [[[crossRefs rel] files] total]. simpl in Hrel. subst rel.
    rewrite bool_decide_true in Hx by done. simpl in Hx. inv_ok. eauto.
Qed.

End Pages.

Lemma CrossReferences_rejects_page_token_witness :
  ∃ e, @CrossReferences Scenario.collaborators 1
         (mkCrossReferencesRequest ["kythe:#X"] 0 0 0 false [] 0 "next")
         (freshWorld Scenario.crossReferenced)
       = (Fail e, freshWorld Scenario.crossReferenced).
Proof.
  apply (@CrossReferences_rejects_page_token Scenario.collaborators 1
           (mkCrossReferencesRequest ["kythe:#X"] 0 0 0 false [] 0 "next"));
    discriminate.
Defined.

(** ** Decorations: the file and its text *)

Section DecorationsText.
Context `{Collaborators}.

Lemma getSourceText_visitor_text es : ∀ t enc,
  (foldl getSourceText_visitor (t, enc) es).1 =
    match last (filter (λ e, FactName e = facts.Text) es) with
    | Some e => Some (FactValue e)
    | None => t
    end.
Proof.
  induction es as [|e es IH]; intros t enc; [done|].
  simpl. rewrite filter_cons.
  destruct (decide (FactName e = facts.Text)) as [Hn|Hn].
  - rewrite bool_decide_true by done. rewrite IH.
    destruct (filter _ es) as [|e' l] eqn:Hf; [done|].
    rewrite last_cons_cons. destruct (last (e' :: l)) eqn:Hl; [done|].
    by apply last_None in Hl.
  - rewrite bool_decide_false by done. case_bool_decide; apply IH.
Qed.

Lemma getSourceText_run v w :
  getSourceText v w =
    if nextFails w then (Fail (EWrap "read error" EStore), recordCall (CallRead v "") w)
    else match storedFact (entries w) v facts.Text with
         | Some text =>
             (Ok (text, default "" (storedFact (entries w) v facts.TextEncoding)),
              recordCall (CallRead v "") w)
         | None => (Fail (EMsg "file not found"), recordCall (CallRead v "") w)
         end.
Proof.
  unfold getSourceText, bind, mapErr, gsRead. destruct (nextFails w); [done|].
  pose proof (getSourceText_visitor_text
                (filter (λ e, readMatches v "" e = true) (entries w)) None "") as Ht.
  pose proof (getSourceText_visitor_encoding
                (filter (λ e, readMatches v "" e = true) (entries w)) None "") as He.
  rewrite filter_fact_read in Ht, He.
  destruct (foldl _ _ _) as [t enc]. simpl in Ht, He. subst t enc.
  unfold storedFact. by destruct (last (filter (isFactOf v facts.Text) _)).
Qed.

(** X11: [Decorations] of a well-formed file ticket whose node has no
    text fact fails with "file not found", after the one read of the
    file's facts that the store answered. *)
Theorem Decorations_file_not_found req loc v w :
  DDirtyBuffer req = "" → DLocation req = Some loc →
  ToVName (LTicket loc) = Some v →
  storedFact (entries w) v facts.Text = None → nextFails w = false →
  Decorations req w =
    (Fail (EWrap "failed to retrieve file text" (EMsg "file not found")),
     recordCall (CallRead v "") w).
Proof.
  intros Hd Hl Hv Ht Hf. unfold Decorations. rewrite Hd, Hl. simpl.
  unfold bind at 1, mapErr at 1, parseTicket. rewrite Hv. simpl.
  unfold bind, mapErr. by rewrite getSourceText_run, Hf, Ht.
Qed.

Lemma Decorations_Ok_text req w reply w' :
  Decorations req w = (Ok reply, w') →
  ∃ reqLoc v text,
    DLocation req = Some reqLoc ∧ ToVName (LTicket reqLoc) = Some v ∧
    storedFact (entries w) v facts.Text = Some text ∧
    normLocation text reqLoc = inr (RLocation reply) ∧
    (if DSourceText req then
       if bool_decide (LKind (RLocation reply) = Location_FILE)
       then RSourceText reply = text
       else slice text (ByteOffset (LStart (RLocation reply)))
                  (ByteOffset (LEnd (RLocation reply))) = Some (RSourceText reply)
     else RSourceText reply = "" ∧ REncoding reply = "") ∧
    (DReferences req = false →
       RReference reply = [] ∧ RNodes reply = ∅ ∧
       calls w' = CallRead v "" :: calls w).
Proof.
  unfold Decorations. intros Hd.
  case_ok Hd. destruct (DLocation req) as [reqLoc|]; [|discriminate].
  apply bind_Ok in Hd as (v & w0 & Hp & Hd).
  apply mapErr_Ok, parseTicket_Ok in Hp as [Hv ->].
  apply bind_Ok in Hd as ([text enc] & w1 & Hsrc & Hd).
  apply mapErr_Ok in Hsrc. rewrite getSourceText_run in Hsrc.
  destruct (nextFails w); [discriminate|].
  destruct (storedFact (entries w) v facts.Text) as [text'|] eqn:Htext; [|discriminate].
  inversion Hsrc; subst text' enc w1. clear Hsrc.
  destruct (normLocation text reqLoc) as [e|loc] eqn:Hloc; [discriminate|].
  apply bind_Ok in Hd as ([sourceText replyEncoding] & w2 & Hst & Hd).
  assert (Hreply : RLocation reply = loc ∧ RSourceText reply = sourceText ∧
                   REncoding reply = replyEncoding ∧
                   (DReferences req = false →
                    RReference reply = [] ∧ RNodes reply = ∅ ∧ w' = w2)).
  { destruct (DReferences req); [|by inv_ok].
    apply bind_Ok in Hd as (children & w3 & _ & Hd).
    apply bind_Ok in Hd as ([[ts rn] refs] & w4 & _ & Hd).
    case_ok Hd; inv_ok; done. }
  destruct Hreply as (-> & -> & -> & Hrefs). clear Hd.
  exists reqLoc, v, text. split_and!; [done..| |].
  - destruct (DSourceText req); [|by inv_ok].
    case_bool_decide; [by inv_ok|].
    apply bind_Ok in Hst as (s & w3 & Hs & Hst). inv_ok.
    unfold sliceM in Hs. destruct (slice text _ _); [by inv_ok|discriminate].
  - intros Hr. destruct (Hrefs Hr) as (? & ? & ->). split_and!; [done..|].
    destruct (DSourceText req); [|by inv_ok].
    case_bool_decide; [by inv_ok|].
    apply bind_Ok in Hst as (s & w3 & Hs & Hst). inv_ok.
    unfold sliceM in Hs. destruct (slice text _ _); [by inv_ok|discriminate].
Qed.

(** X12: the source text of a [Decorations] reply: when it was asked for,
    it is the stored text of the file for a file-kind location and the
    slice of it between the two points of the reply's location for a
    span; when it was not asked for, text and encoding are empty. *)
Theorem Decorations_source_text req w reply w' :
  Decorations req w = (Ok reply, w') →
  ∃ reqLoc v text,
    DLocation req = Some reqLoc ∧ ToVName (LTicket reqLoc) = Some v ∧
    storedFact (entries w) v facts.Text = Some text ∧
    (if DSourceText req then
       if bool_decide (LKind (RLocation reply) = Location_FILE)
       then RSourceText reply = text
       else slice text (ByteOffset (LStart (RLocation reply)))
                  (ByteOffset (LEnd (RLocation reply))) = Some (RSourceText reply)
     else RSourceText reply = "" ∧ REncoding reply = "").
Proof.
  intros (reqLoc & v & text & Hl & Hv & Ht & _ & Hs & _)%Decorations_Ok_text.
  by exists reqLoc, v, text.
Qed.

(** X13: a [Decorations] request that does not ask for references gets
    none, and no node facts; the query then reads the store once, for
    the facts of the file. *)
Theorem Decorations_without_references req w reply w' :
  DReferences req = false →
  Decorations req w = (Ok reply, w') →
  RReference reply = [] ∧ RNodes reply = ∅ ∧
  ∃ reqLoc v, DLocation req = Some reqLoc ∧ ToVName (LTicket reqLoc) = Some v ∧
              calls w' = CallRead v "" :: calls w.
Proof.
  intros Hr (reqLoc & v & text & Hl & Hv & _ & _ & _ & Hrefs)%Decorations_Ok_text.
  destruct (Hrefs Hr) as (? & ? & ?). split_and!; [done..|]. by exists reqLoc, v.
Qed.

End DecorationsText.

Lemma Decorations_file_not_found_witness :
  @Decorations Scenario.collaborators
    (mkDecorationsRequest
       (Some (mkLocation "kythe:#t1" Location_FILE (mkPoint 0 0 0) (mkPoint 0 0 0)))
       true true "" 0 [])
    (freshWorld Scenario.decorated)
  = (Fail (EWrap "failed to retrieve file text" (EMsg "file not found")),
     recordCall (CallRead Scenario.t1 "") (freshWorld Scenario.decorated)).
Proof.
  apply (@Decorations_file_not_found Scenario.collaborators _
           (mkLocation "kythe:#t1" Location_FILE (mkPoint 0 0 0) (mkPoint 0 0 0))
           Scenario.t1 (freshWorld Scenario.decorated)); reflexivity.
Defined.

Lemma Decorations_source_text_witness :
  ∃ reply w',
    @Decorations Scenario.collaborators Scenario.spanRequest
      (freshWorld Scenario.decorated) = (Ok reply, w') ∧
    ∃ reqLoc v text,
      DLocation Scenario.spanRequest = Some reqLoc ∧
      @ToVName Scenario.collaborators (LTicket reqLoc) = Some v ∧
      storedFact Scenario.decorated v facts.Text = Some text ∧
      (if DSourceText Scenario.spanRequest then
         if bool_decide (LKind (RLocation reply) = Location_FILE)
         then RSourceText reply = text
         else slice text (ByteOffset (LStart (RLocation reply)))
                    (ByteOffset (LEnd (RLocation reply))) = Some (RSourceText reply)
       else RSourceText reply = "" ∧ REncoding reply = "").
Proof.
  eexists _, _. split; [vm_compute; reflexivity|].
  eapply (@Decorations_source_text Scenario.collaborators Scenario.spanRequest
            (freshWorld Scenario.decorated)).
  vm_compute. reflexivity.
Defined.

(** On the file of scenario S4, the span from byte 1 to byte 6 is cut
    out of the text. *)
Example Decorations_span_text :
  match (@Decorations Scenario.collaborators Scenario.spanRequest
           (freshWorld Scenario.decorated)).1 with
  | Ok reply => RSourceText reply
  | _ => "?"
  end = "bc" +:+ Scenario.newline +:+ "de".
Proof. vm_compute. reflexivity. Qed.

Lemma Decorations_without_references_witness :
  ∃ reply w',
    @Decorations Scenario.collaborators
      (mkDecorationsRequest (Some Scenario.wholeFile) true false "" 0 [])
      (freshWorld Scenario.decorated) = (Ok reply, w') ∧
    RReference reply = [] ∧ RNodes reply = ∅.
Proof.
  eexists _, _. split; [vm_compute; reflexivity|].
  destruct (@Decorations_without_references Scenario.collaborators
              (mkDecorationsRequest (Some Scenario.wholeFile) true false "" 0 [])
              (freshWorld Scenario.decorated) _ _ eq_refl
              ltac:(vm_compute; reflexivity)) as (Hr & Hn & _).
  by split.
Defined.

(** ** Decorations: filters, children and the order of references *)

Section DecorationsMore.
Context `{Collaborators}.

Lemma Decorations_child_no_patterns req text loc st edge w st' w' :
  Decorations_child req text loc [] st edge w = (Ok st', w') →
  st'.1.2 = st.1.2.
Proof.
  destruct st as [[targetSet replyNodes] refs]. unfold Decorations_child.
  intros Hc. apply bind_Ok in Hc as (nreply & w1 & _ & Hc).
  case_ok Hc. case_ok Hc. case_ok Hc; [by inv_ok|].
  case_ok Hc; [|by inv_ok]. case_ok Hc; [|by inv_ok].
  cbv zeta in Hc.
  assert (Hres : ∀ w2,
    (let* targets := mapErr (EWrap "failed to retrieve targets of anchor")
                       (getEdges (ETarget edge) forwardNotChildOf) in
     if (length targets =? 0)%nat
     then logLine (LogMissingForward (ETarget edge));;; ret (targetSet, replyNodes, refs)
     else
       let '(targetSet0, refs0) :=
         foldl (Decorations_targets text (ToString (ETarget edge)) z z0)
               (targetSet, refs) targets in
       ret (targetSet0,
            match filterNode [] g with
            | Some node => <[ToString (ETarget edge) := node]> replyNodes
            | None => replyNodes
            end, refs0)) w2 = (Ok st', w') → st'.1.2 = replyNodes).
  { intros w2 Hr. apply bind_Ok in Hr as (targets & w3 & _ & Hr).
    case_ok Hr; [by inv_ok|].
    destruct (foldl _ _ targets) as [ts' refs']. by inv_ok. }
  case_ok Hc; [|by eapply Hres].
  case_ok Hc; [by inv_ok|]. case_ok Hc; [by inv_ok|]. by eapply Hres.
Qed.

Lemma Decorations_children_no_patterns req text loc children : ∀ st w st' w',
  foldM (Decorations_child req text loc []) children st w = (Ok st', w') →
  st'.1.2 = st.1.2.
Proof.
  induction children as [|c cs IH]; intros st w st' w' Hf; simpl in Hf.
  - by inv_ok.
  - apply bind_Ok in Hf as (st1 & w1 & Hstep & Hf).
    apply Decorations_child_no_patterns in Hstep. apply IH in Hf. congruence.
Qed.

(** X14: without a fact filter, the reply of [Decorations] carries no
    node facts, neither of the anchors nor of their targets. *)
Theorem Decorations_without_filter_has_no_nodes req w reply w' :
  DFilter req = [] →
  Decorations req w = (Ok reply, w') →
  RNodes reply = ∅.
Proof.
  intros Hf. unfold Decorations. rewrite Hf. intros Hd.
  case_ok Hd. destruct (DLocation req) as [reqLoc|]; [|discriminate].
  apply bind_Ok in Hd as (v & w0 & _ & Hd).
  apply bind_Ok in Hd as ([text enc] & w1 & _ & Hd).
  destruct (normLocation text reqLoc) as [e|loc]; [discriminate|].
  apply bind_Ok in Hd as ([sourceText replyEncoding] & w2 & _ & Hd).
  destruct (DReferences req); [|by inv_ok].
  apply bind_Ok in Hd as (children & w3 & _ & Hd).
  apply bind_Ok in Hd as ([[ts rn] refs] & w4 & Hfold & Hd).
  apply Decorations_children_no_patterns in Hfold. simpl in *. subst rn.
  by inv_ok.
Qed.

(** X15: a child of the file whose node is not an anchor is passed over
    in silence, and one whose [loc/start] or [loc/end] is no integer is
    passed over with a log line naming the fact: in each case the
    references and nodes collected so far are as before. *)
Theorem Decorations_child_passed_over req text loc patterns st edge w nreply w1 node :
  Nodes (mkNodesRequest [ToString (ETarget edge)] []) w = (Ok nreply, w1) →
  NNodes nreply !! ToString (ETarget edge) = Some node →
  factOr node facts.NodeKind ≠ nodes.Anchor ∨
  Atoi (factOr node facts.AnchorStart) = None ∨
  Atoi (factOr node facts.AnchorEnd) = None →
  ∃ w', Decorations_child req text loc patterns st edge w = (Ok st, w') ∧
        logged w' =
          (if bool_decide (factOr node facts.NodeKind = nodes.Anchor) then
             if Atoi (factOr node facts.AnchorStart) is Some _
             then [LogInvalidEnd (ToString (ETarget edge))]
             else [LogInvalidStart (ToString (ETarget edge))]
           else []) ++ logged w.
Proof.
  intros Hnodes Hnode Hbad.
  pose proof (Nodes_single _ _ _ _ _ _ Hnodes Hnode) as Hsize.
  apply Nodes_Ok in Hnodes as Hn. destruct Hn as (_ & Hlog1 & _).
  unfold Decorations_child. destruct st as [[targetSet replyNodes] refs].
  rewrite (bind_Ok_eq _ _ _ _ _ (mapErr_Ok_eq _ _ _ _ _ Hnodes)).
  rewrite Hsize, Hnode. simpl. case_bool_decide as Hk; simpl.
  - destruct (Atoi (factOr node facts.AnchorStart)) as [s|] eqn:Hs.
    + destruct (Atoi (factOr node facts.AnchorEnd)) as [e|] eqn:He.
      * destruct Hbad as [?|[?|?]]; done.
      * eexists. split; [reflexivity|]. simpl. by rewrite Hlog1.
    + eexists. split; [reflexivity|]. simpl. by rewrite Hlog1.
  - eexists. split; [reflexivity|]. simpl. by rewrite Hlog1.
Qed.

(** X16: a child of the file that has no facts of its own is an error
    for the whole query: [Nodes] returns nothing for it and the loop
    body fails, after that one read. *)
Theorem Decorations_child_without_facts req text loc patterns st edge w v :
  ToVName (ToString (ETarget edge)) = Some v →
  (∀ name, storedFact (entries w) v name = None) →
  nextFails w = false →
  Decorations_child req text loc patterns st edge w =
    (Fail (EMsg "found nodes"), recordCall (CallRead v "") w).
Proof.
  intros Hv Hnone Hf. unfold Decorations_child.
  destruct st as [[targetSet replyNodes] refs].
  destruct (Nodes (mkNodesRequest [ToString (ETarget edge)] []) w) as [r w1] eqn:Hn.
  assert (Hrun : ∃ nreply, r = Ok nreply ∧ w1 = recordCall (CallRead v "") w).
  { revert Hn. unfold Nodes. simpl. unfold bind at 1, bind at 1, Nodes_parse, bind at 1,
      parseTicket. rewrite Hv. simpl. unfold bind at 1, bind at 1, Nodes_read, bind at 1,
      gsRead. rewrite Hf. simpl.
    destruct (0 <? size _)%nat; intros [= <- <-]; eauto. }
  destruct Hrun as (nreply & -> & ->).
  assert (Hempty : NNodes nreply = ∅).
  { apply Nodes_Ok in Hn as (_ & _ & _ & Hlook). apply map_eq. intros t.
    rewrite Hlook, lookup_empty. simpl.
    destruct (bool_decide (t ∈ [ToString (ETarget edge)])) eqn:Hin; [|done].
    apply bool_decide_eq_true, elem_of_cons in Hin as [->|Hin];
      [|by apply not_elem_of_nil in Hin].
    assert (Hc : collected [] (entries w) (ToString (ETarget edge)) = ∅).
    { apply map_eq. intros name.
      by rewrite (collected_lookup _ _ _ v), lookup_empty, retains_nil, Hnone. }
    by rewrite Hc, map_size_empty. }
  rewrite (bind_Ok_eq _ _ _ _ _ (mapErr_Ok_eq _ _ _ _ _ Hn)).
  by rewrite Hempty, map_size_empty.
Qed.

(** X17: [filterNode] never returns a node without facts: it returns
    nothing when there is no pattern or no fact matches one, and
    otherwise exactly the facts whose names match a pattern. *)
Theorem filterNode_keeps_matching_facts patterns (node : NodeInfo) :
  match filterNode patterns node with
  | Some filtered =>
      patterns ≠ [] ∧ filtered ≠ ∅ ∧
      ∀ name, filtered !! name =
                if MatchesAny name patterns then node !! name else None
  | None =>
      patterns = [] ∨
      ∀ name value, node !! name = Some value → MatchesAny name patterns = false
  end.
Proof.
  unfold filterNode. destruct patterns as [|p ps]; [by left|].
  cbn [length Nat.eqb].
  set (P := λ kv : string * string, MatchesAny kv.1 (p :: ps) = true).
  assert (Hlook : ∀ name, filter P node !! name =
                    if MatchesAny name (p :: ps) then node !! name else None).
  { intros name. destruct (filter P node !! name) as [x|] eqn:Hl.
    - apply map_lookup_filter_Some in Hl as [Hn HP]. unfold P in HP.
      cbn [fst] in HP. by rewrite HP.
    - destruct (MatchesAny name (p :: ps)) eqn:Hm; [|done].
      destruct (node !! name) as [x|] eqn:Hn; [|done].
      assert (filter P node !! name = Some x)
        by (by apply map_lookup_filter_Some).
      congruence. }
  destruct (size (filter P node) =? 0)%nat eqn:Hs.
  - right. apply Nat.eqb_eq, map_size_empty_iff in Hs. intros name value Hn.
    specialize (Hlook name). rewrite Hs, lookup_empty, Hn in Hlook.
    by destruct (MatchesAny name (p :: ps)).
  - split_and!; [done| |done]. intros He. by rewrite He, map_size_empty in Hs.
Qed.

End DecorationsMore.

(** X18: [bySpan.Less] is the strict order that [sort.Sort] asks for: no
    reference is less than itself, the relation is transitive, and so is
    its complement, so that references with the same span form classes. *)
Theorem bySpan_Less_strict_weak_order :
  (∀ a, bySpan_Less a a = false) ∧
  (∀ a b c, bySpan_Less a b = true → bySpan_Less b c = true → bySpan_Less a c = true) ∧
  (∀ a b c, bySpan_Less a b = false → bySpan_Less b c = false →
            bySpan_Less a c = false).
Proof.
  unfold bySpan_Less. split_and!.
  - intros a. rewrite Z.ltb_irrefl, Z.gtb_ltb, Z.ltb_irrefl. by rewrite Z.ltb_irrefl.
  - intros a b c.
    repeat match goal with
           | |- context [(?x <? ?y)%Z] => destruct (Z.ltb_spec x y)
           | |- context [(?x >? ?y)%Z] => rewrite (Z.gtb_ltb x y)
           end; try done; lia.
  - intros a b c.
    repeat match goal with
           | |- context [(?x <? ?y)%Z] => destruct (Z.ltb_spec x y)
           | |- context [(?x >? ?y)%Z] => rewrite (Z.gtb_ltb x y)
           end; try done; lia.
Qed.

Lemma Decorations_without_filter_witness :
  ∃ reply w',
    @Decorations Scenario.collaborators Scenario.decorationsRequest
      (freshWorld Scenario.decorated) = (Ok reply, w') ∧
    RNodes reply = ∅.
Proof.
  eexists _, _. split; [vm_compute; reflexivity|].
  eapply (@Decorations_without_filter_has_no_nodes Scenario.collaborators
            Scenario.decorationsRequest (freshWorld Scenario.decorated));
    [reflexivity|vm_compute; reflexivity].
Defined.

Lemma Decorations_child_passed_over_witness :
  ∃ w', @Decorations_child Scenario.collaborators Scenario.decorationsRequest
          "" Scenario.wholeFile [] (∅, ∅, [])
          (mkEdgeTarget "/kythe/edge/childof" Scenario.t1 0)
          (freshWorld Scenario.decorated) = (Ok (∅, ∅, []), w') ∧
        logged w' = [].
Proof.
  pose (run := @Nodes Scenario.collaborators (mkNodesRequest ["kythe:#t1"] [])
                 (freshWorld Scenario.decorated)).
  pose (nreply := match run.1 with Ok r => r | _ => mkNodesReply ∅ end).
  pose (node := default ∅ (NNodes nreply !! "kythe:#t1")).
  destruct (@Decorations_child_passed_over Scenario.collaborators
              Scenario.decorationsRequest "" Scenario.wholeFile [] (∅, ∅, [])
              (mkEdgeTarget "/kythe/edge/childof" Scenario.t1 0)
              (freshWorld Scenario.decorated) nreply run.2 node
              ltac:(vm_compute; reflexivity) ltac:(vm_compute; reflexivity)
              ltac:(left; vm_compute; discriminate))
    as (w' & Hrun & Hlog).
  exists w'. split; [exact Hrun|]. rewrite Hlog. vm_compute. reflexivity.
Defined.

Lemma storedFact_no_facts es v name :
  forallb (λ e, negb (bool_decide (Source e = v) && bool_decide (EdgeKind e = ""))) es
    = true →
  storedFact es v name = None.
Proof.
  intros Hall. unfold storedFact.
  assert (Hnil : filter (isFactOf v name) es = []); [|by rewrite Hnil].
  induction es as [|e es IH]; [done|]. simpl in Hall.
  apply andb_prop in Hall as [He Hall]. rewrite filter_cons, IH by done.
  rewrite decide_False; [done|]. intros (Hs & Hk & _).
  by rewrite !bool_decide_true in He.
Qed.

Lemma Decorations_child_without_facts_witness :
  @Decorations_child Scenario.collaborators Scenario.decorationsRequest
    "" Scenario.wholeFile [] (∅, ∅, [])
    (mkEdgeTarget "/kythe/edge/childof" Scenario.t2 0)
    (freshWorld Scenario.decorated)
  = (Fail (EMsg "found nodes"),
     recordCall (CallRead Scenario.t2 "") (freshWorld Scenario.decorated)).
Proof.
  apply (@Decorations_child_without_facts Scenario.collaborators
           Scenario.decorationsRequest "" Scenario.wholeFile [] (∅, ∅, [])
           (mkEdgeTarget "/kythe/edge/childof" Scenario.t2 0)
           (freshWorld Scenario.decorated) Scenario.t2); [reflexivity| |reflexivity].
  intros name. apply storedFact_no_facts. vm_compute. reflexivity.
Defined.

(** ** Anchor completion: what is returned *)

Section CompletedAnchors.
Context `{Collaborators}.

Lemma completeAnchors_parent_malformed anchors : ∀ parents w,
  (∃ a, a ∈ anchors ∧ AnchorFile a = None) →
  ∃ e, foldM completeAnchors_parent anchors parents w = (Fail e, w).
Proof.
  induction anchors as [|a0 anchors IH]; intros parents w (a & Hin & Ha).
  { by apply not_elem_of_nil in Hin. }
  simpl. unfold bind, completeAnchors_parent at 1.
  destruct (AnchorFile a0) as [f|] eqn:Hf; simpl; [|eauto].
  apply IH. apply elem_of_cons in Hin as [->|Hin]; [congruence|eauto].
Qed.

(** X19: when the parent file of one of the anchors cannot be derived
    from its ticket, [completeAnchors] fails before any store call. *)
Theorem completeAnchors_invalid_anchor retrieveText files edgeKind anchors w :
  (∃ a, a ∈ anchors ∧ AnchorFile a = None) →
  ∃ e, completeAnchors retrieveText files edgeKind anchors w = (Fail e, w).
Proof.
  intros Hbad. unfold completeAnchors.
  destruct (completeAnchors_parent_malformed anchors ∅ w Hbad) as [e He].
  exists e. by apply bind_Fail.
Qed.

Lemma completeAnchors_parent_lookup anchors : ∀ parents w parents' w',
  foldM completeAnchors_parent anchors parents w = (Ok parents', w') →
  ∀ t, t ∈ anchors → ∃ f, AnchorFile t = Some f ∧ parents' !! t = Some f.
Proof.
  induction anchors as [|a anchors IH]; intros parents w parents' w' Hf t Hin;
    simpl in Hf.
  { by apply not_elem_of_nil in Hin. }
  apply bind_Ok in Hf as (p1 & w1 & Hstep & Hf). unfold completeAnchors_parent in Hstep.
  destruct (AnchorFile a) as [f|] eqn:Ha; [|discriminate]. inv_ok.
  destruct (decide (t ∈ anchors)) as [Hin'|Hnot]; [by eapply IH|].
  apply elem_of_cons in Hin as [->|?]; [|done].
  exists f. split; [done|].
  clear IH. revert Hf. generalize w1.
  assert (Hl : <[a := f]> parents !! a = Some f) by apply lookup_insert_eq.
  revert Hl. generalize (<[a := f]> parents). revert Hnot.
  induction anchors as [|b anchors IH]; intros Hnot p0 Hl w0 Hf; simpl in Hf.
  - by inv_ok.
  - apply bind_Ok in Hf as (p2 & w2 & Hstep & Hf). unfold completeAnchors_parent in Hstep.
    destruct (AnchorFile b); [|discriminate]. inv_ok.
    apply not_elem_of_cons in Hnot as [Hne Hnot].
    eapply IH; [done| |done]. by rewrite lookup_insert_ne.
Qed.

Lemma decode_snippet_points (snippet : string) (p q : option Point) w
    (x : string * option Point * option Point) w' (second : M (string * option Point * option Point)) :
  (snippet ≠ "" → is_Some p ∧ is_Some q) →
  (∀ y w1 w2, second w1 = (Ok y, w2) → is_Some y.1.2 ∧ is_Some y.2) →
  (if bool_decide (snippet = "") then second else ret (snippet, p, q)) w = (Ok x, w') →
  is_Some x.1.2 ∧ is_Some x.2.
Proof.
  intros Hfirst Hsecond. case_bool_decide; intros Hr.
  - by eapply Hsecond.
  - inv_ok. simpl. by apply Hfirst.
Qed.

Lemma completeAnchors_anchor_shape retrieveText edgeKind parents replyNodes
    files result ticket info w files' result' w' :
  completeAnchors_anchor retrieveText edgeKind parents replyNodes (files, result)
                         (ticket, info) w = (Ok (files', result'), w') →
  files ⊆ files' ∧
  (result' = result ∨
   ∃ a, result' = result ++ [a] ∧ ATicket a = ticket ∧
        wellFormedAnchor edgeKind parents files' a).
Proof.
  intros Hrun. unfold completeAnchors_anchor in Hrun.
  destruct (getSpan info facts.AnchorStart facts.AnchorEnd) as [err|[s e]] eqn:Hspan.
  { inv_ok. unfold logLine in *. inv_ok. auto. }
  apply bind_Ok in Hrun as ([file files1] & w1 & Hfile & Hrun).
  apply fileNode_cached in Hfile as [Hsub Hfile].
  unfold normalizeSpan in Hrun.
  destruct (negb (ByteOffset (normByteOffset (text file) (int32 s)) =? int32 s)) eqn:Hns.
  { inv_ok. auto. }
  destruct (negb (ByteOffset (normByteOffset (text file) (int32 e)) =? int32 e)) eqn:Hne.
  { inv_ok. auto. }
  apply negb_false_iff, Z.eqb_eq in Hns, Hne.
  apply bind_Ok in Hrun as (aText & w2 & Htext & Hrun).
  apply bind_Ok in Hrun as ([[snippet snipStart] snipEnd] & w3 & Hsnip & Hrun).
  apply bind_Ok in Hrun as ([[snippet' snipStart'] snipEnd'] & w4 & Hline & Hrun).
  inv_ok. split; [done|]. right. eexists. split; [reflexivity|]. split; [done|].
  assert (Hfirst : snippet ≠ "" → is_Some snipStart ∧ is_Some snipEnd).
  { clear Hline. destruct (replyNodes !! ticket) as [info'|]; [|discriminate].
    destruct (getSpan info' facts.SnippetStart facts.SnippetEnd) as [?|[ss se]];
      [by inv_ok|].
    unfold normalizeSpan in Hsnip.
    destruct (negb (_ =? _)); [by inv_ok|]. destruct (negb (_ =? _)); [by inv_ok|].
    apply bind_Ok in Hsnip as (d & w5 & _ & Hsnip). inv_ok. eauto. }
  assert (Hpts : is_Some snipStart' ∧ is_Some snipEnd').
  { eapply (decode_snippet_points snippet snipStart snipEnd _
              (snippet', snipStart', snipEnd') _ _ Hfirst); [|exact Hline].
    intros y w5 w6 Hy. apply bind_Ok in Hy as (d & w7 & _ & Hy). inv_ok. simpl. eauto. }
  unfold wellFormedAnchor. simpl. split_and!; [done|done| |apply Hpts|apply Hpts].
  exists file. by rewrite Hns, Hne.
Qed.

Lemma wellFormedAnchor_weaken edgeKind parents (files files' : gmap string fileNode) a :
  files ⊆ files' → wellFormedAnchor edgeKind parents files a →
  wellFormedAnchor edgeKind parents files' a.
Proof.
  intros Hsub (Hk & Hp & (file & Hf & Hs & He) & Hss & Hse).
  split_and!; [done..| |done|done]. exists file. split_and!; [|done..].
  by eapply lookup_weaken.
Qed.

Lemma completeAnchors_anchor_shapes retrieveText edgeKind parents replyNodes nodes :
  ∀ files result w files' result' w',
  foldM (completeAnchors_anchor retrieveText edgeKind parents replyNodes) nodes
        (files, result) w = (Ok (files', result'), w') →
  files ⊆ files' ∧
  ∃ new, result' = result ++ new ∧ map ATicket new `sublist_of` nodes.*1 ∧
         Forall (wellFormedAnchor edgeKind parents files') new.
Proof.
  induction nodes as [|[ticket info] nodes IH];
    intros files result w files' result' w' Hf; simpl in Hf.
  - inv_ok. split; [done|]. exists []. rewrite app_nil_r. by split_and!.
  - apply bind_Ok in Hf as ([files1 result1] & w1 & Hstep & Hf).
    apply completeAnchors_anchor_shape in Hstep as [Hsub Hstep].
    apply IH in Hf as (Hsub' & new & -> & Hsl & Hnew).
    split; [by etrans|].
    destruct Hstep as [->|(a & -> & Ht & Ha)].
    + exists new. split_and!; [done| |done]. simpl. by apply sublist_cons.
    + exists (a :: new). rewrite <- app_assoc. split_and!; [done| |].
      * simpl. rewrite Ht. by apply sublist_skip.
      * constructor; [|done]. by eapply wellFormedAnchor_weaken.
Qed.

Lemma completeAnchors_Ok retrieveText files edgeKind
    anchors w files' result w' :
  completeAnchors retrieveText files edgeKind anchors w = (Ok (files', result), w') →
  NoDup (map ATicket result) ∧
  ∀ a, a ∈ result →
    ATicket a ∈ anchors ∧
    AKind a = edges.Canonical edgeKind ∧
    AnchorFile (ATicket a) = Some (AParent a) ∧
    (∃ file, files' !! AParent a = Some file ∧
             AStart a = normByteOffset (text file) (ByteOffset (AStart a)) ∧
             AEnd a = normByteOffset (text file) (ByteOffset (AEnd a))) ∧
    is_Some (ASnippetStart a) ∧ is_Some (ASnippetEnd a).
Proof.
  unfold completeAnchors. intros Hrun.
  apply bind_Ok in Hrun as (parents & w1 & Hparents & Hrun).
  apply bind_Ok in Hrun as (reply & w2 & Hnodes & Hrun).
  apply completeAnchors_anchor_shapes in Hrun as (_ & new & Hres & Hsl & Hall).
  simpl in Hres. subst new. split.
  - eapply sublist_NoDup; [|exact Hsl]. apply NoDup_fst_map_to_list.
  - intros a Ha. rewrite Forall_forall in Hall.
    destruct (Hall a Ha) as (Hk & Hp & Hfile & Hss & Hse).
    assert (Hin : ATicket a ∈ anchors).
    { assert (Hkey : ATicket a ∈ (map_to_list (NNodes reply)).*1).
      { eapply elem_of_sublist; [|exact Hsl]. apply list_elem_of_fmap. eauto. }
      apply list_elem_of_fmap in Hkey as ([t i] & Ht & Hti). simpl in Ht. subst t.
      apply elem_of_map_to_list in Hti.
      apply Nodes_Ok in Hnodes as (_ & _ & _ & Hlook). rewrite Hlook in Hti.
      simpl in Hti. destruct (bool_decide (ATicket a ∈ anchors)) eqn:Hb; [|done].
      by apply bool_decide_eq_true in Hb. }
    destruct (completeAnchors_parent_lookup _ _ _ _ _ Hparents _ Hin) as (f & Hf & Hpf).
    split_and!; try done. rewrite Hp, Hpf. done.
Qed.

(** X20: the anchors [completeAnchors] returns: no two have the same
    ticket, however often a ticket was asked for; each has a requested
    ticket, the canonical form of the edge kind, the parent file derived
    from its ticket, that file in the cache, points that the normalizer
    of the file returns for their own offsets, and both snippet points
    set. *)
Theorem completeAnchors_returns_well_formed_anchors retrieveText files edgeKind
    anchors w files' result w' :
  completeAnchors retrieveText files edgeKind anchors w = (Ok (files', result), w') →
  NoDup (map ATicket result) ∧
  ∀ a, a ∈ result →
    ATicket a ∈ anchors ∧
    AKind a = edges.Canonical edgeKind ∧
    AnchorFile (ATicket a) = Some (AParent a) ∧
    (∃ file, files' !! AParent a = Some file ∧
             AStart a = normByteOffset (text file) (ByteOffset (AStart a)) ∧
             AEnd a = normByteOffset (text file) (ByteOffset (AEnd a))) ∧
    is_Some (ASnippetStart a) ∧ is_Some (ASnippetEnd a).
Proof. apply completeAnchors_Ok. Qed.

End CompletedAnchors.

Lemma completeAnchors_invalid_anchor_witness :
  ∃ e, @completeAnchors Scenario.collaborators true ∅ "%/kythe/edge/ref"
         ["kythe:?path=f#a4"; "bogus"] (freshWorld Scenario.emptySpan)
       = (Fail e, freshWorld Scenario.emptySpan).
Proof.
  apply (@completeAnchors_invalid_anchor Scenario.collaborators).
  exists "bogus". split; [|reflexivity].
  apply elem_of_cons. right. apply elem_of_cons. by left.
Defined.

Lemma completeAnchors_well_formed_witness :
  ∃ files' result w',
    @completeAnchors Scenario.collaborators true ∅ "%/kythe/edge/ref"
      ["kythe:?path=f#a4"; "kythe:?path=f#a4"] (freshWorld Scenario.emptySpan)
    = (Ok (files', result), w') ∧
    NoDup (map ATicket result) ∧ length result = 1%nat.
Proof.
  eexists _, _, _. split; [vm_compute; reflexivity|].
  split; [|reflexivity].
  eapply (@completeAnchors_returns_well_formed_anchors Scenario.collaborators true ∅
            "%/kythe/edge/ref" ["kythe:?path=f#a4"; "kythe:?path=f#a4"]
            (freshWorld Scenario.emptySpan)).
  vm_compute. reflexivity.
Defined.

(** ** Cross-reference sets of a reply *)

Section CrossReferenceSets.
Context `{Collaborators}.

Lemma completeAnchors_parented retrieveText files edgeKind anchors w files' result w' :
  completeAnchors retrieveText files edgeKind anchors w = (Ok (files', result), w') →
  Forall (λ a, AnchorFile (ATicket a) = Some (AParent a)) result.
Proof.
  intros [_ Hall]%completeAnchors_Ok. apply Forall_forall. intros a Ha.
  by destruct (Hall a Ha) as (_ & _ & ? & _).
Qed.

Lemma CrossReferences_group_anchors req xr count files group w st' w' :
  CrossReferences_group req (xr, count, ∅, files) group w = (Ok st', w') →
  CTicket st'.1.1.1 = CTicket xr ∧
  (length (anchorsOf st'.1.1.1) + count = length (anchorsOf xr) + st'.1.1.2)%nat ∧
  (parented xr → parented st'.1.1.1).
Proof.
  unfold CrossReferences_group, parented, anchorsOf. destruct group as [kind grp].
  intros Hg.
  repeat case_ok Hg;
    try (apply bind_Ok in Hg as ([files' anchors] & w1 & Ha & Hg);
         apply mapErr_Ok, completeAnchors_parented in Ha);
    inv_ok; simpl;
    try (match goal with
         | Hc : negb (bool_decide (_ = _)) && _ = true |- _ =>
             by rewrite bool_decide_true in Hc
         end);
    (split; [done|]); rewrite ?length_app; (split; [lia|]);
    rewrite ?Forall_app; tauto.
Qed.

Lemma CrossReferences_groups_anchors req groups : ∀ xr count files w st' w',
  foldM (CrossReferences_group req) groups (xr, count, ∅, files) w = (Ok st', w') →
  CTicket st'.1.1.1 = CTicket xr ∧
  (length (anchorsOf st'.1.1.1) + count = length (anchorsOf xr) + st'.1.1.2)%nat ∧
  (parented xr → parented st'.1.1.1).
Proof.
  induction groups as [|g gs IH]; intros xr count files w st' w' Hf; simpl in Hf.
  - inv_ok. simpl. split_and!; [done|lia|done].
  - apply bind_Ok in Hf as ([[[xr1 c1] rel1] files1] & w1 & Hstep & Hf).
    pose proof (CrossReferences_group_related _ _ _ _ _ _ _ _ Hstep) as [Hrel _].
    simpl in Hrel. subst rel1.
    apply CrossReferences_group_anchors in Hstep as (Ht & Hlen & Hp). simpl in *.
    apply IH in Hf as (Ht' & Hlen' & Hp').
    split_and!; [congruence|lia|tauto].
Qed.

Lemma CrossReferences_source_keyed req sources crossRefs files total edgeSet w st' w' :
  edgeSet.1 ∈ sources → keyedSets sources crossRefs →
  CrossReferences_source req (crossRefs, ∅, files, total) edgeSet w = (Ok st', w') →
  st'.1.1.2 = ∅ ∧ keyedSets sources st'.1.1.1.
Proof.
  unfold CrossReferences_source. destruct edgeSet as [source es]. simpl.
  intros Hin Hkeyed Hs.
  apply bind_Ok in Hs as ([[[xr c] rel] files1] & w1 & Hgroups & Hs).
  pose proof (CrossReferences_groups_related _ _ _ _ _ _ _ _ Hgroups) as [Hrel _].
  apply CrossReferences_groups_anchors in Hgroups as (Ht & Hlen & Hp).
  simpl in Hrel, Ht, Hlen, Hp. subst rel.
  assert (CTicket xr = source ∧ parented xr) as [Hsrc Hpar].
  { destruct (crossRefs !! source) as [xr0|] eqn:Hl; simpl in Ht, Hp.
    - destruct (Hkeyed _ _ Hl) as (? & _ & _ & ?). split; [congruence|auto].
    - split; [done|]. apply Hp. constructor. }
  case_ok Hs; inv_ok; (split; [done|]); [|done].
  intros t xr'. simpl. destruct (decide (CTicket xr = t)) as [<-|Hne].
  - rewrite lookup_insert_eq. intros [= <-]. split_and!; [done..| |done].
    intros Hnil. rewrite Hnil in Hlen. simpl in Hlen.
    match goal with Hc : (0 <? c)%nat = true |- _ => apply Nat.ltb_lt in Hc end. lia.
  - rewrite lookup_insert_ne by done. apply Hkeyed.
Qed.

Lemma CrossReferences_sources_keyed req sources sets : ∀ crossRefs files total w st' w',
  Forall (λ s, s.1 ∈ sources) sets → keyedSets sources crossRefs →
  foldM (CrossReferences_source req) sets (crossRefs, ∅, files, total) w = (Ok st', w') →
  keyedSets sources st'.1.1.1.
Proof.
  induction sets as [|e sets IH]; intros crossRefs files total w st' w' Hall Hk Hf;
    simpl in Hf.
  - by inv_ok.
  - apply bind_Ok in Hf as ([[[cr1 rel1] files1] total1] & w1 & Hstep & Hf).
    inversion Hall as [|?? He Hall']; subst.
    apply CrossReferences_source_keyed with (sources := sources) in Hstep
      as [Hrel Hk1]; [|done..].
    simpl in Hrel, Hk1. subst rel1. by eapply IH.
Qed.

(** X21: every cross-reference set of a reply of [CrossReferences] is
    stored under its own ticket, which is one of the requested tickets;
    it holds at least one anchor, and each of its anchors has the parent
    file that the ticket of the anchor names.  A requested node without
    a definition, reference or documentation anchor has no set at
    all. *)
Theorem CrossReferences_sets_are_keyed_and_not_empty fuel req w r w' :
  CrossReferences (S fuel) req w = (Ok r, w') →
  ∃ reply, r = Some reply ∧
    ∀ t xr, CrossReferences_ reply !! t = Some xr →
      CTicket xr = t ∧ t ∈ XTicket req ∧ anchorsOf xr ≠ [] ∧
      ∀ a, a ∈ anchorsOf xr → AnchorFile (ATicket a) = Some (AParent a).
Proof.
  unfold CrossReferences. intros Hx. case_ok Hx.
  apply bind_Ok in Hx as (eReply & w1 & He & Hx).
  apply mapErr_Ok in He. pose proof He as (Htok & st0 & w0 & Hfold & Hsets)%Edges_Ok.
  rewrite Htok in Hx.
  apply bind_Ok in Hx as (pages & w2 & Hp & Hx).
  pose proof Hp as (st & -> & Hrel & _)%CrossReferences_pages_related; [|done].
  simpl in Hp. apply bind_Ok in Hp as (st1 & w3 & Hsources & Hp). inv_ok.
  destruct st as [[[crossRefs rel] files] total]. simpl in Hrel. subst rel.
  apply CrossReferences_sources_keyed with (sources := XTicket req) in Hsources.
  - rewrite bool_decide_true in Hx by done. simpl in Hx. inv_ok.
    eexists. split; [done|]. simpl. intros t xr Hl.
    destruct (Hsources t xr Hl) as (? & ? & ? & Hall).
    split_and!; [done..|]. by apply Forall_forall.
  - apply Forall_forall. intros [t es] Hin. simpl.
    apply elem_of_map_to_list in Hin. rewrite Hsets in Hin.
    apply Edges_ticket_fold in Hfold as [_ Hiff].
    destruct (Hiff t) as [Hsome _]. destruct Hsome as [Hsome|[Hreq _]]; [by eauto| |done].
    rewrite lookup_empty in Hsome. by destruct Hsome.
  - intros t xr. by rewrite lookup_empty.
Qed.

End CrossReferenceSets.

Lemma CrossReferences_sets_witness :
  ∃ r w',
    @CrossReferences Scenario.collaborators 1 Scenario.crossReferencesRequest
      (freshWorld Scenario.crossReferenced) = (Ok r, w') ∧
    ∃ reply, r = Some reply ∧
      ∀ t xr, CrossReferences_ reply !! t = Some xr →
        CTicket xr = t ∧ t ∈ XTicket Scenario.crossReferencesRequest ∧
        anchorsOf xr ≠ [] ∧
        ∀ a, a ∈ anchorsOf xr →
             @AnchorFile Scenario.collaborators (ATicket a) = Some (AParent a).
Proof.
  eexists _, _. split; [vm_compute; reflexivity|].
  eapply (@CrossReferences_sets_are_keyed_and_not_empty Scenario.collaborators 0
            Scenario.crossReferencesRequest (freshWorld Scenario.crossReferenced)).
  vm_compute. reflexivity.
Defined.

(** ** Anchor completion: anchors passed over *)






Section SkippedAnchors.
Context `{Collaborators}.





End SkippedAnchors.


(** ** No query swallows an error of the store *)

Lemma se_pure {A} (r : outcome A) : reportsStoreErrors (λ w, (r, w)).
Proof.
  intros w a w' [= _ <-]. split; [done|]. exists []. split; [done|]. lia.
Qed.

Lemma se_ret {A} (a : A) : reportsStoreErrors (ret a).
Proof. apply se_pure. Qed.

Lemma se_fail {A} e : reportsStoreErrors (@fail A e).
Proof. apply se_pure. Qed.

Lemma se_panic {A} p : reportsStoreErrors (@panic A p).
Proof. apply se_pure. Qed.

Lemma se_logLine l : reportsStoreErrors (logLine l).
Proof.
  intros w a w' [= _ <-]. split; [done|]. exists []. split; [done|]. simpl. lia.
Qed.

Lemma se_gsRead {S} v k (f : S → Entry → S) s : reportsStoreErrors (gsRead v k f s).
Proof.
  intros w a w'. unfold gsRead, nextFails.
  destruct (faulty w (length (calls w))) eqn:Hf; intros [= _ <-].
  split; [done|]. exists [CallRead v k]. split; [done|]. simpl.
  intros i Hi. by replace i with (length (calls w)) by lia.
Qed.

Lemma se_bind {A B} (m : M A) (k : A → M B) :
  reportsStoreErrors m → (∀ a, reportsStoreErrors (k a)) → reportsStoreErrors (bind m k).
Proof.
  intros Hm Hk w b w'. unfold bind. specialize (Hm w).
  destruct (m w) as [[a|e|p] w1]; [|discriminate..].
  destruct (Hm _ _ eq_refl) as (Hf & new & Hc & Hi). intros Hka.
  destruct (Hk a _ _ _ Hka) as (Hf' & new' & Hc' & Hi').
  assert (Hl : length (calls w1) = (length new + length (calls w))%nat)
    by (by rewrite Hc, length_app).
  assert (Hl' : length (calls w') = (length new' + length (calls w1))%nat)
    by (by rewrite Hc', length_app).
  split; [congruence|]. exists (new' ++ new).
  split; [by rewrite Hc', Hc, app_assoc|]. intros i Hlen.
  destruct (decide (i < length (calls w1))%nat) as [Hlt|Hge].
  - apply Hi. lia.
  - rewrite <- Hf. apply Hi'. lia.
Qed.

Lemma se_mapErr {A} f (m : M A) : reportsStoreErrors m → reportsStoreErrors (mapErr f m).
Proof.
  intros Hm w a w'. unfold mapErr. specialize (Hm w).
  destruct (m w) as [[a0|e|p] w1]; intros [= <- <-]. by eapply Hm.
Qed.

Lemma se_foldM {A S} (f : S → A → M S) l :
  (∀ s a, reportsStoreErrors (f s a)) → ∀ s, reportsStoreErrors (foldM f l s).
Proof.
  intros Hf. induction l as [|a l IH]; intros s; simpl.
  - apply se_ret.
  - apply se_bind; [apply Hf|apply IH].
Qed.

Lemma se_sliceM b lo hi : reportsStoreErrors (sliceM b lo hi).
Proof. unfold sliceM. destruct (slice b lo hi); [apply se_ret|apply se_panic]. Qed.

Ltac se_step :=
  first
    [ apply se_ret | apply se_fail | apply se_logLine | apply se_gsRead
    | apply se_sliceM | apply se_panic
    | apply se_mapErr | apply se_bind; [|intros ?] | apply se_foldM; intros ? ?
    | match goal with
      | |- reportsStoreErrors (if ?c then _ else _) => destruct c
      | |- reportsStoreErrors (match ?c with _ => _ end) => destruct c
      | |- reportsStoreErrors (let (_, _) := ?c in _) => destruct c
      end ].

Section StoreErrors.
Context `{Collaborators}.

Lemma se_Nodes req : reportsStoreErrors (Nodes req).
Proof. unfold Nodes, Nodes_parse, Nodes_read, parseTicket. repeat se_step. Qed.

Lemma se_Edges req : reportsStoreErrors (Edges req).
Proof.
  unfold Edges, Edges_ticket, parseTicket. repeat first [apply se_Nodes | se_step].
Qed.

Lemma se_Decorations req : reportsStoreErrors (Decorations req).
Proof.
  unfold Decorations, Decorations_child, getSourceText, getEdges, parseTicket.
  repeat first [apply se_Nodes | se_step].
Qed.

Lemma se_completeAnchors retrieveText files edgeKind anchors :
  reportsStoreErrors (completeAnchors retrieveText files edgeKind anchors).
Proof.
  unfold completeAnchors, completeAnchors_anchor, completeAnchors_parent, decodeSlice.
  repeat first [apply se_Nodes | se_step].
Qed.

Lemma se_CrossReferences_pages req size fuel : ∀ eReply st token,
  reportsStoreErrors (CrossReferences_pages fuel req size eReply st token).
Proof.
  induction fuel as [|fuel IH]; intros eReply st token; simpl.
  - apply se_ret.
  - unfold CrossReferences_source, CrossReferences_group.
    repeat first [apply se_completeAnchors | apply se_Edges | apply IH | se_step].
Qed.

Lemma se_CrossReferences fuel req : reportsStoreErrors (CrossReferences fuel req).
Proof.
  unfold CrossReferences, mergeNodes.
  repeat first [apply se_CrossReferences_pages | apply se_Edges | apply se_Nodes
               | se_step].
Qed.

(** X23: no query swallows an error of the store: when one of the four
    queries returns a reply, the store had answered every call the query
    made.  A failing [Read] therefore always ends the query without a
    reply, wherever in the query it happens. *)
Theorem queries_report_store_errors :
  (∀ req, reportsStoreErrors (Nodes req)) ∧
  (∀ req, reportsStoreErrors (Edges req)) ∧
  (∀ req, reportsStoreErrors (Decorations req)) ∧
  (∀ fuel req, reportsStoreErrors (CrossReferences fuel req)).
Proof.
  split_and!.
  - apply se_Nodes.
  - apply se_Edges.
  - apply se_Decorations.
  - apply se_CrossReferences.
Qed.

End StoreErrors.

(** ** Decorations: the anchors of a whole file *)

Section FileKindReferences.
Context `{Collaborators}.

Lemma getEdges_visitor_elem pred e es : ∀ acc,
  e ∈ es → IsEdge e = true → pred e = true →
  edgeTargetOf e ∈ foldl (getEdges_visitor pred) acc es.
Proof.
  assert (Hkeep : ∀ l acc x, x ∈ acc → x ∈ foldl (getEdges_visitor pred) acc l).
  { induction l as [|e0 l IH]; intros acc x Hx; [done|]. simpl. apply IH.
    unfold getEdges_visitor. destruct (IsEdge e0 && pred e0); [|done].
    destruct (ParseOrdinal (EdgeKind e0)) as [[k o] b].
    apply elem_of_app. by left. }
  induction es as [|e0 es IH]; intros acc Hin He Hp.
  { by apply not_elem_of_nil in Hin. }
  apply elem_of_cons in Hin as [<-|Hin]; [|by apply IH].
  simpl. apply Hkeep. unfold getEdges_visitor at 1, edgeTargetOf.
  rewrite He, Hp. simpl. destruct (ParseOrdinal (EdgeKind e)) as [[k o] b].
  apply elem_of_app. right. apply elem_of_cons. by left.
Qed.

Lemma getEdges_Ok_elem node pred w targets w' e :
  getEdges node pred w = (Ok targets, w') →
  e ∈ entries w → Source e = node → IsEdge e = true → pred e = true →
  edgeTargetOf e ∈ targets.
Proof.
  unfold getEdges. intros [-> _]%mapErr_Ok%gsRead_Ok Hin Hs He Hp.
  apply getEdges_visitor_elem; [|done..].
  apply list_elem_of_filter. split; [by apply readMatches_star|done].
Qed.

Lemma ETarget_edgeTargetOf e : ETarget (edgeTargetOf e) = Target e.
Proof. unfold edgeTargetOf. by destruct (ParseOrdinal (EdgeKind e)) as [[k o] b]. Qed.

(** The facts [Nodes] returns without a filter are the stored ones. *)
Lemma factOr_collected es ticket v name :
  ToVName ticket = Some v →
  factOr (collected [] es ticket) name = default "" (storedFact es v name).
Proof. intros Hv. unfold factOr. by rewrite (collected_lookup _ _ _ _ _ Hv). Qed.

(** The loop body under a file-kind location: the references made so
    far stay, no line about the order of two offsets is logged, and an
    anchor with integer offsets gets a reference for each of its forward
    edges other than [childof]. *)
Lemma Decorations_child_Ok_file req text loc patterns targetSet replyNodes refs
    edge w targetSet' replyNodes' refs' w' :
  LKind loc = Location_FILE →
  Decorations_child req text loc patterns (targetSet, replyNodes, refs) edge w
    = (Ok (targetSet', replyNodes', refs'), w') →
  entries w' = entries w ∧
  (∀ r, r ∈ refs → r ∈ refs') ∧
  (∀ s e, LogInvalidOffsetSpan s e ∈ logged w' → LogInvalidOffsetSpan s e ∈ logged w) ∧
  ∀ a s e target,
    ToVName (ToString (ETarget edge)) = Some a →
    storedFact (entries w) a facts.NodeKind = Some nodes.Anchor →
    Atoi (default "" (storedFact (entries w) a facts.AnchorStart)) = Some s →
    Atoi (default "" (storedFact (entries w) a facts.AnchorEnd)) = Some e →
    target ∈ entries w → Source target = ETarget edge →
    IsEdge target = true → forwardNotChildOf target = true →
    referenceOf text (ToString (ETarget edge)) s e (edgeTargetOf target) ∈ refs'.
Proof.
  intros Hkind Hc. unfold Decorations_child in Hc.
  apply bind_Ok in Hc as (nreply & w1 & Hn & Hc).
  apply mapErr_Ok, Nodes_Ok in Hn as (He1 & Hl1 & _ & Hlook).
  case_ok Hc. destruct (NNodes nreply !! ToString (ETarget edge)) as [node|] eqn:Hnode;
    [|discriminate].
  assert (Hfacts : ∀ a name, ToVName (ToString (ETarget edge)) = Some a →
            factOr node name = default "" (storedFact (entries w) a name)).
  { intros a name Ha. rewrite Hlook in Hnode. simpl in Hnode.
    destruct (_ && _); [|discriminate]. injection Hnode as <-.
    by apply factOr_collected. }
  set (ticket := ToString (ETarget edge)) in *.
  assert (Hlog : ∀ l (m : M unit) (u : unit) wa wb, m = logLine l →
            m wa = (Ok u, wb) → logged wb = l :: logged wa ∧ entries wb = entries wa).
  { intros l m u wa wb -> [= _ <-]. done. }
  case_ok Hc.
  { inv_ok. split_and!; [done|done|by rewrite Hl1|].
    intros v0 s e target Ha Hk. rewrite (Hfacts v0 _ Ha), Hk in E0.
    by rewrite bool_decide_true in E0. }
  destruct (Atoi (factOr node facts.AnchorStart)) as [s0|] eqn:Hs0.
  2:{ inv_ok. match goal with Hq : logLine _ _ = _ |- _ =>
        destruct (Hlog _ _ _ _ _ eq_refl Hq) as [Hq1 Hq2] end.
      split_and!; [congruence|done| |].
      - intros s e. rewrite Hq1, Hl1. by intros [?|?]%elem_of_cons.
      - intros v0 s e target Ha _ Hs. rewrite (Hfacts v0 _ Ha) in Hs0. congruence. }
  destruct (Atoi (factOr node facts.AnchorEnd)) as [e0|] eqn:He0.
  2:{ inv_ok. match goal with Hq : logLine _ _ = _ |- _ =>
        destruct (Hlog _ _ _ _ _ eq_refl Hq) as [Hq1 Hq2] end.
      split_and!; [congruence|done| |].
      - intros s e. rewrite Hq1, Hl1. by intros [?|?]%elem_of_cons.
      - intros v0 s e target Ha _ _ He. rewrite (Hfacts v0 _ Ha) in He0. congruence. }
  rewrite Hkind in Hc. rewrite bool_decide_false in Hc by done.
  apply bind_Ok in Hc as (targets & w2 & Hg & Hc). apply mapErr_Ok in Hg.
  pose proof (getEdges_Ok _ _ _ _ _ Hg) as [Hl2 He2].
  assert (Htargets : ∀ target, target ∈ entries w → Source target = ETarget edge →
            IsEdge target = true → forwardNotChildOf target = true →
            edgeTargetOf target ∈ targets).
  { intros target Hin Hs Hi Hf. eapply getEdges_Ok_elem; [exact Hg| |done..].
    by rewrite He1. }
  case_ok Hc.
  { inv_ok. match goal with Hq : logLine _ _ = _ |- _ =>
      destruct (Hlog _ _ _ _ _ eq_refl Hq) as [Hq1 Hq2] end.
    split_and!; [congruence|done| |].
    - intros s e. rewrite Hq1, Hl2, Hl1. by intros [?|?]%elem_of_cons.
    - intros v0 s e target _ _ _ _ Hin Hs Hi Hf.
      specialize (Htargets target Hin Hs Hi Hf).
      destruct targets; [by apply not_elem_of_nil in Htargets|done]. }
  pose proof (Decorations_targets_fold text ticket s0 e0 targets targetSet refs) as Hfold.
  destruct (foldl _ (targetSet, refs) targets) as [targetSet1 refs1].
  simpl in Hfold. subst refs1. inv_ok.
  split_and!; [congruence| |by rewrite Hl2, Hl1|].
  - intros r Hr. apply elem_of_app. by left.
  - intros v0 s e target Ha _ Hs He Hin Hsrc Hi Hf.
    rewrite (Hfacts v0 _ Ha) in Hs0. rewrite (Hfacts v0 _ Ha) in He0.
    assert (s0 = s) as -> by congruence. assert (e0 = e) as -> by congruence.
    apply elem_of_app. right. apply list_elem_of_fmap. eauto.
Qed.

Lemma Decorations_children_Ok_file req text loc patterns children :
  ∀ targetSet replyNodes refs w targetSet' replyNodes' refs' w',
  LKind loc = Location_FILE →
  foldM (Decorations_child req text loc patterns) children
        (targetSet, replyNodes, refs) w = (Ok (targetSet', replyNodes', refs'), w') →
  entries w' = entries w ∧
  (∀ r, r ∈ refs → r ∈ refs') ∧
  (∀ s e, LogInvalidOffsetSpan s e ∈ logged w' → LogInvalidOffsetSpan s e ∈ logged w) ∧
  ∀ edge a s e target,
    edge ∈ children →
    ToVName (ToString (ETarget edge)) = Some a →
    storedFact (entries w) a facts.NodeKind = Some nodes.Anchor →
    Atoi (default "" (storedFact (entries w) a facts.AnchorStart)) = Some s →
    Atoi (default "" (storedFact (entries w) a facts.AnchorEnd)) = Some e →
    target ∈ entries w → Source target = ETarget edge →
    IsEdge target = true → forwardNotChildOf target = true →
    referenceOf text (ToString (ETarget edge)) s e (edgeTargetOf target) ∈ refs'.
Proof.
  induction children as [|c cs IH];
    intros targetSet replyNodes refs w targetSet' replyNodes' refs' w' Hkind Hf;
    simpl in Hf.
  - inv_ok. split_and!; [done..|]. intros edge ???? Hin. by apply not_elem_of_nil in Hin.
  - apply bind_Ok in Hf as ([[ts1 rn1] refs1] & w1 & Hstep & Hf).
    apply Decorations_child_Ok_file in Hstep as (He1 & Hsub1 & Hlog1 & Hrefs1); [|done].
    apply IH in Hf as (He2 & Hsub2 & Hlog2 & Hrefs2); [|done].
    split_and!; [congruence|by auto|by auto|].
    intros edge a s e target [->|Hin]%elem_of_cons Ha Hk Hs He Ht Hsrc Hi Hfw.
    + apply Hsub2. by eapply Hrefs1.
    + rewrite He1 in Hrefs2. by eapply Hrefs2.
Qed.

(** C10: in a reply of [Decorations] for a file-kind location, an anchor
    child of the file whose [loc/start] and [loc/end] are integers has a
    reference for each of its forward edges other than [childof],
    whatever the order of the two offsets and the length of the text:
    the two points of the reference are the normalizer's points for the
    offsets, and no line about the order of two offsets is logged.  The
    check of that order and the window check are made under a span-kind
    location only. *)
Theorem Decorations_file_kind_references req w reply w' reqLoc fileV text
    child a s e :
  Decorations req w = (Ok reply, w') →
  DReferences req = true →
  LKind (RLocation reply) = Location_FILE →
  DLocation req = Some reqLoc →
  ToVName (LTicket reqLoc) = Some fileV →
  storedFact (entries w) fileV facts.Text = Some text →
  child ∈ entries w → Source child = fileV → EdgeKind child = revChildOfEdgeKind →
  ToVName (ToString (Target child)) = Some a →
  storedFact (entries w) a facts.NodeKind = Some nodes.Anchor →
  Atoi (default "" (storedFact (entries w) a facts.AnchorStart)) = Some s →
  Atoi (default "" (storedFact (entries w) a facts.AnchorEnd)) = Some e →
  (∀ target,
     target ∈ entries w → Source target = Target child →
     IsEdge target = true → forwardNotChildOf target = true →
     mkReference (ToString (Target child)) (ParseOrdinal (EdgeKind target)).1.1
                 (ToString (Target target))
                 (normByteOffset text (int32 s)) (normByteOffset text (int32 e))
       ∈ RReference reply) ∧
  (∀ s' e', LogInvalidOffsetSpan s' e' ∈ logged w' →
            LogInvalidOffsetSpan s' e' ∈ logged w).
Proof.
  intros Hd Hrefs Hkind Hloc Hfile Htext Hchild Hsrc Hck Ha Hk Hs He.
  unfold Decorations in Hd. case_ok Hd. rewrite Hloc in Hd.
  apply bind_Ok in Hd as (fileV' & w0 & Hp & Hd).
  apply mapErr_Ok, parseTicket_Ok in Hp as [Hv ->].
  assert (fileV' = fileV) as -> by congruence.
  apply bind_Ok in Hd as ([text' enc] & w1 & Hsrc' & Hd). apply mapErr_Ok in Hsrc'.
  rewrite getSourceText_run in Hsrc'. destruct (nextFails w); [discriminate|].
  rewrite Htext in Hsrc'. injection Hsrc' as <- <- <-.
  destruct (normLocation text reqLoc) as [err|loc]; [discriminate|].
  apply bind_Ok in Hd as ([sourceText replyEncoding] & w2 & Hst & Hd).
  assert (Hw2 : entries w2 = entries w ∧ logged w2 = logged w).
  { destruct (DSourceText req); [|by inv_ok].
    case_ok Hst; [by inv_ok|]. apply bind_Ok in Hst as (sl & w3 & Hsl & Hst).
    unfold sliceM in Hsl. destruct (slice _ _ _); [|discriminate]. by inv_ok. }
  destruct Hw2 as [He2 Hl2]. rewrite Hrefs in Hd.
  apply bind_Ok in Hd as (children & w3 & Hg & Hd). apply mapErr_Ok in Hg.
  pose proof (getEdges_Ok _ _ _ _ _ Hg) as [Hl3 He3].
  apply bind_Ok in Hd as ([[targetSet replyNodes] refs] & w4 & Hfold & Hd).
  assert (Hreply : RLocation reply = loc ∧ RReference reply = sortBySpan refs ∧
                   logged w' = logged w4).
  { case_ok Hd.
    - apply bind_Ok in Hd as (nr & w5 & Hn & Hd).
      apply mapErr_Ok, Nodes_Ok in Hn as (_ & Hl5 & _). by inv_ok.
    - by inv_ok. }
  destruct Hreply as (Hrl & Hrr & Hlw). rewrite Hrl in Hkind.
  apply Decorations_children_Ok_file in Hfold as (He4 & _ & Hlog & Hall); [|done].
  rewrite He3, He2 in Hall. split.
  - intros target Hin Htsrc Hi Hf.
    assert (Hc : edgeTargetOf child ∈ children).
    { eapply getEdges_Ok_elem; [exact Hg|by rewrite He2|done| |by apply bool_decide_eq_true].
      unfold IsEdge. rewrite Hck. reflexivity. }
    specialize (Hall (edgeTargetOf child) a s e target Hc).
    rewrite ETarget_edgeTargetOf in Hall.
    specialize (Hall Ha Hk Hs He Hin Htsrc Hi Hf).
    rewrite Hrr. unfold sortBySpan. rewrite merge_sort_Permutation.
    unfold referenceOf, edgeTargetOf in Hall.
    by destruct (ParseOrdinal (EdgeKind target)) as [[k o] b].
  - intros s' e'. rewrite Hlw. intros Hin%Hlog. by rewrite Hl3, Hl2 in Hin.
Qed.

End FileKindReferences.

Lemma Decorations_file_kind_references_witness :
  ∃ reply w',
    @Decorations Scenario.collaborators Scenario.decorationsRequest
      (freshWorld Scenario.inverted) = (Ok reply, w') ∧
    mkReference "kythe:?path=f#a3" "/kythe/edge/ref" "kythe:#t1"
                (mkPoint 8 3 0) (mkPoint 2 1 2) ∈ RReference reply ∧
    ∀ s' e', LogInvalidOffsetSpan s' e' ∉ logged w'.
Proof.
  pose (run := @Decorations Scenario.collaborators Scenario.decorationsRequest
                 (freshWorld Scenario.inverted)).
  pose (reply := match run.1 with
                 | Ok r => r
                 | _ => mkDecorationsReply Scenario.wholeFile "" "" [] ∅
                 end).
  assert (Hrun : run = (Ok reply, run.2)) by (vm_compute; reflexivity).
  destruct (@Decorations_file_kind_references Scenario.collaborators
              Scenario.decorationsRequest (freshWorld Scenario.inverted) reply run.2
              Scenario.wholeFile Scenario.fileF
              ("abc" +:+ Scenario.newline +:+ "def" +:+ Scenario.newline)
              (Scenario.edge Scenario.fileF "%/kythe/edge/childof" Scenario.a3)
              Scenario.a3 9 2 Hrun eq_refl
              ltac:(vm_compute; reflexivity) eq_refl
              ltac:(vm_compute; reflexivity) ltac:(vm_compute; reflexivity)
              ltac:(by apply (list_elem_of_lookup_2 _ 2)) eq_refl eq_refl
              ltac:(vm_compute; reflexivity) ltac:(vm_compute; reflexivity)
              ltac:(vm_compute; reflexivity) ltac:(vm_compute; reflexivity))
    as [Href Hlog].
  exists reply, run.2. split; [exact Hrun|]. split.
  - specialize (Href (Scenario.edge Scenario.a3 "/kythe/edge/ref" Scenario.t1)
                  ltac:(by apply (list_elem_of_lookup_2 _ 7)) eq_refl
                  ltac:(vm_compute; reflexivity) ltac:(vm_compute; reflexivity)).
    match type of Href with ?r ∈ _ =>
      assert (Heq : mkReference "kythe:?path=f#a3" "/kythe/edge/ref" "kythe:#t1"
                      (mkPoint 8 3 0) (mkPoint 2 1 2) = r) by (vm_compute; reflexivity)
    end.
    rewrite Heq. exact Href.
  - intros s' e' Hin%Hlog. by apply not_elem_of_nil in Hin.
Defined.
